(** * appium-instruments: the Instruments supervisor, its command channel
      and its output filter

    A shallow embedding of [lib/helpers.js] (the stream helpers and the
    lookup of the binary) and of the wrapper around Apple's Instruments (the
    [CommandHandler] queue and the [Instruments] life cycle), followed by
    the properties proved about them.

    Conventions of the embedding:
    - a JavaScript string is a [string] of 8-bit code units;
    - a caller-supplied callback closure is opaque, identified by a [cbid];
      calling it is recorded as an [action] of the trace;
    - every handler runs in the monad [M]: state passing, a trace of the
      observable actions in program order, and JavaScript exceptions;
    - logging ([logger.info], [logger.error], [info]) is not recorded. *)

From Stdlib Require Import String Ascii List Bool Arith ZArith Lia DecimalString.
Import ListNotations.
Local Open Scope string_scope.
Local Open Scope list_scope.
Local Open Scope nat_scope.

Set Implicit Arguments.

(* ===================================================================== *)
(** * Part I: the model *)
(* ===================================================================== *)

(** ** Characters used by the source *)

Definition LF : ascii := ascii_of_nat 10.
Definition CR : ascii := ascii_of_nat 13.
Definition star : ascii := ascii_of_nat 42.
Definition rparen : ascii := ascii_of_nat 41.
Definition dquote : ascii := ascii_of_nat 34.

(** ** Regular expressions, as the JavaScript matcher runs them

    The two regular expressions of [helpers.js] are written in this syntax
    and run by a backtracking matcher that lists the ways to match in the
    matcher's order of preference (leftmost alternative first, greedy
    quantifiers longest first); the first one is the match JavaScript
    reports.  The expressions have one capturing group, which is not under a
    quantifier. *)

Inductive regex : Type :=
| Eps                         (* the empty pattern *)
| Chr (c : ascii)             (* a literal character *)
| NotChr (c : ascii)          (* [^c] *)
| Dot                         (* .  any character but a line terminator *)
| Bol                         (* ^  without the m flag: start of input *)
| Seq (r1 r2 : regex)
| Alt (r1 r2 : regex)         (* r1|r2 *)
| Plus (r : regex)            (* r+  greedy *)
| Opt (r : regex)             (* r?  greedy *)
| Group (r : regex).          (* (r) capturing group 1 *)

(** A literal string is the sequence of its characters. *)
Fixpoint lit (s : string) : regex :=
  match s with
  | EmptyString => Eps
  | String c s' => Seq (Chr c) (lit s')
  end.

(** The matcher's position: the index in the input, the input from there
    on, and what group 1 captured so far. *)
Record mstate : Type := MState {
  pos : nat;
  rest : list ascii;
  grp : option (list ascii)
}.

Definition advance (st : mstate) : list mstate :=
  match rest st with
  | [] => []
  | _ :: xs => [ {| pos := S (pos st); rest := xs; grp := grp st |} ]
  end.

Definition is_line_terminator (c : ascii) : bool :=
  Ascii.eqb c LF || Ascii.eqb c CR.

(** One character satisfying [p]. *)
Definition one (p : ascii -> bool) (st : mstate) : list mstate :=
  match rest st with
  | [] => []
  | x :: _ => if p x then advance st else []
  end.

(** [r+]: one match of [r], then as many more as possible; an iteration
    that consumed nothing is not repeated. *)
Fixpoint iterate (step : mstate -> list mstate) (fuel : nat) (st : mstate)
  : list mstate :=
  match fuel with
  | O => []
  | S fuel' =>
      flat_map
        (fun st' =>
           (if pos st <? pos st' then iterate step fuel' st' else []) ++ [st'])
        (step st)
  end.

Fixpoint ways (r : regex) (st : mstate) : list mstate :=
  match r with
  | Eps => [st]
  | Chr c => one (Ascii.eqb c) st
  | NotChr c => one (fun x => negb (Ascii.eqb c x)) st
  | Dot => one (fun x => negb (is_line_terminator x)) st
  | Bol => if pos st =? 0 then [st] else []
  | Seq r1 r2 => flat_map (ways r2) (ways r1 st)
  | Alt r1 r2 => ways r1 st ++ ways r2 st
  | Plus r1 => iterate (ways r1) (S (length (rest st))) st
  | Opt r1 => ways r1 st ++ [st]
  | Group r1 =>
      map (fun st' =>
             {| pos := pos st'; rest := rest st';
                grp := Some (firstn (pos st' - pos st) (rest st)) |})
          (ways r1 st)
  end.

(** The match starting at index [i] of the input whose remainder is [s]:
    its length and what group 1 captured. *)
Definition match_at (r : regex) (i : nat) (s : list ascii)
  : option (nat * option (list ascii)) :=
  match ways r {| pos := i; rest := s; grp := None |} with
  | [] => None
  | st :: _ => Some (pos st - i, grp st)
  end.

(** [re.exec(s)] for a regex without the g flag: the match at the leftmost
    index that has one. *)
Fixpoint exec_from (r : regex) (i : nat) (s : list ascii)
  : option (nat * option (list ascii)) :=
  match match_at r i s with
  | Some m => Some m
  | None =>
      match s with
      | [] => None
      | _ :: s' => exec_from r (S i) s'
      end
  end.

Definition exec (r : regex) (s : list ascii) := exec_from r 0 s.

(** [s.replace(re, "")] for a regex with the g flag: every match, found
    from left to right after the end of the previous one, is deleted.
    [skip] counts the characters of the current match still to delete. *)
Fixpoint remove_from (r : regex) (skip i : nat) (s : list ascii) : list ascii :=
  match s with
  | [] => []
  | c :: s' =>
      match skip with
      | S k => remove_from r k (S i) s'
      | O =>
          match match_at r i s with
          | Some (S k, _) => remove_from r k (S i) s'
          | _ => c :: remove_from r 0 (S i) s'
          end
      end
  end.

Definition remove_all (r : regex) (s : list ascii) : list ascii :=
  remove_from r 0 0 s.

(** ** lib/helpers.js: the stream helpers *)

(** [/(\n|^)\*+\n?/g] *)
Definition re_buffer_chars : regex :=
  Seq (Group (Alt (Chr LF) Bol)) (Seq (Plus (Chr star)) (Opt (Chr LF))).

(** [clearBufferChars]: [output.toString().replace(re, "")]. *)
Definition clearBufferChars (output : string) : string :=
  string_of_list_ascii (remove_all re_buffer_chars (list_ascii_of_string output)).

(** [/Instruments Trace Complete.+Output : ([^\)]+)\)/] *)
Definition re_trace_dir : regex :=
  Seq (lit "Instruments Trace Complete")
    (Seq (Plus Dot)
       (Seq (lit "Output : ")
          (Seq (Group (Plus (NotChr rparen))) (Chr rparen)))).

(** [lookForTraceDir]: [match[1]] when the expression matches, [undefined]
    ([None]) otherwise. *)
Definition lookForTraceDir (output : string) : option string :=
  match exec re_trace_dir (list_ascii_of_string output) with
  | Some (_, Some g) => Some (string_of_list_ascii g)
  | _ => None
  end.

Definition nl : string := String LF EmptyString.

(** ** Values exchanged with the caller and the peer *)

(** A caller's callback closure, a socket connection, a child process and
    a timer are known by a number each. *)
Definition cbid : Type := nat.
Definition conn : Type := nat.
Definition pid : Type := nat.
Definition timer : Type := nat.

(** What [JSON.parse] returns.  An object keeps its properties in the
    order of the document. *)
#[warnings="-register-all"]
Inductive json : Type :=
| JNull
| JBool (b : bool)
| JNum (n : Z)
| JStr (s : string)
| JArr (l : list json)
| JObj (kvs : list (string * json)).

Fixpoint assoc (k : string) (kvs : list (string * json)) : option json :=
  match kvs with
  | [] => None
  | (k', v) :: kvs' => if String.eqb k k' then Some v else assoc k kvs'
  end.

(** [d.k], an own property of an object: [None] is JavaScript's
    [undefined], and for [d] other than null [_.has(d, k)] holds exactly
    when it is [Some].  A value that is not an object has no own property
    of these names. *)
Definition prop (d : json) (k : string) : option json :=
  match d with
  | JObj kvs => assoc k kvs
  | _ => None
  end.

Definition is_some {A : Type} (o : option A) : bool :=
  match o with
  | Some _ => true
  | None => false
  end.

(** [UNKNOWN_ERROR] *)
Definition UNKNOWN_ERROR : json :=
  JObj [("status", JNum 13);
        ("value", JStr "Error parsing socket data from instruments")].

Definition ERR_NEVER_CHECKED_IN : string := "Instruments never checked in".
Definition ERR_CRASHED_ON_STARTUP : string := "Instruments crashed on startup".

(** ** Observable actions *)

Inductive signal : Type := SIGTERM | SIGKILL.

(** The effects a handler has on the outside, in program order. *)
Inductive action : Type :=
| CmdCallback (cb : cbid) (result : json)   (* curCommand.cb(data.result) *)
| SockWrite (c : conn) (payload : json)     (* c.write(JSON.stringify(payload)) *)
| SockEnd (c : conn)                        (* c.end() *)
| SockDestroy (c : conn)                    (* c.destroy() *)
| ServerListen                              (* socketServer.listen(sock, ..) *)
| ServerClose                               (* socketServer.close() *)
| FindInstruments                           (* exec('xcrun -find instruments') *)
| Spawn (p : pid)                           (* spawn(instrumentsPath, args, ..) *)
| Kill (p : pid) (sg : signal)              (* proc.kill(sg) *)
| KillAll                                   (* exec('killall -9 "instruments"') *)
| LaunchCb (cb : cbid) (err : option string)           (* launchHandlerCb(err) *)
| ShutdownCb (cb : cbid)                               (* shutdownCb() *)
| ExitCb (cb : cbid) (code : option Z) (traceDir : option string) (* exitHandler(..) *)
| Threw (msg : string).            (* an exception left the handler *)

(** ** The monad of handlers *)

Inductive res (A : Type) : Type :=
| Ret (a : A)
| Exn (msg : string).      (* a thrown exception *)

Arguments Ret {A} a.
Arguments Exn {A} msg.

(** The property key a value is converted to when it names a property
    ([_.has(this.eventRouter, data.event)], [eventRouter[data.event]]).
    An object is converted by its [toString]: a parsed object that has an
    own property of that name, which cannot be a function, has no
    conversion ([valueOf], tried next, gives no primitive), and the attempt
    throws; the others inherit the one of [Object.prototype].  An array
    joins the conversions of its elements, null counting for the empty
    string. *)
Fixpoint toKey (j : json) : res string :=
  match j with
  | JNull => Ret "null"
  | JBool true => Ret "true"
  | JBool false => Ret "false"
  | JNum n => Ret (NilZero.string_of_int (Z.to_int n))
  | JStr s => Ret s
  | JArr l =>
      (fix join (l : list json) : res string :=
         match l with
         | [] => Ret ""
         | x :: l' =>
             match (match x with JNull => Ret "" | _ => toKey x end) with
             | Exn e => Exn e
             | Ret s =>
                 match l' with
                 | [] => Ret s
                 | _ :: _ =>
                     match join l' with
                     | Exn e => Exn e
                     | Ret s' => Ret (s ++ "," ++ s')%string
                     end
                 end
             end
         end) l
  | JObj kvs =>
      match assoc "toString" kvs with
      | Some _ => Exn "TypeError: Cannot convert object to primitive value"
      | None => Ret "[object Object]"
      end
  end.

Definition M (S A : Type) : Type := S -> res A * S * list action.

Definition ret {S A : Type} (a : A) : M S A := fun s => (Ret a, s, []).

Definition bind {S A B : Type} (m : M S A) (f : A -> M S B) : M S B :=
  fun s =>
    match m s with
    | (Ret a, s', t) =>
        match f a s' with
        | (r, s'', t') => (r, s'', t ++ t')
        end
    | (Exn e, s', t) => (Exn e, s', t)
    end.

Definition get {S : Type} : M S S := fun s => (Ret s, s, []).
Definition modify {S : Type} (f : S -> S) : M S unit := fun s => (Ret tt, f s, []).
Definition emit {S : Type} (a : action) : M S unit := fun s => (Ret tt, s, [a]).
Definition throw {S A : Type} (msg : string) : M S A := fun s => (Exn msg, s, []).

Declare Scope monad_scope.
Delimit Scope monad_scope with monad.
Notation "x <- m ;; k" := (bind m (fun x => k))
  (at level 61, m at next level, right associativity) : monad_scope.
Notation "m ;; k" := (bind m (fun _ => k))
  (at level 61, right associativity) : monad_scope.
Local Open Scope monad_scope.

(** [if (b) { m }] *)
Definition when {S : Type} (b : bool) (m : M S unit) : M S unit :=
  if b then m else ret tt.

(** ** CommandHandler: the command queue *)

Record Command : Type := { cmd : string; cb : cbid }.

(** [onReceiveCommand] is either null or the closure that [handleCommand]
    handed to [waitForCommand]; those closures differ only in the connection
    [c] they capture. *)
Record CommandHandler : Type := {
  curCommand : option Command;
  commandQueue : list Command;
  onReceiveCommand : option conn
}.

(** [new CommandHandler()] *)
Definition newCommandHandler : CommandHandler :=
  {| curCommand := None; commandQueue := []; onReceiveCommand := None |}.

Definition nextCommand (c : string) : json := JObj [("nextCommand", JStr c)].

(** The closure of [handleCommand], bound to the handler, for connection
    [c]: shift the queue into [curCommand] and write the command to [c].
    On an empty queue [shift()] returns undefined and reading its [cmd]
    throws. *)
Definition sendNext (c : conn) : M CommandHandler unit :=
  h <- get ;;
  match commandQueue h with
  | e :: q =>
      modify (fun _ => {| curCommand := Some e; commandQueue := q;
                          onReceiveCommand := None |}) ;;
      emit (SockWrite c (nextCommand (cmd e))) ;;
      emit (SockEnd c)
  | [] =>
      modify (fun _ => {| curCommand := None; commandQueue := [];
                          onReceiveCommand := None |}) ;;
      throw "TypeError: Cannot read property 'cmd' of undefined"
  end.

(** [CommandHandler.prototype.waitForCommand], for the closure [sendNext c] *)
Definition waitForCommand (c : conn) : M CommandHandler unit :=
  h <- get ;;
  if negb (length (commandQueue h) =? 0) then sendNext c
  else modify (fun h => {| curCommand := curCommand h;
                           commandQueue := commandQueue h;
                           onReceiveCommand := Some c |}).

(** [CommandHandler.prototype.handleCommand] *)
Definition handleCommand (data : json) (c : conn) : M CommandHandler unit :=
  h <- get ;;
  let hasResult := is_some (prop data "result") in
  let inFlight := is_some (curCommand h) in
  let '(hasResult, result) :=
    if hasResult && negb inFlight then (hasResult, prop data "result")
    else if negb hasResult && inFlight then (true, Some (JBool false))
    else (hasResult, prop data "result") in
  (if hasResult && inFlight then
     match curCommand h, result with
     | Some e, Some r =>
         emit (CmdCallback (cb e) r) ;;
         modify (fun h => {| curCommand := None;
                             commandQueue := commandQueue h;
                             onReceiveCommand := onReceiveCommand h |})
     | _, _ => ret tt
     end
   else ret tt) ;;
  waitForCommand c.

(** [CommandHandler.prototype.sendCommand] *)
Definition sendCommand (cmd0 : string) (cb0 : cbid) : M CommandHandler unit :=
  modify (fun h => {| curCommand := curCommand h;
                      commandQueue := commandQueue h ++ [{| cmd := cmd0; cb := cb0 |}];
                      onReceiveCommand := onReceiveCommand h |}) ;;
  h <- get ;;
  match onReceiveCommand h with
  | Some c => sendNext c
  | None => ret tt
  end.

(** [CommandHandler.prototype.clean] *)
Definition clean : M CommandHandler unit :=
  modify (fun h => {| curCommand := None;
                      commandQueue := commandQueue h;
                      onReceiveCommand := None |}).

(** *** The channel driven by its two entry points *)

Inductive chEvent : Type :=
| Enqueue (cmd0 : string) (cb0 : cbid)        (* sendCommand(cmd, cb) *)
| Inbound (data : json) (c : conn).           (* handleCommand(data, c) *)

Definition chStep (ev : chEvent) : M CommandHandler unit :=
  match ev with
  | Enqueue cmd0 cb0 => sendCommand cmd0 cb0
  | Inbound data c => handleCommand data c
  end.

(** The handler and the trace after the events, each run to completion;
    [None] when one of them threw. *)
Fixpoint chRun (evs : list chEvent) (h : CommandHandler)
  : option (CommandHandler * list action) :=
  match evs with
  | [] => Some (h, [])
  | ev :: evs' =>
      match chStep ev h with
      | (Ret _, h', t) =>
          match chRun evs' h' with
          | Some (h'', t') => Some (h'', t ++ t')
          | None => None
          end
      | (Exn _, _, _) => None
      end
  end.

(** The commands enqueued by the events, in order. *)
Fixpoint enqueued (evs : list chEvent) : list Command :=
  match evs with
  | [] => []
  | Enqueue cmd0 cb0 :: evs' => {| cmd := cmd0; cb := cb0 |} :: enqueued evs'
  | Inbound _ _ :: evs' => enqueued evs'
  end.

(** The commands written to the peer, and the callbacks fired, in order. *)
Fixpoint dispatched (t : list action) : list string :=
  match t with
  | [] => []
  | SockWrite _ (JObj [(_, JStr c)]) :: t' => c :: dispatched t'
  | _ :: t' => dispatched t'
  end.

Fixpoint fired (t : list action) : list cbid :=
  match t with
  | [] => []
  | CmdCallback f _ :: t' => f :: fired t'
  | _ :: t' => fired t'
  end.

(** The number of commands in flight along a trace that starts with [n] in
    flight: a write of a command adds one, a callback retires one.  [None]
    as soon as a second command is written while one is in flight, or a
    callback fires with none in flight. *)
Fixpoint in_flight (n : nat) (t : list action) : option nat :=
  match t with
  | [] => Some n
  | SockWrite _ _ :: t' =>
      match n with
      | O => in_flight 1 t'
      | S _ => None
      end
  | CmdCallback _ _ :: t' =>
      match n with
      | S O => in_flight 0 t'
      | _ => None
      end
  | _ :: t' => in_flight n t'
  end.

(** ** Instruments: the supervisor

    The fields of [this] that the life cycle reads or writes.  The options
    that only shape the spawn command line ([app], [udid], [bootstrap],
    [template], [withoutDelay], [sock]) and those that only shape logging
    ([webSocket], [logNoColors], [guid]) are left out; [xcodeVersion] is
    kept, since [spawnInstruments] throws when it is undefined;
    [errorStreamHandler], which only logs and forwards alerts, and
    [launchAndKill], which no other method calls, are modelled on their own
    further down.  [socketServer] is the
    [server] of the world below.  [flakeyRetries] is a count ([true], as the
    functional test passes it, compares like 1, and undefined like 0). *)

(** The value of an option: undefined, null, or a string. *)
Inductive optval : Type :=
| Undefined
| Null
| Str (s : string).

(** [this.xcodeVersion !== null && this.xcodeVersion[0] === '4'], which
    [spawnInstruments] evaluates before it spawns. *)
Definition isXcode4 (xcodeVersion : optval) : res bool :=
  match xcodeVersion with
  | Undefined => Exn "TypeError: Cannot read property '0' of undefined"
  | Null => Ret false
  | Str EmptyString => Ret false
  | Str (String c _) => Ret (Ascii.eqb c "4")
  end.

(** [exitHandler]: [defaultExitHandler], which only logs, until [start]
    stores its second argument, which may be undefined. *)
Inductive exitFn : Type :=
| DefaultExit
| UserExit (f : option cbid).

(** The one [CommandHandler] object of a session; [commandHandler] is a
    reference to it or null, and [eventRouter.cmd] is [handleCommand] bound
    to it for good. *)
Inductive objref : Type := TheHandler.

Record Instruments : Type := {
  launchTimeout : N;
  termTimeout : N;
  killTimeout : N;
  termTimer : option timer;
  killTimer : option timer;
  flakeyRetries : nat;
  launchTries : nat;
  neverConnected : bool;
  ignoreStartupExit : bool;
  xcodeVersion : optval;
  launchHandlerCalledBack : bool;
  launchHandlerCb : option cbid;
  exitHandler : exitFn;
  socketConnectTimeout : option timer;
  hasConnected : bool;
  traceDir : option string;
  proc : option pid;
  shutdownCb : option cbid;
  didLaunch : bool;
  bufferedData : string;
  instrumentsPath : string;
  commandHandler : option objref;
  currentSocket : option conn;
  instrumentsExited : bool
}.

Definition set_termTimer (v : option timer) (i : Instruments) : Instruments :=
  {| launchTimeout := launchTimeout i; termTimeout := termTimeout i;
     killTimeout := killTimeout i; termTimer := v;
     killTimer := killTimer i; flakeyRetries := flakeyRetries i;
     launchTries := launchTries i; neverConnected := neverConnected i;
     ignoreStartupExit := ignoreStartupExit i;
     xcodeVersion := xcodeVersion i;
     launchHandlerCalledBack := launchHandlerCalledBack i;
     launchHandlerCb := launchHandlerCb i; exitHandler := exitHandler i;
     socketConnectTimeout := socketConnectTimeout i;
     hasConnected := hasConnected i; traceDir := traceDir i;
     proc := proc i; shutdownCb := shutdownCb i;
     didLaunch := didLaunch i; bufferedData := bufferedData i;
     instrumentsPath := instrumentsPath i;
     commandHandler := commandHandler i;
     currentSocket := currentSocket i;
     instrumentsExited := instrumentsExited i |}.

Definition set_launchTries (v : nat) (i : Instruments) : Instruments :=
  {| launchTimeout := launchTimeout i; termTimeout := termTimeout i;
     killTimeout := killTimeout i; termTimer := termTimer i;
     killTimer := killTimer i; flakeyRetries := flakeyRetries i;
     launchTries := v; neverConnected := neverConnected i;
     ignoreStartupExit := ignoreStartupExit i;
     xcodeVersion := xcodeVersion i;
     launchHandlerCalledBack := launchHandlerCalledBack i;
     launchHandlerCb := launchHandlerCb i; exitHandler := exitHandler i;
     socketConnectTimeout := socketConnectTimeout i;
     hasConnected := hasConnected i; traceDir := traceDir i;
     proc := proc i; shutdownCb := shutdownCb i;
     didLaunch := didLaunch i; bufferedData := bufferedData i;
     instrumentsPath := instrumentsPath i;
     commandHandler := commandHandler i;
     currentSocket := currentSocket i;
     instrumentsExited := instrumentsExited i |}.

Definition set_neverConnected (v : bool) (i : Instruments) : Instruments :=
  {| launchTimeout := launchTimeout i; termTimeout := termTimeout i;
     killTimeout := killTimeout i; termTimer := termTimer i;
     killTimer := killTimer i; flakeyRetries := flakeyRetries i;
     launchTries := launchTries i; neverConnected := v;
     ignoreStartupExit := ignoreStartupExit i;
     xcodeVersion := xcodeVersion i;
     launchHandlerCalledBack := launchHandlerCalledBack i;
     launchHandlerCb := launchHandlerCb i; exitHandler := exitHandler i;
     socketConnectTimeout := socketConnectTimeout i;
     hasConnected := hasConnected i; traceDir := traceDir i;
     proc := proc i; shutdownCb := shutdownCb i;
     didLaunch := didLaunch i; bufferedData := bufferedData i;
     instrumentsPath := instrumentsPath i;
     commandHandler := commandHandler i;
     currentSocket := currentSocket i;
     instrumentsExited := instrumentsExited i |}.

Definition set_launchHandlerCalledBack (v : bool) (i : Instruments) : Instruments :=
  {| launchTimeout := launchTimeout i; termTimeout := termTimeout i;
     killTimeout := killTimeout i; termTimer := termTimer i;
     killTimer := killTimer i; flakeyRetries := flakeyRetries i;
     launchTries := launchTries i; neverConnected := neverConnected i;
     ignoreStartupExit := ignoreStartupExit i;
     xcodeVersion := xcodeVersion i;
     launchHandlerCalledBack := v; launchHandlerCb := launchHandlerCb i;
     exitHandler := exitHandler i;
     socketConnectTimeout := socketConnectTimeout i;
     hasConnected := hasConnected i; traceDir := traceDir i;
     proc := proc i; shutdownCb := shutdownCb i;
     didLaunch := didLaunch i; bufferedData := bufferedData i;
     instrumentsPath := instrumentsPath i;
     commandHandler := commandHandler i;
     currentSocket := currentSocket i;
     instrumentsExited := instrumentsExited i |}.

Definition set_launchHandlerCb (v : option cbid) (i : Instruments) : Instruments :=
  {| launchTimeout := launchTimeout i; termTimeout := termTimeout i;
     killTimeout := killTimeout i; termTimer := termTimer i;
     killTimer := killTimer i; flakeyRetries := flakeyRetries i;
     launchTries := launchTries i; neverConnected := neverConnected i;
     ignoreStartupExit := ignoreStartupExit i;
     xcodeVersion := xcodeVersion i;
     launchHandlerCalledBack := launchHandlerCalledBack i;
     launchHandlerCb := v; exitHandler := exitHandler i;
     socketConnectTimeout := socketConnectTimeout i;
     hasConnected := hasConnected i; traceDir := traceDir i;
     proc := proc i; shutdownCb := shutdownCb i;
     didLaunch := didLaunch i; bufferedData := bufferedData i;
     instrumentsPath := instrumentsPath i;
     commandHandler := commandHandler i;
     currentSocket := currentSocket i;
     instrumentsExited := instrumentsExited i |}.

Definition set_exitHandler (v : exitFn) (i : Instruments) : Instruments :=
  {| launchTimeout := launchTimeout i; termTimeout := termTimeout i;
     killTimeout := killTimeout i; termTimer := termTimer i;
     killTimer := killTimer i; flakeyRetries := flakeyRetries i;
     launchTries := launchTries i; neverConnected := neverConnected i;
     ignoreStartupExit := ignoreStartupExit i;
     xcodeVersion := xcodeVersion i;
     launchHandlerCalledBack := launchHandlerCalledBack i;
     launchHandlerCb := launchHandlerCb i; exitHandler := v;
     socketConnectTimeout := socketConnectTimeout i;
     hasConnected := hasConnected i; traceDir := traceDir i;
     proc := proc i; shutdownCb := shutdownCb i;
     didLaunch := didLaunch i; bufferedData := bufferedData i;
     instrumentsPath := instrumentsPath i;
     commandHandler := commandHandler i;
     currentSocket := currentSocket i;
     instrumentsExited := instrumentsExited i |}.

Definition set_socketConnectTimeout (v : option timer) (i : Instruments) : Instruments :=
  {| launchTimeout := launchTimeout i; termTimeout := termTimeout i;
     killTimeout := killTimeout i; termTimer := termTimer i;
     killTimer := killTimer i; flakeyRetries := flakeyRetries i;
     launchTries := launchTries i; neverConnected := neverConnected i;
     ignoreStartupExit := ignoreStartupExit i;
     xcodeVersion := xcodeVersion i;
     launchHandlerCalledBack := launchHandlerCalledBack i;
     launchHandlerCb := launchHandlerCb i; exitHandler := exitHandler i;
     socketConnectTimeout := v; hasConnected := hasConnected i;
     traceDir := traceDir i; proc := proc i; shutdownCb := shutdownCb i;
     didLaunch := didLaunch i; bufferedData := bufferedData i;
     instrumentsPath := instrumentsPath i;
     commandHandler := commandHandler i;
     currentSocket := currentSocket i;
     instrumentsExited := instrumentsExited i |}.

Definition set_hasConnected (v : bool) (i : Instruments) : Instruments :=
  {| launchTimeout := launchTimeout i; termTimeout := termTimeout i;
     killTimeout := killTimeout i; termTimer := termTimer i;
     killTimer := killTimer i; flakeyRetries := flakeyRetries i;
     launchTries := launchTries i; neverConnected := neverConnected i;
     ignoreStartupExit := ignoreStartupExit i;
     xcodeVersion := xcodeVersion i;
     launchHandlerCalledBack := launchHandlerCalledBack i;
     launchHandlerCb := launchHandlerCb i; exitHandler := exitHandler i;
     socketConnectTimeout := socketConnectTimeout i; hasConnected := v;
     traceDir := traceDir i; proc := proc i; shutdownCb := shutdownCb i;
     didLaunch := didLaunch i; bufferedData := bufferedData i;
     instrumentsPath := instrumentsPath i;
     commandHandler := commandHandler i;
     currentSocket := currentSocket i;
     instrumentsExited := instrumentsExited i |}.

Definition set_traceDir (v : option string) (i : Instruments) : Instruments :=
  {| launchTimeout := launchTimeout i; termTimeout := termTimeout i;
     killTimeout := killTimeout i; termTimer := termTimer i;
     killTimer := killTimer i; flakeyRetries := flakeyRetries i;
     launchTries := launchTries i; neverConnected := neverConnected i;
     ignoreStartupExit := ignoreStartupExit i;
     xcodeVersion := xcodeVersion i;
     launchHandlerCalledBack := launchHandlerCalledBack i;
     launchHandlerCb := launchHandlerCb i; exitHandler := exitHandler i;
     socketConnectTimeout := socketConnectTimeout i;
     hasConnected := hasConnected i; traceDir := v; proc := proc i;
     shutdownCb := shutdownCb i; didLaunch := didLaunch i;
     bufferedData := bufferedData i;
     instrumentsPath := instrumentsPath i;
     commandHandler := commandHandler i;
     currentSocket := currentSocket i;
     instrumentsExited := instrumentsExited i |}.

Definition set_proc (v : option pid) (i : Instruments) : Instruments :=
  {| launchTimeout := launchTimeout i; termTimeout := termTimeout i;
     killTimeout := killTimeout i; termTimer := termTimer i;
     killTimer := killTimer i; flakeyRetries := flakeyRetries i;
     launchTries := launchTries i; neverConnected := neverConnected i;
     ignoreStartupExit := ignoreStartupExit i;
     xcodeVersion := xcodeVersion i;
     launchHandlerCalledBack := launchHandlerCalledBack i;
     launchHandlerCb := launchHandlerCb i; exitHandler := exitHandler i;
     socketConnectTimeout := socketConnectTimeout i;
     hasConnected := hasConnected i; traceDir := traceDir i; proc := v;
     shutdownCb := shutdownCb i; didLaunch := didLaunch i;
     bufferedData := bufferedData i;
     instrumentsPath := instrumentsPath i;
     commandHandler := commandHandler i;
     currentSocket := currentSocket i;
     instrumentsExited := instrumentsExited i |}.

Definition set_shutdownCb (v : option cbid) (i : Instruments) : Instruments :=
  {| launchTimeout := launchTimeout i; termTimeout := termTimeout i;
     killTimeout := killTimeout i; termTimer := termTimer i;
     killTimer := killTimer i; flakeyRetries := flakeyRetries i;
     launchTries := launchTries i; neverConnected := neverConnected i;
     ignoreStartupExit := ignoreStartupExit i;
     xcodeVersion := xcodeVersion i;
     launchHandlerCalledBack := launchHandlerCalledBack i;
     launchHandlerCb := launchHandlerCb i; exitHandler := exitHandler i;
     socketConnectTimeout := socketConnectTimeout i;
     hasConnected := hasConnected i; traceDir := traceDir i;
     proc := proc i; shutdownCb := v; didLaunch := didLaunch i;
     bufferedData := bufferedData i;
     instrumentsPath := instrumentsPath i;
     commandHandler := commandHandler i;
     currentSocket := currentSocket i;
     instrumentsExited := instrumentsExited i |}.

Definition set_didLaunch (v : bool) (i : Instruments) : Instruments :=
  {| launchTimeout := launchTimeout i; termTimeout := termTimeout i;
     killTimeout := killTimeout i; termTimer := termTimer i;
     killTimer := killTimer i; flakeyRetries := flakeyRetries i;
     launchTries := launchTries i; neverConnected := neverConnected i;
     ignoreStartupExit := ignoreStartupExit i;
     xcodeVersion := xcodeVersion i;
     launchHandlerCalledBack := launchHandlerCalledBack i;
     launchHandlerCb := launchHandlerCb i; exitHandler := exitHandler i;
     socketConnectTimeout := socketConnectTimeout i;
     hasConnected := hasConnected i; traceDir := traceDir i;
     proc := proc i; shutdownCb := shutdownCb i; didLaunch := v;
     bufferedData := bufferedData i;
     instrumentsPath := instrumentsPath i;
     commandHandler := commandHandler i;
     currentSocket := currentSocket i;
     instrumentsExited := instrumentsExited i |}.

Definition set_bufferedData (v : string) (i : Instruments) : Instruments :=
  {| launchTimeout := launchTimeout i; termTimeout := termTimeout i;
     killTimeout := killTimeout i; termTimer := termTimer i;
     killTimer := killTimer i; flakeyRetries := flakeyRetries i;
     launchTries := launchTries i; neverConnected := neverConnected i;
     ignoreStartupExit := ignoreStartupExit i;
     xcodeVersion := xcodeVersion i;
     launchHandlerCalledBack := launchHandlerCalledBack i;
     launchHandlerCb := launchHandlerCb i; exitHandler := exitHandler i;
     socketConnectTimeout := socketConnectTimeout i;
     hasConnected := hasConnected i; traceDir := traceDir i;
     proc := proc i; shutdownCb := shutdownCb i;
     didLaunch := didLaunch i; bufferedData := v;
     instrumentsPath := instrumentsPath i;
     commandHandler := commandHandler i;
     currentSocket := currentSocket i;
     instrumentsExited := instrumentsExited i |}.

Definition set_instrumentsPath (v : string) (i : Instruments) : Instruments :=
  {| launchTimeout := launchTimeout i; termTimeout := termTimeout i;
     killTimeout := killTimeout i; termTimer := termTimer i;
     killTimer := killTimer i; flakeyRetries := flakeyRetries i;
     launchTries := launchTries i; neverConnected := neverConnected i;
     ignoreStartupExit := ignoreStartupExit i;
     xcodeVersion := xcodeVersion i;
     launchHandlerCalledBack := launchHandlerCalledBack i;
     launchHandlerCb := launchHandlerCb i; exitHandler := exitHandler i;
     socketConnectTimeout := socketConnectTimeout i;
     hasConnected := hasConnected i; traceDir := traceDir i;
     proc := proc i; shutdownCb := shutdownCb i;
     didLaunch := didLaunch i; bufferedData := bufferedData i;
     instrumentsPath := v; commandHandler := commandHandler i;
     currentSocket := currentSocket i;
     instrumentsExited := instrumentsExited i |}.

Definition set_commandHandler (v : option objref) (i : Instruments) : Instruments :=
  {| launchTimeout := launchTimeout i; termTimeout := termTimeout i;
     killTimeout := killTimeout i; termTimer := termTimer i;
     killTimer := killTimer i; flakeyRetries := flakeyRetries i;
     launchTries := launchTries i; neverConnected := neverConnected i;
     ignoreStartupExit := ignoreStartupExit i;
     xcodeVersion := xcodeVersion i;
     launchHandlerCalledBack := launchHandlerCalledBack i;
     launchHandlerCb := launchHandlerCb i; exitHandler := exitHandler i;
     socketConnectTimeout := socketConnectTimeout i;
     hasConnected := hasConnected i; traceDir := traceDir i;
     proc := proc i; shutdownCb := shutdownCb i;
     didLaunch := didLaunch i; bufferedData := bufferedData i;
     instrumentsPath := instrumentsPath i; commandHandler := v;
     currentSocket := currentSocket i;
     instrumentsExited := instrumentsExited i |}.

Definition set_currentSocket (v : option conn) (i : Instruments) : Instruments :=
  {| launchTimeout := launchTimeout i; termTimeout := termTimeout i;
     killTimeout := killTimeout i; termTimer := termTimer i;
     killTimer := killTimer i; flakeyRetries := flakeyRetries i;
     launchTries := launchTries i; neverConnected := neverConnected i;
     ignoreStartupExit := ignoreStartupExit i;
     xcodeVersion := xcodeVersion i;
     launchHandlerCalledBack := launchHandlerCalledBack i;
     launchHandlerCb := launchHandlerCb i; exitHandler := exitHandler i;
     socketConnectTimeout := socketConnectTimeout i;
     hasConnected := hasConnected i; traceDir := traceDir i;
     proc := proc i; shutdownCb := shutdownCb i;
     didLaunch := didLaunch i; bufferedData := bufferedData i;
     instrumentsPath := instrumentsPath i;
     commandHandler := commandHandler i; currentSocket := v;
     instrumentsExited := instrumentsExited i |}.

Definition set_instrumentsExited (v : bool) (i : Instruments) : Instruments :=
  {| launchTimeout := launchTimeout i; termTimeout := termTimeout i;
     killTimeout := killTimeout i; termTimer := termTimer i;
     killTimer := killTimer i; flakeyRetries := flakeyRetries i;
     launchTries := launchTries i; neverConnected := neverConnected i;
     ignoreStartupExit := ignoreStartupExit i;
     xcodeVersion := xcodeVersion i;
     launchHandlerCalledBack := launchHandlerCalledBack i;
     launchHandlerCb := launchHandlerCb i; exitHandler := exitHandler i;
     socketConnectTimeout := socketConnectTimeout i;
     hasConnected := hasConnected i; traceDir := traceDir i;
     proc := proc i; shutdownCb := shutdownCb i;
     didLaunch := didLaunch i; bufferedData := bufferedData i;
     instrumentsPath := instrumentsPath i;
     commandHandler := commandHandler i;
     currentSocket := currentSocket i; instrumentsExited := v |}.

(** The callbacks registered with [setTimeout]. *)
Inductive timerKind : Type :=
| ConnectTimeout       (* this.onSocketNeverConnect.bind(this) *)
| TermTimeout.         (* the closure of termProc *)

Inductive serverState : Type :=
| NoServer | ServerCreated | ServerListening | ServerClosed.

(** The session and the part of the runtime it lives in: the handler
    object, the armed timers, the children that can still raise events, the
    socket server and its open connections, and the asynchronous calls of
    [start] that have not called back yet. *)
Record World : Type := {
  self : Instruments;
  handlerObj : CommandHandler;
  timers : list (timer * timerKind);
  nextTimer : timer;
  procs : list pid;
  nextPid : pid;
  server : serverState;
  conns : list conn;
  pendingPath : nat;
  pendingListen : nat
}.

Definition set_self (v : Instruments) (w : World) : World :=
  {| self := v; handlerObj := handlerObj w; timers := timers w;
     nextTimer := nextTimer w; procs := procs w; nextPid := nextPid w;
     server := server w; conns := conns w; pendingPath := pendingPath w;
     pendingListen := pendingListen w |}.

Definition set_handlerObj (v : CommandHandler) (w : World) : World :=
  {| self := self w; handlerObj := v; timers := timers w;
     nextTimer := nextTimer w; procs := procs w; nextPid := nextPid w;
     server := server w; conns := conns w; pendingPath := pendingPath w;
     pendingListen := pendingListen w |}.

Definition set_timers (v : list (timer * timerKind)) (w : World) : World :=
  {| self := self w; handlerObj := handlerObj w; timers := v;
     nextTimer := nextTimer w; procs := procs w; nextPid := nextPid w;
     server := server w; conns := conns w; pendingPath := pendingPath w;
     pendingListen := pendingListen w |}.

Definition set_nextTimer (v : timer) (w : World) : World :=
  {| self := self w; handlerObj := handlerObj w; timers := timers w;
     nextTimer := v; procs := procs w; nextPid := nextPid w;
     server := server w; conns := conns w; pendingPath := pendingPath w;
     pendingListen := pendingListen w |}.

Definition set_procs (v : list pid) (w : World) : World :=
  {| self := self w; handlerObj := handlerObj w; timers := timers w;
     nextTimer := nextTimer w; procs := v; nextPid := nextPid w;
     server := server w; conns := conns w; pendingPath := pendingPath w;
     pendingListen := pendingListen w |}.

Definition set_nextPid (v : pid) (w : World) : World :=
  {| self := self w; handlerObj := handlerObj w; timers := timers w;
     nextTimer := nextTimer w; procs := procs w; nextPid := v;
     server := server w; conns := conns w; pendingPath := pendingPath w;
     pendingListen := pendingListen w |}.

Definition set_server (v : serverState) (w : World) : World :=
  {| self := self w; handlerObj := handlerObj w; timers := timers w;
     nextTimer := nextTimer w; procs := procs w; nextPid := nextPid w;
     server := v; conns := conns w; pendingPath := pendingPath w;
     pendingListen := pendingListen w |}.

Definition set_conns (v : list conn) (w : World) : World :=
  {| self := self w; handlerObj := handlerObj w; timers := timers w;
     nextTimer := nextTimer w; procs := procs w; nextPid := nextPid w;
     server := server w; conns := v; pendingPath := pendingPath w;
     pendingListen := pendingListen w |}.

Definition set_pendingPath (v : nat) (w : World) : World :=
  {| self := self w; handlerObj := handlerObj w; timers := timers w;
     nextTimer := nextTimer w; procs := procs w; nextPid := nextPid w;
     server := server w; conns := conns w; pendingPath := v;
     pendingListen := pendingListen w |}.

Definition set_pendingListen (v : nat) (w : World) : World :=
  {| self := self w; handlerObj := handlerObj w; timers := timers w;
     nextTimer := nextTimer w; procs := procs w; nextPid := nextPid w;
     server := server w; conns := conns w; pendingPath := pendingPath w;
     pendingListen := v |}.

(** [opts] of [new Instruments(opts)], as far as the fields above go. *)
Record Opts : Type := {
  o_launchTimeout : option N;
  o_flakeyRetries : nat;
  o_ignoreStartupExit : bool;
  o_isSafariLauncherApp : bool;
  o_xcodeVersion : optval
}.

(** [new Instruments(opts)] *)
Definition newInstruments (opts : Opts) : Instruments :=
  {| launchTimeout :=
       match o_launchTimeout opts with
       | Some n => if N.eqb n 0 then 90000%N else n
       | None => 90000%N
       end;
     termTimeout := 3000%N;
     killTimeout := 3000%N;
     termTimer := None;
     killTimer := None;
     flakeyRetries := o_flakeyRetries opts;
     launchTries := 0;
     neverConnected := false;
     ignoreStartupExit := o_ignoreStartupExit opts || o_isSafariLauncherApp opts;
     xcodeVersion := o_xcodeVersion opts;
     launchHandlerCalledBack := false;
     launchHandlerCb := None;
     exitHandler := DefaultExit;
     socketConnectTimeout := None;
     hasConnected := false;
     traceDir := None;
     proc := None;
     shutdownCb := None;
     didLaunch := false;
     bufferedData := "";
     instrumentsPath := "";
     commandHandler := Some TheHandler;
     currentSocket := None;
     instrumentsExited := false |}.

Definition newWorld (opts : Opts) : World :=
  {| self := newInstruments opts;
     handlerObj := newCommandHandler;
     timers := [];
     nextTimer := 0;
     procs := [];
     nextPid := 0;
     server := NoServer;
     conns := [];
     pendingPath := 0;
     pendingListen := 0 |}.

(** *** Access to [this], to the handler object and to the runtime *)

Definition this : M World Instruments := w <- get ;; ret (self w).

Definition withSelf (f : Instruments -> Instruments) : M World unit :=
  modify (fun w => set_self (f (self w)) w).

(** A method of the handler object, run on the object in the heap. *)
Definition onHandler {A : Type} (m : M CommandHandler A) : M World A :=
  fun w =>
    match m (handlerObj w) with
    | (r, h, t) => (r, set_handlerObj h w, t)
    end.

Fixpoint disarm (t : timer) (l : list (timer * timerKind)) : list (timer * timerKind) :=
  match l with
  | [] => []
  | (t', k) :: l' => if t =? t' then disarm t l' else (t', k) :: disarm t l'
  end.

Fixpoint armed (t : timer) (l : list (timer * timerKind)) : option timerKind :=
  match l with
  | [] => None
  | (t', k) :: l' => if t =? t' then Some k else armed t l'
  end.

Fixpoint without (x : nat) (l : list nat) : list nat :=
  match l with
  | [] => []
  | y :: l' => if x =? y then without x l' else y :: without x l'
  end.

Fixpoint member (x : nat) (l : list nat) : bool :=
  match l with
  | [] => false
  | y :: l' => (x =? y) || member x l'
  end.

(** [setTimeout(k, ..)]: a fresh timer, armed. *)
Definition setTimeout (k : timerKind) : M World timer :=
  w <- get ;;
  modify (fun w => set_timers ((nextTimer w, k) :: timers w)
                     (set_nextTimer (S (nextTimer w)) w)) ;;
  ret (nextTimer w).

(** [clearTimeout(h)]; nothing happens for null or undefined. *)
Definition clearTimeout (h : option timer) : M World unit :=
  match h with
  | Some t => modify (fun w => set_timers (disarm t (timers w)) w)
  | None => ret tt
  end.

(** [Instruments.prototype.spawnInstruments]: the test on [xcodeVersion],
    which throws when the option is undefined, then [spawn(..)]: a new
    child, whose events may follow. *)
Definition spawnInstruments : M World pid :=
  i <- this ;;
  match isXcode4 (xcodeVersion i) with
  | Exn msg => throw msg
  | Ret _ =>
      w <- get ;;
      modify (fun w => set_procs (nextPid w :: procs w)
                         (set_nextPid (S (nextPid w)) w)) ;;
      emit (Spawn (nextPid w)) ;;
      ret (nextPid w)
  end.

(** [helpers.killProc]: [killall -9 "instruments"]. *)
Definition helpers_killProc : M World unit := emit KillAll.

(** Modelled from the spec: [Instruments.prototype.killProc], which
    [launchHandler] and [onSocketNeverConnect] call as [this.killProc()] and
    which no file under src/ defines.  The spec has it "forcibly kill any
    remaining child"; it is taken to be the forceful kill that the sibling
    path [termProc] issues through [helpers.killProc]. *)
Definition killProc : M World unit := helpers_killProc.

(** *** The life cycle *)

(** [this.launchHandlerCb(err)] *)
Definition callLaunchHandlerCb (err : option string) : M World unit :=
  i <- this ;;
  match launchHandlerCb i with
  | Some f => emit (LaunchCb f err)
  | None => throw "TypeError: undefined is not a function"
  end.

(** [Instruments.prototype.launch].  [tmpErr] is what preparing the
    temporary directory threw, if it did; [cb] is the caller's callback,
    reached with an error only. *)
Definition launch (cb : string -> M World unit) (tmpErr : option string)
  : M World unit :=
  match tmpErr with
  | Some e => cb e
  | None =>
      withSelf (set_instrumentsExited false) ;;
      p <- spawnInstruments ;;
      withSelf (set_proc (Some p)) ;;
      t <- setTimeout ConnectTimeout ;;
      withSelf (set_socketConnectTimeout (Some t))
  end.

Definition retryable (e : string) : bool :=
  String.eqb e ERR_NEVER_CHECKED_IN || String.eqb e ERR_CRASHED_ON_STARTUP.

(** The end of [launchHandler]: mark the launch as called back, kill on an
    error, call the caller back. *)
Definition launchCallBack (err : option string) : M World unit :=
  withSelf (set_launchHandlerCalledBack true) ;;
  when (is_some err) killProc ;;
  callLaunchHandlerCb err.

(** [Instruments.prototype.launchHandler].  A retry calls [launch] again,
    which may fail preparing the temporary directory and come back here:
    [tmp] lists what the successive preparations throw (nothing, once the
    list is used up). *)
Fixpoint launchHandler (tmp : list (option string)) (err : option string)
  : M World unit :=
  i <- this ;;
  if negb (launchHandlerCalledBack i) then
    clearTimeout (socketConnectTimeout i) ;;
    match err with
    | None =>
        withSelf (set_didLaunch true) ;;
        withSelf (set_neverConnected false) ;;
        launchCallBack None
    | Some e =>
        if (launchTries i <? flakeyRetries i) && retryable e then
          withSelf (set_launchTries (S (launchTries i))) ;;
          killProc ;;
          match tmp with
          | [] => launch (fun _ => ret tt) None
          | o :: tmp' => launch (fun e' => launchHandler tmp' (Some e')) o
          end
        else
          launchCallBack (Some e)
    end
  else ret tt.

(** [this.launch(function (err) { if (err) return this.launchHandler(err); })] *)
Definition launchWithHandler (tmp : list (option string)) : M World unit :=
  match tmp with
  | [] => launch (fun _ => ret tt) None
  | o :: tmp' => launch (fun e => launchHandler tmp' (Some e)) o
  end.

(** [Instruments.prototype.start] *)
Definition start (launchCb : cbid) (unexpectedExitCb : option cbid)
  : M World unit :=
  i <- this ;;
  if didLaunch i then
    emit (LaunchCb launchCb (Some "Called start() but we already launched"))
  else
    withSelf (set_launchHandlerCb (Some launchCb)) ;;
    withSelf (set_exitHandler (UserExit unexpectedExitCb)) ;;
    modify (fun w => set_pendingPath (S (pendingPath w)) w) ;;
    emit FindInstruments.

Definition ERR_NOT_FOUND : string :=
  "Could not find the instruments binary. Please ensure `xcrun -find instruments` can locate it.".

(** [Instruments.prototype.initSocketServer], up to the call of [listen];
    [unlinkErr] is what [fs.unlinkSync] threw, if it did.  The callback of
    [listen] is the event [Listening]. *)
Definition initSocketServer (cb : string -> M World unit)
  (unlinkErr : option string) : M World unit :=
  modify (set_server ServerCreated) ;;
  let listen :=
    modify (fun w => set_pendingListen (S (pendingListen w)) w) ;;
    emit ServerListen in
  match unlinkErr with
  | Some m =>
      match index 0 "ENOENT" m with
      | None => cb m
      | Some _ => listen
      end
  | None => listen
  end.

(** The callback that [start] hands to [helpers.getInstrumentsPath];
    [path] is the trimmed output of [xcrun], [None] when it failed or
    printed nothing. *)
Definition onInstrumentsPath (path : option string) (unlinkErr : option string)
  (tmp : list (option string)) : M World unit :=
  match path with
  | None => launchHandler tmp (Some ERR_NOT_FOUND)
  | Some p =>
      withSelf (set_instrumentsPath p) ;;
      initSocketServer (fun e => launchHandler tmp (Some e)) unlinkErr
  end.

(** [Instruments.prototype.termProc] *)
Definition termProc : M World unit :=
  i <- this ;;
  match proc i with
  | Some p =>
      t <- setTimeout TermTimeout ;;
      withSelf (set_termTimer (Some t)) ;;
      emit (Kill p SIGTERM)
  | None => ret tt
  end.

(** [Instruments.prototype.onSocketNeverConnect] *)
Definition onSocketNeverConnect : M World unit :=
  withSelf (set_neverConnected true) ;;
  killProc.

(** [Instruments.prototype.cleanupInstruments] *)
Definition cleanupInstruments : M World unit :=
  withSelf (set_proc None) ;;
  i <- this ;;
  match commandHandler i with
  | None => throw "TypeError: Cannot read property 'clean' of null"
  | Some _ => onHandler clean
  end ;;
  withSelf (set_commandHandler None) ;;
  i <- this ;;
  match currentSocket i with
  | Some c =>
      emit (SockEnd c) ;;
      emit (SockDestroy c) ;;
      w <- get ;;
      match server w with
      | NoServer => throw "TypeError: Cannot read property 'close' of null"
      | _ => modify (set_server ServerClosed) ;; emit ServerClose
      end
  | None => ret tt
  end.

(** [this.exitHandler(code, this.traceDir)] *)
Definition callExitHandler (code : option Z) : M World unit :=
  i <- this ;;
  match exitHandler i with
  | DefaultExit => ret tt
  | UserExit (Some f) => emit (ExitCb f code (traceDir i))
  | UserExit None => throw "TypeError: undefined is not a function"
  end.

(** [Instruments.prototype.onInstrumentsExit] *)
Definition onInstrumentsExit (code : option Z) (tmp : list (option string))
  : M World unit :=
  i <- this ;;
  clearTimeout (termTimer i) ;;
  clearTimeout (killTimer i) ;;
  if neverConnected i then
    withSelf (set_neverConnected false) ;;
    launchHandler tmp (Some ERR_NEVER_CHECKED_IN)
  else if negb (didLaunch i) && negb (ignoreStartupExit i) then
    launchHandler tmp (Some ERR_CRASHED_ON_STARTUP)
  else
    cleanupInstruments ;;
    if ignoreStartupExit i then launchHandler tmp None
    else
      match shutdownCb i with
      | Some f =>
          emit (ShutdownCb f) ;;
          withSelf (set_shutdownCb None)
      | None => callExitHandler code
      end.

(** The listeners that [launch] puts on the child: ["error"] ... *)
Definition onProcError (msg : string) (tmp : list (option string))
  : M World unit :=
  match index 0 "ENOENT" msg with
  | Some _ =>
      withSelf (set_proc None) ;;
      i <- this ;;
      when (negb (instrumentsExited i))
        (withSelf (set_instrumentsExited true) ;;
         launchHandler tmp (Some ("Unable to spawn instruments: " ++ msg)%string))
  | None => ret tt
  end.

(** ... and ["exit"]. *)
Definition onProcExit (code : option Z) (tmp : list (option string))
  : M World unit :=
  i <- this ;;
  when (negb (instrumentsExited i))
    (withSelf (set_instrumentsExited true) ;;
     onInstrumentsExit code tmp).

(** [outputStreamHandler(instruments)], on a chunk of the child's stdout. *)
Definition outputStreamHandler (output : string) : M World unit :=
  let output := clearBufferChars output in
  match lookForTraceDir output with
  | Some d => when (negb (String.eqb d "")) (withSelf (set_traceDir (Some d)))
  | None => ret tt
  end.

(** [Instruments.prototype.onSocketConnect]: the body, run when a
    connection arrives ... *)
Definition onSocketConnect (c : conn) : M World unit :=
  i <- this ;;
  when (negb (hasConnected i))
    (withSelf (set_hasConnected true) ;;
     launchHandler [] None) ;;
  withSelf (set_currentSocket (Some c)).

(** ... the listener on its data ... *)
Definition onSocketData (chunk : string) : M World unit :=
  withSelf (fun i => set_bufferedData (bufferedData i ++ chunk)%string i).

(** ... on its ["close"] ... *)
Definition onSocketClose : M World unit :=
  withSelf (set_currentSocket None).

(** ... and on its ["end"].  [JSON_parse] is JavaScript's [JSON.parse];
    [None] stands for the exception it throws on malformed text.
    [_.has(obj, key)] is [hasOwnProperty.call(obj, key)]: it throws when
    [obj] is null, and when [key] has no conversion to a property key. *)
Definition onSocketEnd (JSON_parse : string -> option json) (c : conn)
  : M World unit :=
  i <- this ;;
  withSelf (set_bufferedData "") ;;
  let data :=
    match JSON_parse (bufferedData i) with
    | Some d => d
    | None => JObj [("event", JStr "cmd"); ("result", UNKNOWN_ERROR)]
    end in
  match data with
  | JNull =>                             (* _.has(null, 'event') *)
      throw "TypeError: Cannot convert undefined or null to object"
  | _ =>
      match prop data "event" with
      | None => ret tt                   (* !_.has(data, 'event') *)
      | Some ev =>
          match toKey ev with
          | Exn msg => throw msg         (* _.has(this.eventRouter, data.event) *)
          | Ret key =>
              if negb (String.eqb key "cmd") then ret tt
              else onHandler (handleCommand data c)
          end
      end
  end.

(** [Instruments.prototype.sendCommand] *)
Definition Instruments_sendCommand (cmd0 : string) (cb0 : cbid) : M World unit :=
  i <- this ;;
  match commandHandler i with
  | None => throw "TypeError: Cannot read property 'sendCommand' of null"
  | Some _ => onHandler (sendCommand cmd0 cb0)
  end.

(** [Instruments.prototype.shutdown] *)
Definition shutdown (cb0 : cbid) : M World unit :=
  termProc ;;
  withSelf (set_shutdownCb (Some cb0)).

(** ** Events

    What drives a started session: the caller's calls of [sendCommand]
    and [shutdown], and the events of the runtime.  A further call of
    [start] is not among them: where one matters it is a step of its own,
    [complete (start ..)].  An event that may reach [launch] carries what
    preparing the temporary directory throws there ([tmp]). *)

Inductive event : Type :=
| CallSendCommand (cmd0 : string) (cb0 : cbid)   (* instruments.sendCommand(cmd, cb) *)
| CallShutdown (cb0 : cbid)                      (* instruments.shutdown(cb) *)
| XcrunDone (path : option string) (unlinkErr : option string)
    (tmp : list (option string))                 (* getInstrumentsPath calls back *)
| Listening (tmp : list (option string))         (* listen calls back *)
| ProcError (p : pid) (msg : string) (tmp : list (option string))
| ProcExit (p : pid) (code : option Z) (tmp : list (option string))
| ProcStdout (p : pid) (chunk : string)
| TimerFired (t : timer)
| SocketConnect (c : conn)
| SocketData (c : conn) (chunk : string)
| SocketEnd (c : conn)
| SocketClose (c : conn).

Section Driver.

(** JavaScript's [JSON.parse], [None] where it throws. *)
Variable JSON_parse : string -> option json.

(** The listener of each event, after the runtime's own bookkeeping. *)
Definition handle (ev : event) : M World unit :=
  match ev with
  | CallSendCommand cmd0 cb0 => Instruments_sendCommand cmd0 cb0
  | CallShutdown cb0 => shutdown cb0
  | XcrunDone path unlinkErr tmp =>
      modify (fun w => set_pendingPath (pendingPath w - 1) w) ;;
      onInstrumentsPath path unlinkErr tmp
  | Listening tmp =>
      modify (fun w => set_server ServerListening
                         (set_pendingListen (pendingListen w - 1) w)) ;;
      launchWithHandler tmp
  | ProcError _ msg tmp => onProcError msg tmp
  | ProcExit p code tmp =>
      modify (fun w => set_procs (without p (procs w)) w) ;;
      onProcExit code tmp
  | ProcStdout _ chunk => outputStreamHandler chunk
  | TimerFired t =>
      w <- get ;;
      match armed t (timers w) with
      | None => ret tt
      | Some k =>
          modify (fun w => set_timers (disarm t (timers w)) w) ;;
          match k with
          | ConnectTimeout => onSocketNeverConnect
          | TermTimeout => helpers_killProc
          end
      end
  | SocketConnect c =>
      modify (fun w => set_conns (c :: conns w) w) ;;
      onSocketConnect c
  | SocketData _ chunk => onSocketData chunk
  | SocketEnd c => onSocketEnd JSON_parse c
  | SocketClose c =>
      modify (fun w => set_conns (without c (conns w)) w) ;;
      onSocketClose
  end.

(** A handler run to completion: the world it leaves and its trace, an
    exception that leaves it being the trace's last action. *)
Definition complete (m : M World unit) (w : World) : World * list action :=
  match m w with
  | (Ret _, w', t) => (w', t)
  | (Exn msg, w', t) => (w', t ++ [Threw msg])
  end.

Definition step (ev : event) (w : World) : World * list action :=
  complete (handle ev) w.

Fixpoint run (evs : list event) (w : World) : World * list action :=
  match evs with
  | [] => (w, [])
  | ev :: evs' =>
      let '(w', t) := step ev w in
      let '(w'', t') := run evs' w' in
      (w'', t ++ t')
  end.

(** Whether the runtime can deliver the event in world [w]: a callback
    of a call that is pending, an event of a live child, of an armed timer,
    of the listening server or of an open connection.  The caller's calls
    are always possible. *)
Definition enabled (ev : event) (w : World) : bool :=
  match ev with
  | CallSendCommand _ _ => true
  | CallShutdown _ => true
  | XcrunDone _ _ _ => 0 <? pendingPath w
  | Listening _ => 0 <? pendingListen w
  | ProcError p _ _ => member p (procs w)
  | ProcExit p _ _ => member p (procs w)
  | ProcStdout p _ => member p (procs w)
  | TimerFired t => is_some (armed t (timers w))
  | SocketConnect c =>
      match server w with
      | ServerListening => negb (member c (conns w))
      | _ => false
      end
  | SocketData c _ => member c (conns w)
  | SocketEnd c => member c (conns w)
  | SocketClose c => member c (conns w)
  end.

(** Every event of the list is enabled when its turn comes. *)
Fixpoint feasible (evs : list event) (w : World) : bool :=
  match evs with
  | [] => true
  | ev :: evs' => enabled ev w && feasible evs' (fst (step ev w))
  end.

(** [new Instruments(opts)] followed by [start(launchCb, unexpectedExitCb)]. *)
Definition started (opts : Opts) (launchCb : cbid) (unexpectedExitCb : option cbid)
  : World * list action :=
  complete (start launchCb unexpectedExitCb) (newWorld opts).

(** A session: [start] on a new object, then the events. *)
Definition session (opts : Opts) (launchCb : cbid) (unexpectedExitCb : option cbid)
  (evs : list event) : World * list action :=
  let '(w, t) := started opts launchCb unexpectedExitCb in
  let '(w', t') := run evs w in
  (w', t ++ t').

End Driver.

(** *** Reading a trace *)

Fixpoint launchCbs (t : list action) : list (cbid * option string) :=
  match t with
  | [] => []
  | LaunchCb f e :: t' => (f, e) :: launchCbs t'
  | _ :: t' => launchCbs t'
  end.

Fixpoint shutdownCbs (t : list action) : list cbid :=
  match t with
  | [] => []
  | ShutdownCb f :: t' => f :: shutdownCbs t'
  | _ :: t' => shutdownCbs t'
  end.

Fixpoint spawns (t : list action) : list pid :=
  match t with
  | [] => []
  | Spawn p :: t' => p :: spawns t'
  | _ :: t' => spawns t'
  end.

(** The commands the handler has accepted and not answered yet: the one in
    flight, then the queue. *)
Definition slot (h : CommandHandler) : list Command :=
  match curCommand h with
  | Some e => [e]
  | None => []
  end.

Definition pending (h : CommandHandler) : list Command :=
  slot h ++ commandQueue h.

(** A request to dispatch is parked only while nothing is in flight and
    nothing is queued. *)
Definition parked_idle (h : CommandHandler) : Prop :=
  onReceiveCommand h <> None -> curCommand h = None /\ commandQueue h = [].

Definition is_shutdown_call (ev : event) : bool :=
  match ev with
  | CallShutdown _ => true
  | _ => false
  end.

(** ** Sample inputs

    The peer's two documents used in the examples, and [JSON.parse] on the
    texts the examples feed it: those two documents, and text that is not
    JSON. *)

Definition quoted (s : string) : string :=
  String dquote (s ++ String dquote EmptyString)%string.

(** [{"event":"cmd"}] *)
Definition doc_ready : string :=
  ("{" ++ quoted "event" ++ ":" ++ quoted "cmd" ++ "}")%string.

(** [{"event":"cmd","result":1}] *)
Definition doc_result : string :=
  ("{" ++ quoted "event" ++ ":" ++ quoted "cmd" ++ ","
       ++ quoted "result" ++ ":1}")%string.

Definition sample_parse (s : string) : option json :=
  if String.eqb s doc_ready then Some (JObj [("event", JStr "cmd")])
  else if String.eqb s doc_result then
    Some (JObj [("event", JStr "cmd"); ("result", JNum 1)])
  else None.

Definition sample_opts : Opts :=
  {| o_launchTimeout := None; o_flakeyRetries := 0;
     o_ignoreStartupExit := false; o_isSafariLauncherApp := false;
     o_xcodeVersion := Str "5.1" |}.

(** ** The vocabulary of the properties *)

(** [post m s Q]: running [m] from [s] ends in a result, a state and a trace
    that satisfy [Q]. *)
Definition post {St A : Type} (m : M St A) (s : St)
  (Q : res A -> St -> list action -> Prop) : Prop :=
  match m s with
  | (r, s', t) => Q r s' t
  end.

(** The methods of the handler object touch nothing but that object, and
    their traces hold channel actions only. *)
Definition channel_trace (t : list action) : Prop :=
  launchCbs t = [] /\ shutdownCbs t = [] /\ spawns t = [].

Definition channel_method {A : Type} (m : M CommandHandler A) : Prop :=
  forall h, match m h with (_, _, t) => channel_trace t end.

(** What every handler other than [start] guarantees about the launch,
    from the world [w] it starts in to the world [w'] it leaves, with trace
    [t], [lcb] being the caller's launch callback: the stored callback and
    the budget stay; the retry count grows only, and stays within the budget;
    once the launch is called back it stays so and no launch callback fires;
    before that, either none fires, or exactly one does, the caller's, and
    the launch is called back from then on; and a peer that has checked in,
    or a launch that is done, means the launch was called back. *)
Record launch_rel (lcb : cbid) (w w' : World) (t : list action) : Prop := {
  lr_cb : launchHandlerCb (self w') = launchHandlerCb (self w);
  lr_budget : flakeyRetries (self w') = flakeyRetries (self w);
  lr_tries : launchTries (self w) <= launchTries (self w');
  lr_bound : launchTries (self w) <= flakeyRetries (self w) ->
             launchTries (self w') <= flakeyRetries (self w);
  lr_done : launchHandlerCalledBack (self w) = true ->
            launchHandlerCalledBack (self w') = true /\ launchCbs t = [];
  lr_once : launchHandlerCalledBack (self w) = false ->
            launchHandlerCb (self w) = Some lcb ->
            (launchHandlerCalledBack (self w') = false /\ launchCbs t = []) \/
            (launchHandlerCalledBack (self w') = true /\
             exists e, launchCbs t = [(lcb, e)]);
  lr_conn : (hasConnected (self w) = true ->
             launchHandlerCalledBack (self w) = true) ->
            hasConnected (self w') = true ->
            launchHandlerCalledBack (self w') = true;
  lr_launched : (didLaunch (self w) = true ->
                 launchHandlerCalledBack (self w) = true) ->
                didLaunch (self w') = true ->
                launchHandlerCalledBack (self w') = true
}.

Definition keeps (lcb : cbid) {A : Type} (m : M World A) : Prop :=
  forall w, post m w (fun _ w' t => launch_rel lcb w w' t).

(** A handler that fires no shutdown callback and leaves the stored one. *)
Definition quiet (w w' : World) (t : list action) : Prop :=
  shutdownCbs t = [] /\ shutdownCb (self w') = shutdownCb (self w).

(** A handler that fires the stored shutdown callback, once, and clears
    it, or else is quiet. *)
Definition shut_rel (w w' : World) (t : list action) : Prop :=
  quiet w w' t \/
  (exists f, shutdownCb (self w) = Some f /\ shutdownCbs t = [f] /\
             shutdownCb (self w') = None).



(** *** Shapes of output chunks *)

(** A run of [n] filler characters. *)
Fixpoint stars (n : nat) : list ascii :=
  match n with
  | O => []
  | S n' => star :: stars n'
  end.

(** No line break of the text is followed by a filler character. *)
Fixpoint lf_star_free (l : list ascii) : bool :=
  match l with
  | [] => true
  | c :: l' =>
      negb (Ascii.eqb c LF && match l' with
                              | c' :: _ => Ascii.eqb c' star
                              | [] => false
                              end)
      && lf_star_free l'
  end.

Definition starts_with_star (l : list ascii) : bool :=
  match l with
  | c :: _ => Ascii.eqb star c
  | [] => false
  end.

(** The characters of a string. *)
Definition chars (s : string) : list ascii := list_ascii_of_string s.

Definition space : ascii := ascii_of_nat 32.

(** The text has no occurrence of [c]. *)
Definition lacks (c : ascii) (l : list ascii) : bool :=
  forallb (fun x => negb (Ascii.eqb x c)) l.

Definition no_line_terminator (l : list ascii) : bool :=
  forallb (fun c => negb (is_line_terminator c)) l.

(** The two literals of the completion-line expression. *)
Definition marker : string := "Instruments Trace Complete".
Definition output_label : string := "Output : ".

(** *** Shapes of matches *)

(** A filler character: an asterisk or a line break. *)
Definition is_filler (c : ascii) : bool := Ascii.eqb c star || Ascii.eqb c LF.

(** The text other than filler characters. *)
Definition genuine (l : list ascii) : list ascii :=
  filter (fun c => negb (is_filler c)) l.

(** [consumes P r]: every way to match [r] moves on over characters that
    satisfy [P], and only counts them. *)
Definition consumes (P : ascii -> Prop) (step : mstate -> list mstate) : Prop :=
  forall st st', In st' (step st) ->
    exists l, rest st = l ++ rest st' /\ pos st' = pos st + length l /\ Forall P l.

(** What each expression consumes, read off its shape. *)
Fixpoint within (P : ascii -> Prop) (r : regex) : Prop :=
  match r with
  | Eps | Bol => True
  | Chr c => P c
  | NotChr _ | Dot => forall c, P c
  | Seq r1 r2 | Alt r1 r2 => within P r1 /\ within P r2
  | Plus r1 | Opt r1 | Group r1 => within P r1
  end.

(** [re.test(s)] *)
Definition test (r : regex) (s : string) : bool :=
  is_some (exec r (list_ascii_of_string s)).

(** ** The error stream *)

(** [/Call to onAlert returned 'YES'/] *)
Definition alert_text : string := "Call to onAlert returned 'YES'".
Definition re_alert : regex := lit alert_text.

(** [instruments.webSocket.sockets.emit(name, {message: message})] *)
Inductive wsAction : Type :=
| WsEmit (name : string) (message : string).

(** [errorStreamHandler(instruments)], on a chunk of the child's stderr;
    [webSocket] tells whether [instruments.webSocket], which the constructor
    copies from the options and nothing changes, is set. *)
Definition errorStreamHandler (webSocket : bool) (output : string) : list wsAction :=
  if webSocket then
    if test re_alert output then [WsEmit "alert" output] else []
  else [].

(** [s] holds a completion line that names [p]: the marker, some text on
    the same line, the label, [p], a closing parenthesis. *)
Definition completion_line (s p : list ascii) : Prop :=
  exists pre mid post,
    s = pre ++ chars marker ++ mid ++ chars output_label ++ p ++ rparen :: post /\
    mid <> [] /\ no_line_terminator mid = true /\
    p <> [] /\ lacks rparen p = true.

(** [k] filler lines in a row, of [S n] asterisks each. *)
Fixpoint filler_lines (n k : nat) : list ascii :=
  match k with
  | O => []
  | S k' => stars (S n) ++ LF :: filler_lines n k'
  end.

(** Of [m] filler lines that are not at the start of a chunk, what is
    left: the asterisks of the first, the third, and so on, and the line
    break of the last line if it is one of these. *)
Fixpoint survivors (n m : nat) : list ascii :=
  match m with
  | O => []
  | S O => stars (S n) ++ [LF]
  | S (S m') => stars (S n) ++ survivors n m'
  end.

(** ** lib/helpers.js: finding the binary *)

(** White space and line terminators, as [String.prototype.trim] strips
    them, among the code units below 256: TAB, LF, VT, FF, CR, space and
    the no-break space. *)
Definition is_white_space (c : ascii) : bool :=
  let n := nat_of_ascii c in
  ((9 <=? n) && (n <=? 13)) || (n =? 32) || (n =? 160).

Fixpoint trimStart (l : list ascii) : list ascii :=
  match l with
  | c :: l' => if is_white_space c then trimStart l' else l
  | [] => []
  end.

(** [s.trim()] *)
Definition trim (s : string) : string :=
  string_of_list_ascii
    (rev (trimStart (rev (trimStart (list_ascii_of_string s))))).

(** [helpers.getInstrumentsPath]: the callback it hands to [exec], given
    the error and the standard output of [xcrun] (undefined is [None]).
    The result is what it passes on: [Some path] for [cb(null, path)],
    [None] for [cb(new Error(..))], whose message is [ERR_NOT_FOUND]. *)
Definition getInstrumentsPath (err : option string) (stdout : option string)
  : option string :=
  let stdout := match stdout with Some s => s | None => "" end in
  let instrumentsPath := trim stdout in
  if is_some err || String.eqb instrumentsPath "" then None
  else Some instrumentsPath.

(** A text that starts with a character that is not white space. *)
Definition starts_black (l : list ascii) : bool :=
  match l with
  | c :: _ => negb (is_white_space c)
  | [] => false
  end.

(** ** launchAndKill

    [Instruments.prototype.launchAndKill] on its own: no other method
    calls it, and it shares with the life cycle nothing but
    [instrumentsPath].  Its state is that field, the local variable
    [returned], and what the runtime holds for it: the pending lookup, the
    child [diedTooYoung] and the timer. *)

Inductive lakAction : Type :=
| LakFind                          (* helpers.getInstrumentsPath(..) *)
| LakSpawn (tmpDir : string)       (* this.spawnInstruments(tmpDir) *)
| LakSetTimeout (ms : N)           (* setTimeout(.., msToLetLive) *)
| LakKill (sg : signal)            (* diedTooYoung.kill(sg) *)
| LakCb (err : option string)      (* cb(err) *)
| LakThrew (msg : string).         (* an exception left the callback *)

Record LakState : Type := {
  lak_instrumentsPath : string;
  returned : bool;
  lak_pending : bool;      (* the lookup has not called back yet *)
  lak_child : bool;        (* diedTooYoung is spawned, its listener attached *)
  lak_timer : bool         (* the timer is armed *)
}.

(** The call itself: the lookup is started. *)
Definition launchAndKill (instrumentsPath0 : string) : LakState * list lakAction :=
  ({| lak_instrumentsPath := instrumentsPath0; returned := false;
      lak_pending := true; lak_child := false; lak_timer := false |},
   [LakFind]).

(** The callback of the lookup ([path] as in [onInstrumentsPath]).
    [spawnInstruments] throws when [xcodeVersion] is undefined. *)
Definition lak_onInstrumentsPath (xcodeVersion : optval) (msToLetLive : N)
  (path : option string) (st : LakState) : LakState * list lakAction :=
  match path with
  | None => (st, [LakCb (Some ERR_NOT_FOUND)])
  | Some p =>
      match isXcode4 xcodeVersion with
      | Exn msg =>
          ({| lak_instrumentsPath := p; returned := returned st;
              lak_pending := lak_pending st; lak_child := lak_child st;
              lak_timer := lak_timer st |},
           [LakThrew msg])
      | Ret _ =>
          ({| lak_instrumentsPath := p; returned := false;
              lak_pending := lak_pending st; lak_child := true;
              lak_timer := true |},
           [LakSpawn "/tmp"; LakSetTimeout msToLetLive])
      end
  end.

(** The listener on the child's ["error"]. *)
Definition lak_onError (msg : string) (st : LakState) : LakState * list lakAction :=
  match index 0 "ENOENT" msg with
  | Some _ =>
      if negb (returned st) then
        ({| lak_instrumentsPath := lak_instrumentsPath st; returned := true;
            lak_pending := lak_pending st; lak_child := lak_child st;
            lak_timer := lak_timer st |},
         [LakCb (Some ("Unable to spawn instruments: " ++ msg)%string)])
      else (st, [])
  | None => (st, [])
  end.

(** The timer's function. *)
Definition lak_onTimeout (st : LakState) : LakState * list lakAction :=
  if negb (returned st) then
    ({| lak_instrumentsPath := lak_instrumentsPath st; returned := true;
        lak_pending := lak_pending st; lak_child := lak_child st;
        lak_timer := lak_timer st |},
     [LakKill SIGKILL; LakCb None])
  else (st, [LakKill SIGKILL]).

Inductive lakEvent : Type :=
| LakXcrunDone (path : option string)   (* the lookup calls back *)
| LakProcError (msg : string)           (* the child emits "error" *)
| LakTimerFired.                        (* the timer fires *)

(** An event, when the runtime can deliver it: the lookup calls back
    once, the child's events need the child, the timer fires once. *)
Definition lakStep (xcodeVersion : optval) (msToLetLive : N) (ev : lakEvent)
  (st : LakState)
  : LakState * list lakAction :=
  match ev with
  | LakXcrunDone path =>
      if lak_pending st then
        lak_onInstrumentsPath xcodeVersion msToLetLive path
          {| lak_instrumentsPath := lak_instrumentsPath st; returned := returned st;
             lak_pending := false; lak_child := lak_child st;
             lak_timer := lak_timer st |}
      else (st, [])
  | LakProcError msg =>
      if lak_child st then lak_onError msg st else (st, [])
  | LakTimerFired =>
      if lak_timer st then
        lak_onTimeout
          {| lak_instrumentsPath := lak_instrumentsPath st; returned := returned st;
             lak_pending := lak_pending st; lak_child := lak_child st;
             lak_timer := false |}
      else (st, [])
  end.

Fixpoint lakRun (xcodeVersion : optval) (msToLetLive : N) (evs : list lakEvent)
  (st : LakState) : LakState * list lakAction :=
  match evs with
  | [] => (st, [])
  | ev :: evs' =>
      let '(st', t) := lakStep xcodeVersion msToLetLive ev st in
      let '(st'', t') := lakRun xcodeVersion msToLetLive evs' st' in
      (st'', t ++ t')
  end.

(** [launchAndKill(msToLetLive, cb)], then the events. *)
Definition lakSession (instrumentsPath0 : string) (xcodeVersion : optval)
  (msToLetLive : N) (evs : list lakEvent) : LakState * list lakAction :=
  let '(st, t) := launchAndKill instrumentsPath0 in
  let '(st', t') := lakRun xcodeVersion msToLetLive evs st in
  (st', t ++ t').

Fixpoint lakCbs (t : list lakAction) : list (option string) :=
  match t with
  | [] => []
  | LakCb e :: t' => e :: lakCbs t'
  | _ :: t' => lakCbs t'
  end.

Fixpoint lakKills (t : list lakAction) : list signal :=
  match t with
  | [] => []
  | LakKill sg :: t' => sg :: lakKills t'
  | _ :: t' => lakKills t'
  end.

Fixpoint lakThrown (t : list lakAction) : list string :=
  match t with
  | [] => []
  | LakThrew msg :: t' => msg :: lakThrown t'
  | _ :: t' => lakThrown t'
  end.

(** What the caller may be told: success, that the binary was not
    found, or that the child could not be spawned for want of the
    executable. *)
Definition lak_told (err : option string) : Prop :=
  match err with
  | None => True
  | Some m =>
      m = ERR_NOT_FOUND \/
      exists msg, m = ("Unable to spawn instruments: " ++ msg)%string /\
                  index 0 "ENOENT" msg <> None
  end.

(** The lookup has called back and no timer is armed: the call is over. *)
Definition lak_over (st : LakState) : bool :=
  negb (lak_pending st) && negb (lak_timer st).

(** The stages of a call, with the trace so far: waiting for the lookup;
    over, the lookup having failed; over, [spawnInstruments] having thrown;
    child spawned and timer armed, the caller called back or not; timer
    fired. *)
Definition lak_inv (xcodeVersion : optval) (st : LakState) (t : list lakAction)
  : Prop :=
  (lak_pending st = true /\ lak_child st = false /\ lak_timer st = false /\
   lakCbs t = [] /\ lakKills t = [] /\ lakThrown t = []) \/
  (lak_pending st = false /\ lak_child st = false /\ lak_timer st = false /\
   length (lakCbs t) = 1 /\ lakKills t = [] /\ lakThrown t = []) \/
  (lak_pending st = false /\ lak_child st = false /\ lak_timer st = false /\
   lakCbs t = [] /\ lakKills t = [] /\ length (lakThrown t) = 1 /\
   xcodeVersion = Undefined) \/
  (lak_pending st = false /\ lak_child st = true /\ lak_timer st = true /\
   lakKills t = [] /\ lakThrown t = [] /\
   ((returned st = false /\ lakCbs t = []) \/
    (returned st = true /\ length (lakCbs t) = 1))) \/
  (lak_pending st = false /\ lak_child st = true /\ lak_timer st = false /\
   lakKills t = [SIGKILL] /\ lakThrown t = [] /\
   returned st = true /\ length (lakCbs t) = 1).

(** *** Exchanges on the channel *)

(** A handler with nothing in flight and nothing queued, waiting on
    connection [c] for the next command. *)
Definition parked (c : conn) : CommandHandler :=
  {| curCommand := None; commandQueue := []; onReceiveCommand := Some c |}.

(** What the callback of the command in flight receives for a message:
    its result, or [false] when it has none. *)
Definition answer (data : json) : json :=
  match prop data "result" with
  | Some r => r
  | None => JBool false
  end.

(** A command, its callback, and the message that answers it, arriving
    on a connection. *)
Definition exchange : Type := (string * cbid * json * conn)%type.

Definition exchange_events (l : list exchange) : list chEvent :=
  flat_map (fun x : exchange =>
              let '(cmd0, cb0, data, c) := x in
              [Enqueue cmd0 cb0; Inbound data c]) l.

(** Each command is written on the connection of the previous message. *)
Fixpoint exchange_trace (c : conn) (l : list exchange) : list action :=
  match l with
  | [] => []
  | (cmd0, cb0, data, c') :: l' =>
      SockWrite c (nextCommand cmd0) :: SockEnd c ::
      CmdCallback cb0 (answer data) :: exchange_trace c' l'
  end.

Fixpoint last_conn (c : conn) (l : list exchange) : conn :=
  match l with
  | [] => c
  | (_, _, _, c') :: l' => last_conn c' l'
  end.

(** The handler object after [clean()]. *)
Definition cleaned (h : CommandHandler) : CommandHandler :=
  snd (fst (clean h)).

(** *** Answers to the commands in flight and queued *)

(** A handler with [e] in flight and [q] queued behind it. *)
Definition busy (e : Command) (q : list Command) : CommandHandler :=
  {| curCommand := Some e; commandQueue := q; onReceiveCommand := None |}.

Definition inbound_events (msgs : list (json * conn)) : list chEvent :=
  map (fun m : json * conn => Inbound (fst m) (snd m)) msgs.

(** What the messages bring about, with [e] in flight and [q] queued:
    each message answers the command in flight and has the next command
    written on its own connection; the messages left when no command is
    left bring about nothing. *)
Fixpoint served (e : Command) (q : list Command) (msgs : list (json * conn))
  {struct msgs} : list action :=
  match msgs with
  | [] => []
  | (data, c) :: msgs' =>
      CmdCallback (cb e) (answer data) ::
      match q with
      | e' :: q' =>
          SockWrite c (nextCommand (cmd e')) :: SockEnd c :: served e' q' msgs'
      | [] => []
      end
  end.

(** *** Reading a trace: the exit handler *)

Fixpoint exitCbs (t : list action) : list (cbid * option Z * option string) :=
  match t with
  | [] => []
  | ExitCb f code d :: t' => (f, code, d) :: exitCbs t'
  | _ :: t' => exitCbs t'
  end.

(** The exceptions that left a handler. *)
Fixpoint thrown (t : list action) : list string :=
  match t with
  | [] => []
  | Threw msg :: t' => msg :: thrown t'
  | _ :: t' => thrown t'
  end.

(** A handler of a session that ignores the startup exit: the setting
    stays, and under it neither the shutdown callback nor the exit handler
    is called. *)
Definition ignoring (w w' : World) (t : list action) : Prop :=
  ignoreStartupExit (self w') = ignoreStartupExit (self w) /\
  (ignoreStartupExit (self w) = true -> shutdownCbs t = [] /\ exitCbs t = []).

(** The traces of the handler object's methods: callbacks of commands and
    writes to the peer. *)
Definition channel_only (t : list action) : Prop :=
  launchCbs t = [] /\ shutdownCbs t = [] /\ exitCbs t = [] /\ thrown t = [].

(** *** Chunks of socket data *)



(** *** Reading a trace: what is closed *)

(** The actions that close a connection or the server. *)
Fixpoint closings (t : list action) : list action :=
  match t with
  | [] => []
  | SockEnd c :: t' => SockEnd c :: closings t'
  | SockDestroy c :: t' => SockDestroy c :: closings t'
  | ServerClose :: t' => ServerClose :: closings t'
  | _ :: t' => closings t'
  end.

(* ===================================================================== *)
(** * Part II: properties *)
(* ===================================================================== *)

(** ** Traces *)

Lemma dispatched_app (t1 t2 : list action) :
  dispatched (t1 ++ t2) = dispatched t1 ++ dispatched t2.
Proof.
  induction t1 as [|a t1 IH]; [reflexivity|].
  destruct a; simpl; try exact IH.
  destruct payload as [| | | | |[|[k [| | |s| |]] [|]]]; simpl;
    first [exact IH | now rewrite IH].
Qed.

Lemma fired_app (t1 t2 : list action) :
  fired (t1 ++ t2) = fired t1 ++ fired t2.
Proof.
  induction t1 as [|a t1 IH]; [reflexivity|].
  destruct a; simpl; first [exact IH | now rewrite IH].
Qed.

Lemma launchCbs_app (t1 t2 : list action) :
  launchCbs (t1 ++ t2) = launchCbs t1 ++ launchCbs t2.
Proof.
  induction t1 as [|a t1 IH]; [reflexivity|].
  destruct a; simpl; first [exact IH | now rewrite IH].
Qed.

Lemma shutdownCbs_app (t1 t2 : list action) :
  shutdownCbs (t1 ++ t2) = shutdownCbs t1 ++ shutdownCbs t2.
Proof.
  induction t1 as [|a t1 IH]; [reflexivity|].
  destruct a; simpl; first [exact IH | now rewrite IH].
Qed.


Lemma in_flight_app (t1 t2 : list action) (n : nat) :
  in_flight n (t1 ++ t2) =
  match in_flight n t1 with
  | Some m => in_flight m t2
  | None => None
  end.
Proof.
  revert n; induction t1 as [|a t1 IH]; intros n; [reflexivity|].
  destruct a; simpl; try apply IH.
  - destruct n as [|[|n]]; try reflexivity; apply IH.
  - destruct n; [apply IH | reflexivity].
Qed.


(** ** The command queue *)

(** What one entry point does to the accounting of commands: it never
    throws, writes commands in queue order, fires callbacks in the order of
    acceptance, and keeps at most one command in flight. *)
Lemma chStep_accounts (ev : chEvent) (h : CommandHandler) :
  parked_idle h ->
  exists h' t,
    chStep ev h = (Ret tt, h', t) /\
    parked_idle h' /\
    dispatched t ++ map cmd (commandQueue h')
      = map cmd (commandQueue h) ++ map cmd (enqueued [ev]) /\
    fired t ++ map cb (pending h')
      = map cb (pending h) ++ map cb (enqueued [ev]) /\
    in_flight (length (slot h)) t = Some (length (slot h')).
Proof.
  intros Hidle.
  destruct h as [cur q orc]; unfold parked_idle, pending, slot in *; simpl in *.
  destruct ev as [c0 f0 | data c].
  - (* sendCommand *)
    destruct orc as [c|].
    + destruct Hidle as [-> ->]; [discriminate|].
      eexists _, _; split; [reflexivity|]; simpl.
      repeat split; intros; auto; congruence.
    + eexists _, _; split; [reflexivity|]; simpl.
      repeat split; try discriminate; try congruence.
      * now rewrite map_app.
      * now rewrite !map_app, app_assoc.
  - (* handleCommand *)
    unfold chStep, handleCommand, bind, get; simpl.
    destruct (prop data "result") as [r|], cur as [e|], q as [|e' q];
      simpl; eexists _, _; (split; [reflexivity|]); simpl;
      repeat split; intros; try discriminate; try congruence;
      try (now rewrite ?app_nil_r).
Qed.

Lemma chRun_accounts (evs : list chEvent) : forall h : CommandHandler,
  parked_idle h ->
  exists h' t,
    chRun evs h = Some (h', t) /\
    dispatched t ++ map cmd (commandQueue h')
      = map cmd (commandQueue h) ++ map cmd (enqueued evs) /\
    fired t ++ map cb (pending h')
      = map cb (pending h) ++ map cb (enqueued evs) /\
    in_flight (length (slot h)) t = Some (length (slot h')).
Proof.
  induction evs as [|ev evs IH]; intros h Hidle.
  - exists h, []; simpl; rewrite !app_nil_r; auto.
  - destruct (chStep_accounts ev Hidle) as (h1 & t1 & E1 & Hidle1 & D1 & F1 & N1).
    destruct (IH h1 Hidle1) as (h2 & t2 & E2 & D2 & F2 & N2).
    exists h2, (t1 ++ t2); simpl chRun; rewrite E1, E2.
    split; [reflexivity|].
    assert (Hen : enqueued (ev :: evs) = enqueued [ev] ++ enqueued evs)
      by (destruct ev; reflexivity).
    rewrite Hen, !map_app, dispatched_app, fired_app, in_flight_app, N1.
    repeat split.
    + rewrite <- app_assoc, D2, !app_assoc. now rewrite D1.
    + rewrite <- app_assoc, F2, !app_assoc. now rewrite F1.
    + exact N2.
Qed.

Lemma NoDup_app_l {A : Type} (l1 l2 : list A) : NoDup (l1 ++ l2) -> NoDup l1.
Proof.
  induction l1 as [|x l1 IH]; simpl; intros H; [constructor|].
  inversion H as [|? ? Hx Hl]; subst. constructor.
  - intros Hin. apply Hx. apply in_or_app. now left.
  - now apply IH.
Qed.

(** C1.  Whatever the interleaving of [sendCommand] calls and inbound
    messages on a new handler (so in particular when all the calls come
    before any result), no entry point throws; the commands written to the
    peer are, in this order, a prefix of the commands enqueued; the
    callbacks fired are, in this order, those of a prefix of the commands
    enqueued, so each fires at most once; and along the whole trace a
    command is written only while none is in flight. *)
Theorem fifo_single_flight (evs : list chEvent) :
  exists h t,
    chRun evs newCommandHandler = Some (h, t) /\
    map cmd (enqueued evs) = dispatched t ++ map cmd (commandQueue h) /\
    map cb (enqueued evs) = fired t ++ map cb (pending h) /\
    in_flight 0 t = Some (length (slot h)) /\
    length (slot h) <= 1 /\
    (NoDup (map cb (enqueued evs)) -> NoDup (fired t)).
Proof.
  destruct (@chRun_accounts evs newCommandHandler) as (h & t & E & D & F & N).
  { intros H; now elim H. }
  exists h, t. simpl in D, F, N.
  repeat split; auto.
  - unfold slot; destruct (curCommand h); simpl; lia.
  - rewrite <- F. apply NoDup_app_l.
Qed.

(** A callback per command, three commands sent before any result: the
    theorem's last hypothesis holds and its conclusions are those of the
    run. *)
Lemma fifo_single_flight_witness :
  NoDup (map cb (enqueued [Inbound (JObj [("event", JStr "cmd")]) 0;
                           Enqueue "a" 1; Enqueue "b" 2; Enqueue "c" 3])) /\
  exists h t,
    chRun [Inbound (JObj [("event", JStr "cmd")]) 0;
           Enqueue "a" 1; Enqueue "b" 2; Enqueue "c" 3] newCommandHandler
      = Some (h, t) /\
    NoDup (fired t).
Proof.
  split.
  - simpl. repeat constructor; simpl; intuition discriminate.
  - destruct (fifo_single_flight
                [Inbound (JObj [("event", JStr "cmd")]) 0;
                 Enqueue "a" 1; Enqueue "b" 2; Enqueue "c" 3])
      as (h & t & E & _ & _ & _ & _ & Hnd).
    exists h, t. split; [exact E|]. apply Hnd.
    simpl. repeat constructor; simpl; intuition discriminate.
Defined.

(** C6.  A message without a [result] field that arrives while a command
    is in flight fires that command's callback with [false], and the queue
    moves on: the next pending command is written on the same connection,
    or, when none is pending, the connection is kept and the next
    [sendCommand] is written on it at once. *)
Theorem missing_result_fires_false
  (h : CommandHandler) (data : json) (c : conn) (e : Command) :
  curCommand h = Some e ->
  prop data "result" = None ->
  exists h' t,
    handleCommand data c h = (Ret tt, h', CmdCallback (cb e) (JBool false) :: t) /\
    fired t = [] /\
    match commandQueue h with
    | e' :: q =>
        h' = {| curCommand := Some e'; commandQueue := q;
                onReceiveCommand := None |} /\
        t = [SockWrite c (nextCommand (cmd e')); SockEnd c]
    | [] =>
        h' = {| curCommand := None; commandQueue := [];
                onReceiveCommand := Some c |} /\
        t = [] /\
        forall cmd0 cb0,
          sendCommand cmd0 cb0 h' =
          (Ret tt,
           {| curCommand := Some {| cmd := cmd0; cb := cb0 |};
              commandQueue := []; onReceiveCommand := None |},
           [SockWrite c (nextCommand cmd0); SockEnd c])
    end.
Proof.
  intros Hcur Hres. destruct h as [cur q orc]; simpl in *; subst cur.
  unfold handleCommand, bind, get; simpl. rewrite Hres; simpl.
  destruct q as [|e' q]; simpl; eexists _, _; split; try reflexivity;
    split; try reflexivity; repeat split.
Qed.

Lemma missing_result_fires_false_witness :
  exists h' t,
    handleCommand (JObj [("event", JStr "cmd")]) 4
      {| curCommand := Some {| cmd := "a"; cb := 1 |};
         commandQueue := [{| cmd := "b"; cb := 2 |}];
         onReceiveCommand := None |}
    = (Ret tt, h', CmdCallback 1 (JBool false) :: t) /\
    t = [SockWrite 4 (nextCommand "b"); SockEnd 4].
Proof.
  destruct (@missing_result_fires_false
              {| curCommand := Some {| cmd := "a"; cb := 1 |};
                 commandQueue := [{| cmd := "b"; cb := 2 |}];
                 onReceiveCommand := None |}
              (JObj [("event", JStr "cmd")]) 4 {| cmd := "a"; cb := 1 |}
              eq_refl eq_refl) as (h' & t & E & _ & _ & Ht).
  exists h', t. split; [exact E | exact Ht].
Defined.

(** C8, as stated, fails: with a command pending and none in flight, a
    delivered result makes the handler dispatch the pending command, so the
    queue and the in-flight slot both change. *)
Lemma unexpected_result_dispatches_pending :
  ~ (forall (h h' : CommandHandler) (data : json) (c : conn) (r : json)
            (t : list action),
        curCommand h = None ->
        prop data "result" = Some r ->
        handleCommand data c h = (Ret tt, h', t) ->
        fired t = [] /\
        commandQueue h' = commandQueue h /\ curCommand h' = curCommand h).
Proof.
  intros H.
  specialize (H {| curCommand := None;
                   commandQueue := [{| cmd := "a"; cb := 1 |}];
                   onReceiveCommand := None |}
                {| curCommand := Some {| cmd := "a"; cb := 1 |};
                   commandQueue := []; onReceiveCommand := None |}
                (JObj [("event", JStr "cmd"); ("result", JNum 0)]) 5 (JNum 0)
                [SockWrite 5 (nextCommand "a"); SockEnd 5]
                eq_refl eq_refl eq_refl).
  destruct H as (_ & Hq & _). discriminate Hq.
Qed.

(** C8, amended.  A result delivered while no command is in flight fires
    no callback and is dropped.  With no command pending, the queue and the
    in-flight slot stay as they are and the connection is kept for the next
    command; with commands pending, the first of them is written on that
    connection and becomes the command in flight. *)
Theorem unexpected_result_dropped
  (h : CommandHandler) (data : json) (c : conn) (r : json) :
  curCommand h = None ->
  prop data "result" = Some r ->
  exists h' t,
    handleCommand data c h = (Ret tt, h', t) /\
    fired t = [] /\
    match commandQueue h with
    | [] =>
        curCommand h' = None /\ commandQueue h' = [] /\
        onReceiveCommand h' = Some c /\ t = []
    | e :: q =>
        curCommand h' = Some e /\ commandQueue h' = q /\
        onReceiveCommand h' = None /\
        t = [SockWrite c (nextCommand (cmd e)); SockEnd c]
    end.
Proof.
  intros Hcur Hres. destruct h as [cur q orc]; simpl in *; subst cur.
  unfold handleCommand, bind, get; simpl. rewrite Hres; simpl.
  destruct q as [|e q]; simpl; eexists _, _; split; try reflexivity;
    repeat split.
Qed.

Lemma unexpected_result_dropped_witness :
  exists h' t,
    handleCommand (JObj [("event", JStr "cmd"); ("result", JNum 0)]) 5
      newCommandHandler = (Ret tt, h', t) /\
    fired t = [] /\ curCommand h' = None /\ commandQueue h' = [].
Proof.
  destruct (@unexpected_result_dropped newCommandHandler
              (JObj [("event", JStr "cmd"); ("result", JNum 0)]) 5 (JNum 0)
              eq_refl eq_refl) as (h' & t & E & F & Hc & Hq & _).
  exists h', t. repeat split; assumption.
Defined.


(** ** Reasoning about handlers *)

Lemma post_bind {St A B : Type} (m : M St A) (f : A -> M St B) (s : St)
  (Q : res B -> St -> list action -> Prop) :
  post m s (fun r s1 t1 =>
              match r with
              | Ret a => post (f a) s1 (fun r' s2 t2 => Q r' s2 (t1 ++ t2))
              | Exn e => Q (Exn e) s1 t1
              end) ->
  post (bind m f) s Q.
Proof.
  unfold post, bind. destruct (m s) as [[[a|e] s1] t1]; [|auto].
  destruct (f a s1) as [[r s2] t2]; auto.
Qed.

Lemma post_mono {St A : Type} (m : M St A) (s : St)
  (Q Q' : res A -> St -> list action -> Prop) :
  post m s Q -> (forall r s' t, Q r s' t -> Q' r s' t) -> post m s Q'.
Proof. unfold post. destruct (m s) as [[r s'] t]; auto. Qed.

Lemma post_ret {St A : Type} (a : A) (s : St) Q :
  Q (Ret a) s [] -> post (ret a) s Q.
Proof. exact (fun H => H). Qed.

Lemma post_get {St : Type} (s : St) Q : Q (Ret s) s [] -> post get s Q.
Proof. exact (fun H => H). Qed.

Lemma post_modify {St : Type} (f : St -> St) (s : St) Q :
  Q (Ret tt) (f s) [] -> post (modify f) s Q.
Proof. exact (fun H => H). Qed.

Lemma post_emit {St : Type} (a : action) (s : St) Q :
  Q (Ret tt) s [a] -> post (emit a) s Q.
Proof. exact (fun H => H). Qed.

Lemma post_throw {St A : Type} (msg : string) (s : St)
  (Q : res A -> St -> list action -> Prop) :
  Q (Exn msg) s [] -> post (throw msg) s Q.
Proof. exact (fun H => H). Qed.

Lemma handleCommand_channel (data : json) (c : conn) :
  channel_method (handleCommand data c).
Proof.
  intros [cur q orc]. unfold handleCommand, bind, get; simpl.
  destruct (prop data "result"), cur, q; simpl; repeat split.
Qed.

Lemma sendCommand_channel (cmd0 : string) (cb0 : cbid) :
  channel_method (sendCommand cmd0 cb0).
Proof.
  intros [cur q orc]. unfold sendCommand, bind, get, modify; simpl.
  destruct orc; simpl; [|repeat split].
  unfold sendNext, bind, get; simpl.
  destruct (q ++ _); simpl; repeat split.
Qed.

Lemma post_onHandler_clean (w : World)
  (Q : res unit -> World -> list action -> Prop) :
  Q (Ret tt)
    (set_handlerObj
       {| curCommand := None;
          commandQueue := commandQueue (handlerObj w);
          onReceiveCommand := None |} w) [] ->
  post (onHandler clean) w Q.
Proof. exact (fun H => H). Qed.

Lemma post_onHandler {A : Type} (m : M CommandHandler A) (w : World)
  (Q : res A -> World -> list action -> Prop) :
  channel_method m ->
  (forall r h' t, channel_trace t -> Q r (set_handlerObj h' w) t) ->
  post (onHandler m) w Q.
Proof.
  intros Hm HQ. unfold post, onHandler. specialize (Hm (handlerObj w)).
  destruct (m (handlerObj w)) as [[r h'] t]. now apply HQ.
Qed.

(** Simplification of field reads over field writes. *)
Ltac norm :=
  cbn [
    is_some negb andb orb app fst snd launchTimeout termTimeout
    killTimeout termTimer killTimer flakeyRetries launchTries
    neverConnected ignoreStartupExit xcodeVersion launchHandlerCalledBack
    launchHandlerCb exitHandler socketConnectTimeout hasConnected
    traceDir proc shutdownCb didLaunch bufferedData instrumentsPath
    commandHandler currentSocket instrumentsExited set_termTimer
    set_launchTries set_neverConnected set_launchHandlerCalledBack
    set_launchHandlerCb set_exitHandler set_socketConnectTimeout
    set_hasConnected set_traceDir set_proc set_shutdownCb set_didLaunch
    set_bufferedData set_instrumentsPath set_commandHandler
    set_currentSocket set_instrumentsExited self handlerObj timers
    nextTimer procs nextPid server conns pendingPath pendingListen
    set_self set_handlerObj set_timers set_nextTimer set_procs
    set_nextPid set_server set_conns set_pendingPath set_pendingListen
    curCommand commandQueue onReceiveCommand
  ].

Ltac norm_in H :=
  cbn [
    is_some negb andb orb app fst snd launchTimeout termTimeout
    killTimeout termTimer killTimer flakeyRetries launchTries
    neverConnected ignoreStartupExit xcodeVersion launchHandlerCalledBack
    launchHandlerCb exitHandler socketConnectTimeout hasConnected
    traceDir proc shutdownCb didLaunch bufferedData instrumentsPath
    commandHandler currentSocket instrumentsExited set_termTimer
    set_launchTries set_neverConnected set_launchHandlerCalledBack
    set_launchHandlerCb set_exitHandler set_socketConnectTimeout
    set_hasConnected set_traceDir set_proc set_shutdownCb set_didLaunch
    set_bufferedData set_instrumentsPath set_commandHandler
    set_currentSocket set_instrumentsExited self handlerObj timers
    nextTimer procs nextPid server conns pendingPath pendingListen
    set_self set_handlerObj set_timers set_nextTimer set_procs
    set_nextPid set_server set_conns set_pendingPath set_pendingListen
    curCommand commandQueue onReceiveCommand
  ] in H.

(** One step of the symbolic execution of a handler. *)
Ltac wp_step :=
  lazymatch goal with
  | |- post (bind _ _) _ _ => apply post_bind
  | |- post (ret _) _ _ => apply post_ret; cbv beta iota; norm
  | |- post get _ _ => apply post_get; cbv beta iota; norm
  | |- post (modify _) _ _ => apply post_modify; cbv beta iota; norm
  | |- post (emit _) _ _ => apply post_emit; cbv beta iota; norm
  | |- post (throw _) _ _ => apply post_throw; cbv beta iota; norm
  | |- post this _ _ => unfold this
  | |- post (withSelf _) _ _ => unfold withSelf
  | |- post (when _ _) _ _ => unfold when
  | |- post (clearTimeout _) _ _ => unfold clearTimeout
  | |- post (setTimeout _) _ _ => unfold setTimeout
  | |- post spawnInstruments _ _ => unfold spawnInstruments
  | |- post killProc _ _ => unfold killProc
  | |- post helpers_killProc _ _ => unfold helpers_killProc
  | |- post (callLaunchHandlerCb _) _ _ => unfold callLaunchHandlerCb
  | |- post (launchCallBack _) _ _ => unfold launchCallBack
  | |- post (launch _ _) _ _ => unfold launch
  | |- post (launchHandler [] _) _ _ => cbn [launchHandler]
  | |- post (launchWithHandler _) _ _ => unfold launchWithHandler
  | |- post (initSocketServer _ _) _ _ => unfold initSocketServer
  | |- post (onInstrumentsPath _ _ _) _ _ => unfold onInstrumentsPath
  | |- post termProc _ _ => unfold termProc
  | |- post onSocketNeverConnect _ _ => unfold onSocketNeverConnect
  | |- post cleanupInstruments _ _ => unfold cleanupInstruments
  | |- post (callExitHandler _) _ _ => unfold callExitHandler
  | |- post (onInstrumentsExit _ _) _ _ => unfold onInstrumentsExit
  | |- post (onProcError _ _) _ _ => unfold onProcError
  | |- post (onProcExit _ _) _ _ => unfold onProcExit
  | |- post (outputStreamHandler _) _ _ => unfold outputStreamHandler
  | |- post (onSocketConnect _) _ _ => unfold onSocketConnect
  | |- post (onSocketData _) _ _ => unfold onSocketData
  | |- post onSocketClose _ _ => unfold onSocketClose
  | |- post (onSocketEnd _ _) _ _ => unfold onSocketEnd
  | |- post (Instruments_sendCommand _ _) _ _ => unfold Instruments_sendCommand
  | |- post (shutdown _) _ _ => unfold shutdown
  | |- post (onHandler (handleCommand _ _)) _ _ =>
      apply post_onHandler;
      [apply handleCommand_channel | intros ? ? ? ?; cbv beta iota; norm]
  | |- post (onHandler (sendCommand _ _)) _ _ =>
      apply post_onHandler;
      [apply sendCommand_channel | intros ? ? ? ?; cbv beta iota; norm]
  | |- post (onHandler clean) _ _ =>
      apply post_onHandler_clean; cbv beta iota; norm
  | |- post (if ?b then _ else _) _ _ =>
      first [ is_var b; destruct b | destruct b eqn:? ]
  | |- post (match ?x with _ => _ end) _ _ =>
      first [ is_var x; destruct x | destruct x eqn:? ]
  | |- post (let _ := _ in _) _ _ => cbv zeta
  | |- match ?r with Ret _ => _ | Exn _ => _ end => destruct r
  end.

Ltac bools :=
  repeat match goal with
    | H : _ && _ = true |- _ => apply andb_prop in H; destruct H
    | H : (_ <? _) = true |- _ => apply Nat.ltb_lt in H
    | H : negb _ = true |- _ => apply negb_true_iff in H
    | H : negb _ = false |- _ => apply negb_false_iff in H
    end.

(** ** The launch: one callback, retries within the budget *)

Section Launch.

(** The caller's launch callback. *)
Variable lcb : cbid.

Lemma launch_rel_refl (w : World) : launch_rel lcb w w [].
Proof. constructor; auto. Qed.

Lemma launch_rel_trans (w w1 w2 : World) (t1 t2 : list action) :
  launch_rel lcb w w1 t1 -> launch_rel lcb w1 w2 t2 -> launch_rel lcb w w2 (t1 ++ t2).
Proof.
  intros [A1 A2 A3 A4 A5 A6 A7 A8] [B1 B2 B3 B4 B5 B6 B7 B8].
  constructor; rewrite ?launchCbs_app.
  - congruence.
  - congruence.
  - lia.
  - intros H. rewrite A2 in B4. apply B4. auto.
  - intros H. destruct (A5 H) as [H1 ->]. destruct (B5 H1) as [H2 ->]. auto.
  - intros H Hc. destruct (A6 H Hc) as [[H1 ->]|[H1 [e ->]]].
    + rewrite A1 in B6. simpl.
      destruct (B6 H1 Hc) as [[H2 ->]|[H2 [e' ->]]]; eauto.
    + destruct (B5 H1) as [H2 ->]. right; split; [exact H2 | exists e; reflexivity].
  - auto.
  - auto.
Qed.

Lemma post_call {A : Type} (m : M World A) (w : World)
  (Q : res A -> World -> list action -> Prop) :
  keeps lcb m -> (forall r w' t, launch_rel lcb w w' t -> Q r w' t) -> post m w Q.
Proof. intros H HQ. eapply post_mono; [apply H | exact HQ]. Qed.

Ltac wp_call lem :=
  eapply post_call; [apply lem | intros ? ? ? ?; cbv beta iota].

(** The relation reads a trace through [launchCbs] only. *)
Lemma launch_rel_after (w w1 w2 : World) (t2 T : list action) :
  launch_rel lcb w w1 [] -> launch_rel lcb w1 w2 t2 -> launchCbs T = launchCbs t2 ->
  launch_rel lcb w w2 T.
Proof.
  intros H1 H2 E.
  destruct (launch_rel_trans H1 H2) as [C1 C2 C3 C4 C5 C6 C7 C8].
  simpl in C5, C6. constructor; rewrite ?E; auto.
Qed.

Ltac traces :=
  repeat match goal with
    | H : channel_trace _ |- _ => destruct H as (? & ? & ?)
    end;
  rewrite ?launchCbs_app; cbn [launchCbs app];
  repeat match goal with H : launchCbs _ = _ |- _ => rewrite H end;
  cbn [launchCbs app].

Ltac leaf0 :=
  bools;
  repeat match goal with H : _ |- _ => progress norm_in H end;
  constructor; norm; traces; intros;
  try congruence; try lia;
  try (split; [congruence | reflexivity]);
  try (left; split; [congruence | reflexivity]);
  try (right; split; [reflexivity | eexists; repeat f_equal; congruence]);
  try solve [intuition (congruence || lia || eauto)].

Ltac leaf :=
  lazymatch goal with
  | H : launch_rel _ _ ?w' _ |- launch_rel _ _ ?w' _ =>
      eapply launch_rel_after; [ | exact H | traces; reflexivity]; leaf0
  | |- _ => leaf0
  end.

Ltac wp lem := repeat (cbv beta; first [wp_call lem | wp_step]); leaf.

Ltac wp0 := repeat (cbv beta; wp_step); leaf.

Lemma launchHandler_keeps (tmp : list (option string)) :
  forall err, keeps lcb (launchHandler tmp err).
Proof.
  induction tmp as [|o tmp IH]; intros err w; cbn [launchHandler]; wp IH.
Qed.


(** A failed launch is retried exactly when its error is one of the two
    startup errors and the retry count is below the budget. *)
Lemma launchHandler_retries (tmp : list (option string)) (e : string) (w : World) :
  launchHandlerCalledBack (self w) = false ->
  post (launchHandler tmp (Some e)) w
    (fun _ w' _ =>
       launchTries (self w) < launchTries (self w') <->
       (launchTries (self w) < flakeyRetries (self w) /\ retryable e = true)).
Proof.
  intros Hcb.
  destruct tmp as [|o tmp]; cbn [launchHandler];
    repeat (cbv beta; first [wp_call launchHandler_keeps | wp_step]);
    repeat match goal with
      | H : launch_rel _ _ _ _ |- _ => destruct H as [_ _ H _ _ _ _ _]
      | H : _ |- _ => progress norm_in H
      end;
    norm; try congruence;
    try (rewrite Hcb in *; discriminate);
    try match goal with
      | H : _ && _ = true |- _ =>
          apply andb_prop in H; destruct H as [H1 ?]; apply Nat.ltb_lt in H1;
          split; [intros _; split; assumption | intros _; lia]
      | H : _ && _ = false |- _ =>
          apply andb_false_iff in H; rewrite Nat.ltb_ge in H;
          split; [lia | intros [? ?]; destruct H; [lia | congruence]]
      end.
Qed.

Lemma retryable_spawn_error (msg : string) :
  retryable ("Unable to spawn instruments: " ++ msg)%string = false.
Proof. reflexivity. Qed.

Section Events.

Variable JSON_parse : string -> option json.

Lemma handle_keeps (ev : event) : keeps lcb (handle JSON_parse ev).
Proof.
  destruct ev; intros w; unfold handle;
    try (repeat (cbv beta; wp_step); leaf; fail);
    repeat (cbv beta; first [wp_call launchHandler_keeps | wp_step]); leaf.
Qed.

Lemma step_keeps (ev : event) (w : World) :
  launch_rel lcb w (fst (step JSON_parse ev w)) (snd (step JSON_parse ev w)).
Proof.
  pose proof (handle_keeps ev w) as H. unfold post in H.
  unfold step, complete. destruct (handle JSON_parse ev w) as [[[u|msg] w'] t];
    simpl; [exact H|].
  eapply launch_rel_after; [apply launch_rel_refl | exact H |].
  rewrite launchCbs_app. simpl. apply app_nil_r.
Qed.

Lemma run_keeps (evs : list event) : forall w : World,
  launch_rel lcb w (fst (run JSON_parse evs w)) (snd (run JSON_parse evs w)).
Proof.
  induction evs as [|ev evs IH]; intros w; simpl.
  - apply launch_rel_refl.
  - pose proof (step_keeps ev w) as H1.
    destruct (step JSON_parse ev w) as [w1 t1]; simpl in H1.
    pose proof (IH w1) as H2.
    destruct (run JSON_parse evs w1) as [w2 t2]; simpl in *.
    eapply launch_rel_trans; eassumption.
Qed.

End Events.

End Launch.


(** The world right after [new Instruments(opts)] and [start]. *)
Lemma started_world (opts : Opts) (lcb : cbid) (ecb : option cbid) :
  started opts lcb ecb =
  (set_pendingPath 1
     (set_self (set_exitHandler (UserExit ecb)
                  (set_launchHandlerCb (Some lcb) (newInstruments opts)))
        (newWorld opts)),
   [FindInstruments]).
Proof. reflexivity. Qed.

(** What holds of a session whatever events follow [start]. *)
Lemma session_keeps (JSON_parse : string -> option json) (opts : Opts)
  (lcb : cbid) (ecb : option cbid) (evs : list event) :
  forall w t, session JSON_parse opts lcb ecb evs = (w, t) ->
    launchHandlerCb (self w) = Some lcb /\
    flakeyRetries (self w) = o_flakeyRetries opts /\
    launchTries (self w) <= flakeyRetries (self w) /\
    ((launchHandlerCalledBack (self w) = false /\ launchCbs t = []) \/
     (launchHandlerCalledBack (self w) = true /\
      exists e, launchCbs t = [(lcb, e)])) /\
    (hasConnected (self w) = true -> launchHandlerCalledBack (self w) = true) /\
    (didLaunch (self w) = true -> launchHandlerCalledBack (self w) = true).
Proof.
  intros w t. unfold session. rewrite started_world.
  pose proof (run_keeps lcb JSON_parse evs
                (set_pendingPath 1
                   (set_self (set_exitHandler (UserExit ecb)
                                (set_launchHandlerCb (Some lcb) (newInstruments opts)))
                      (newWorld opts)))) as H.
  destruct (run JSON_parse evs _) as [w' t']. intros E; inversion E; subst; clear E.
  destruct H as [H1 H2 H3 H4 H5 H6 H7 H8]. simpl in *.
  split; [exact H1|]. split; [exact H2|].
  split; [rewrite H2; apply H4; lia|].
  split; [apply H6; reflexivity|].
  split; [apply H7; discriminate | apply H8; discriminate].
Qed.

(** ** Startup failures: retried or reported *)

(** The symbolic execution of a handler, to its leaves. *)
Ltac exec_handler :=
  repeat (cbv beta;
          first [ lazymatch goal with
                  | |- post (launchHandler (_ :: _) _) _ _ => cbn [launchHandler]
                  end
                | wp_step ]).

Ltac known :=
  repeat match goal with H : _ |- _ => progress norm_in H end;
  bools; norm.

Ltac shut_traces :=
  repeat match goal with
    | H : channel_trace _ |- _ => destruct H as (? & ? & ?)
    | H : quiet _ _ _ |- _ => destruct H as (? & ?)
    end;
  repeat match goal with H : _ |- _ => progress norm_in H end;
  norm; rewrite ?shutdownCbs_app; cbn [shutdownCbs app];
  repeat match goal with H : shutdownCbs _ = _ |- _ => rewrite H end;
  cbn [shutdownCbs app].

(** [launchHandler] calls no shutdown callback and leaves the stored one. *)
Lemma launchHandler_quiet (tmp : list (option string)) :
  forall err w, post (launchHandler tmp err) w (fun _ w' t => quiet w w' t).
Proof.
  induction tmp as [|o tmp IH]; intros err w; cbn [launchHandler];
    repeat (cbv beta;
            first [ eapply post_mono;
                    [apply IH | intros ? ? ? Hq; cbv beta in Hq; cbv beta iota]
                  | wp_step ]);
    unfold quiet; shut_traces; split; congruence.
Qed.











(** ** The launch callback, call by call *)




(** Without the [xcodeVersion] option the first launch throws out of the
    callback of [listen], before a child is spawned or the launch timer is
    armed; nobody is called back. *)
Example launch_throws_without_xcodeVersion :
  let opts := {| o_launchTimeout := None; o_flakeyRetries := 0;
                 o_ignoreStartupExit := false; o_isSafariLauncherApp := false;
                 o_xcodeVersion := Undefined |} in
  let r := session (fun _ => None) opts 1 None
             [XcrunDone (Some "/usr/bin/instruments") None []; Listening []] in
  snd r = [FindInstruments; ServerListen;
           Threw "TypeError: Cannot read property '0' of undefined"] /\
  procs (fst r) = [] /\ timers (fst r) = [] /\
  launchHandlerCalledBack (self (fst r)) = false.
Proof. vm_compute. repeat split. Qed.

(** A peer that crashes on its first two launches and checks in on the
    third, with a budget of two retries: three spawns, one callback. *)
Example two_crashes_then_ready :
  let opts := {| o_launchTimeout := None; o_flakeyRetries := 2;
                 o_ignoreStartupExit := false; o_isSafariLauncherApp := false;
                 o_xcodeVersion := Str "5.1" |} in
  snd (session (fun _ => None) opts 1 None
         [XcrunDone (Some "/usr/bin/instruments") None []; Listening [];
          ProcExit 0 (Some 1%Z) []; ProcExit 1 (Some 1%Z) []; SocketConnect 0])
  = [FindInstruments; ServerListen; Spawn 0; KillAll; Spawn 1; KillAll; Spawn 2;
     LaunchCb 1 None].
Proof. reflexivity. Qed.

(** A spawn failure reaches the caller at once. *)
Lemma onProcError_surfaces (lcb : cbid) (msg : string)
  (tmp : list (option string)) (w : World) :
  index 0 "ENOENT" msg <> None ->
  launchHandlerCalledBack (self w) = false ->
  instrumentsExited (self w) = false ->
  launchHandlerCb (self w) = Some lcb ->
  post (onProcError msg tmp) w
    (fun r w' t =>
       r = Ret tt /\
       launchCbs t = [(lcb, Some ("Unable to spawn instruments: " ++ msg)%string)] /\
       spawns t = [] /\
       launchTries (self w') = launchTries (self w) /\
       launchHandlerCalledBack (self w') = true /\
       proc (self w') = None).
Proof.
  intros Hidx Hcb Hex Hlcb. unfold onProcError.
  destruct (index 0 "ENOENT" msg) as [n|]; [clear Hidx | now elim Hidx].
  destruct tmp as [|o tmp]; cbn [launchHandler];
    repeat (cbv beta; wp_step);
    repeat match goal with H : _ |- _ => progress norm_in H end;
    try congruence;
    try (rewrite retryable_spawn_error, andb_false_r in *; discriminate);
    try (rewrite ?Hex, ?Hcb in *; simpl in *; discriminate);
    norm; cbn [launchCbs spawns];
    repeat split; congruence.
Qed.

(** C5.  In a session, whatever the events, the retry count stays within
    the configured budget.  A failed launch is retried (the retry count
    grows) exactly when its error is the never-checked-in or the
    startup-crash error and the count is below the budget.  And an ["error"]
    event of the child for a missing executable (ENOENT), when the launch is
    not called back yet, calls the caller back with the spawn error in that
    same handler, without a retry and without a spawn. *)
Theorem retry_within_budget (JSON_parse : string -> option json)
  (opts : Opts) (lcb : cbid) (ecb : option cbid) (evs : list event) :
  let '(w, _) := session JSON_parse opts lcb ecb evs in
  launchTries (self w) <= flakeyRetries (self w) /\
  flakeyRetries (self w) = o_flakeyRetries opts /\
  (forall tmp e,
     launchHandlerCalledBack (self w) = false ->
     let '(_, w', _) := launchHandler tmp (Some e) w in
     launchTries (self w) < launchTries (self w') <->
     (launchTries (self w) < flakeyRetries (self w) /\
      (e = ERR_NEVER_CHECKED_IN \/ e = ERR_CRASHED_ON_STARTUP))) /\
  (forall p msg tmp,
     index 0 "ENOENT" msg <> None ->
     launchHandlerCalledBack (self w) = false ->
     instrumentsExited (self w) = false ->
     let '(w', t') := step JSON_parse (ProcError p msg tmp) w in
     launchCbs t' = [(lcb, Some ("Unable to spawn instruments: " ++ msg)%string)] /\
     spawns t' = [] /\
     launchTries (self w') = launchTries (self w) /\
     launchHandlerCalledBack (self w') = true).
Proof.
  destruct (session JSON_parse opts lcb ecb evs) as [w t] eqn:E.
  destruct (session_keeps _ _ _ _ _ E) as (Hcb & Hb & Ht & _).
  split; [exact Ht|]. split; [exact Hb|]. split.
  - intros tmp e Hnot.
    pose proof (@launchHandler_retries lcb tmp e w Hnot) as Hr. unfold post in Hr.
    destruct (launchHandler tmp (Some e) w) as [[r w'] t'].
    rewrite Hr. unfold retryable. rewrite orb_true_iff, !String.eqb_eq. tauto.
  - intros p msg tmp Hidx Hnot Hex.
    pose proof (@onProcError_surfaces lcb msg tmp w Hidx Hnot Hex Hcb) as Hs.
    unfold post in Hs. unfold step, complete, handle.
    destruct (onProcError msg tmp w) as [[r w'] t'].
    destruct Hs as (-> & H1 & H2 & H3 & H4 & _). auto.
Qed.

(** A session whose child fails to spawn on its first launch, with
    retries left: the hypotheses of the theorem's last part hold there, and
    the caller gets the spawn error. *)
Lemma retry_within_budget_witness :
  let opts := {| o_launchTimeout := None; o_flakeyRetries := 3;
                 o_ignoreStartupExit := false; o_isSafariLauncherApp := false;
                 o_xcodeVersion := Str "5.1" |} in
  let evs := [XcrunDone (Some "/usr/bin/instruments") None []; Listening []] in
  let w := fst (session (fun _ => None) opts 1 None evs) in
  index 0 "ENOENT" "spawn ENOENT" <> None /\
  launchHandlerCalledBack (self w) = false /\
  instrumentsExited (self w) = false /\
  launchCbs (snd (step (fun _ => None) (ProcError 0 "spawn ENOENT" []) w))
    = [(1, Some "Unable to spawn instruments: spawn ENOENT")].
Proof.
  cbv zeta.
  generalize (retry_within_budget (fun _ => None)
                {| o_launchTimeout := None; o_flakeyRetries := 3;
                   o_ignoreStartupExit := false; o_isSafariLauncherApp := false;
                   o_xcodeVersion := Str "5.1" |}
                1 None
                [XcrunDone (Some "/usr/bin/instruments") None []; Listening []]).
  destruct (session _ _ _ _ _) as [w t] eqn:E. simpl fst.
  intros (_ & _ & _ & H).
  assert (H1 : index 0 "ENOENT" "spawn ENOENT" <> None) by (vm_compute; discriminate).
  assert (H2 : launchHandlerCalledBack (self w) = false)
    by (vm_compute in E; inversion E; reflexivity).
  assert (H3 : instrumentsExited (self w) = false)
    by (vm_compute in E; inversion E; reflexivity).
  specialize (H 0 "spawn ENOENT" [] H1 H2 H3).
  destruct (step _ _ w) as [w' t']. simpl snd.
  destruct H as (H & _). repeat split; assumption.
Defined.


(** ** [start] on a session that is launching or has launched *)

(** C3, as stated, fails: a second [start] right after the first, before
    the peer has checked in, is not refused.  It fires no callback, replaces
    the stored launch callback and looks the binary up a second time. *)
Lemma second_start_before_check_in_accepted :
  let opts := {| o_launchTimeout := None; o_flakeyRetries := 0;
                 o_ignoreStartupExit := false; o_isSafariLauncherApp := false;
                 o_xcodeVersion := Str "5.1" |} in
  let w1 := fst (started opts 1 None) in
  let w2 := fst (complete (start 2 None) w1) in
  snd (complete (start 2 None) w1) = [FindInstruments] /\
  didLaunch (self w1) = false /\
  launchHandlerCb (self w1) = Some 1 /\
  launchHandlerCb (self w2) = Some 2 /\
  pendingPath w1 = 1 /\ pendingPath w2 = 2.
Proof. cbv zeta. repeat split. Qed.

(** C3, amended.  [start] on a session whose launch has completed (the
    peer has checked in, [didLaunch] is set) fails at once: the callback of
    that call receives the error "Called start() but we already launched",
    nothing else happens and the session is left as it was. *)
Theorem start_after_launch_rejected (w : World) (lcb : cbid) (ecb : option cbid) :
  didLaunch (self w) = true ->
  start lcb ecb w =
  (Ret tt, w, [LaunchCb lcb (Some "Called start() but we already launched")]).
Proof.
  intros H. unfold start, bind, this, get, ret; simpl. rewrite H. reflexivity.
Qed.

Lemma start_after_launch_rejected_witness :
  let opts := {| o_launchTimeout := None; o_flakeyRetries := 0;
                 o_ignoreStartupExit := false; o_isSafariLauncherApp := false;
                 o_xcodeVersion := Str "5.1" |} in
  let w := fst (session (fun _ => None) opts 1 None
                  [XcrunDone (Some "/usr/bin/instruments") None []; Listening [];
                   SocketConnect 0]) in
  didLaunch (self w) = true /\
  start 2 None w =
  (Ret tt, w, [LaunchCb 2 (Some "Called start() but we already launched")]).
Proof.
  cbv zeta. split; [reflexivity|].
  apply start_after_launch_rejected. reflexivity.
Defined.

(** ** Shutdown *)

Section ShutdownEvents.

Variable JSON_parse : string -> option json.

Lemma handle_shut (ev : event) (w : World) :
  is_shutdown_call ev = false ->
  post (handle JSON_parse ev) w (fun _ w' t => shut_rel w w' t).
Proof.
  intros Hev. destruct ev; try discriminate Hev; unfold handle;
    repeat (cbv beta;
            first [ eapply post_mono;
                    [apply launchHandler_quiet
                    | intros ? ? ? Hq; cbv beta in Hq; cbv beta iota]
                  | wp_step ]);
    unfold shut_rel, quiet; shut_traces;
    first [ left; split; congruence
          | right; eexists; split; [eassumption | split; reflexivity] ].
Qed.

Lemma step_shut (ev : event) (w : World) :
  is_shutdown_call ev = false ->
  shut_rel w (fst (step JSON_parse ev w)) (snd (step JSON_parse ev w)).
Proof.
  intros Hev. pose proof (handle_shut ev w Hev) as H. unfold post in H.
  unfold step, complete. destruct (handle JSON_parse ev w) as [[[u|msg] w'] t];
    simpl; [exact H|].
  unfold shut_rel, quiet in *. rewrite shutdownCbs_app; simpl. rewrite app_nil_r.
  exact H.
Qed.

(** Once the stored shutdown callback is cleared, nothing but a new call
    of [shutdown] brings one back, and none fires. *)
Lemma run_after_shutdown (evs : list event) : forall w : World,
  forallb (fun ev => negb (is_shutdown_call ev)) evs = true ->
  shutdownCb (self w) = None ->
  shutdownCbs (snd (run JSON_parse evs w)) = [] /\
  shutdownCb (self (fst (run JSON_parse evs w))) = None.
Proof.
  induction evs as [|ev evs IH]; intros w Hevs Hnone; simpl; [auto|].
  simpl in Hevs. apply andb_prop in Hevs. destruct Hevs as [Hev Hevs].
  apply negb_true_iff in Hev.
  pose proof (step_shut ev w Hev) as H1.
  destruct (step JSON_parse ev w) as [w1 t1]; simpl in H1.
  destruct H1 as [[H1 H2]|(f & Hf & _)]; [|congruence].
  rewrite Hnone in H2. specialize (IH w1 Hevs H2).
  destruct (run JSON_parse evs w1) as [w2 t2]; simpl in *.
  rewrite shutdownCbs_app, H1. exact IH.
Qed.



End ShutdownEvents.


Lemma armed_disarm (t : timer) (l : list (timer * timerKind)) :
  armed t (disarm t l) = None.
Proof.
  induction l as [|[t' k] l IH]; simpl; [reflexivity|].
  destruct (t =? t') eqn:E; simpl; [exact IH | now rewrite E].
Qed.

Lemma armed_disarm_other (t t0 : timer) (l : list (timer * timerKind)) :
  armed t l = None -> armed t (disarm t0 l) = None.
Proof.
  induction l as [|[t' k] l IH]; simpl; [reflexivity|].
  destruct (t =? t') eqn:E; [discriminate|]. intros H.
  destruct (t0 =? t'); simpl; [auto | rewrite E; auto].
Qed.






(** ** Inbound messages *)

(** C7.  When the text buffered on a connection does not parse as JSON at
    the connection's end, while a command is in flight, no exception leaves
    the handler: the buffer is emptied, the in-flight command's callback
    fires with [UNKNOWN_ERROR], and the queue moves on as after any result.
    The next pending command is written on that connection; when none is
    pending the connection is kept, and the next [sendCommand] is written on
    it at once. *)
Theorem malformed_json_yields_sentinel (JSON_parse : string -> option json)
  (w : World) (c : conn) (e : Command) :
  JSON_parse (bufferedData (self w)) = None ->
  curCommand (handlerObj w) = Some e ->
  let '(w', t) := step JSON_parse (SocketEnd c) w in
  self w' = set_bufferedData "" (self w) /\
  match commandQueue (handlerObj w) with
  | e' :: q =>
      t = [CmdCallback (cb e) UNKNOWN_ERROR;
           SockWrite c (nextCommand (cmd e')); SockEnd c] /\
      handlerObj w' = {| curCommand := Some e'; commandQueue := q;
                         onReceiveCommand := None |}
  | [] =>
      t = [CmdCallback (cb e) UNKNOWN_ERROR] /\
      handlerObj w' = {| curCommand := None; commandQueue := [];
                         onReceiveCommand := Some c |} /\
      forall cmd0 cb0,
        commandHandler (self w) <> None ->
        step JSON_parse (CallSendCommand cmd0 cb0) w' =
        (set_handlerObj
           {| curCommand := Some {| cmd := cmd0; cb := cb0 |};
              commandQueue := []; onReceiveCommand := None |} w',
         [SockWrite c (nextCommand cmd0); SockEnd c])
  end.
Proof.
  intros Hparse Hcur.
  destruct w as [i h tm nt ps np sv cs pp pl]. destruct h as [cur q orc].
  simpl in Hparse, Hcur. subst cur.
  unfold step, complete, handle, onSocketEnd, bind, this, get, ret, withSelf,
    modify. simpl. rewrite Hparse. simpl.
  destruct q as [|e' q]; simpl.
  - repeat split. intros cmd0 cb0 Hch.
    unfold Instruments_sendCommand, bind, this, get, ret. simpl.
    destruct (commandHandler i); [reflexivity | now elim Hch].
  - repeat split.
Qed.

(** The peer answers command "a" with text that is not JSON. *)
Lemma malformed_json_yields_sentinel_witness :
  let w := fst (session sample_parse sample_opts 1 None
                  [XcrunDone (Some "/usr/bin/instruments") None []; Listening [];
                   SocketConnect 0; SocketData 0 doc_ready; SocketEnd 0;
                   CallSendCommand "a" 10; SocketClose 0;
                   SocketConnect 1; SocketData 1 "<html>"]) in
  sample_parse (bufferedData (self w)) = None /\
  curCommand (handlerObj w) = Some {| cmd := "a"; cb := 10 |} /\
  snd (step sample_parse (SocketEnd 1) w) = [CmdCallback 10 UNKNOWN_ERROR].
Proof.
  cbv zeta.
  match goal with |- context [step _ _ ?W] => set (w := W) end.
  pose proof (@malformed_json_yields_sentinel sample_parse w 1
                {| cmd := "a"; cb := 10 |} eq_refl eq_refl) as H.
  destruct (step sample_parse (SocketEnd 1) w) as [w' t].
  destruct H as (_ & H). simpl in H. destruct H as (H & _).
  repeat split. exact H.
Defined.

(** ** After the child's exit *)

(** Cleanup discards the handler reference ... *)
Lemma cleanupInstruments_discards (w : World) :
  post cleanupInstruments w
    (fun r w' _ => r = Ret tt -> commandHandler (self w') = None).
Proof.
  repeat (cbv beta; wp_step); norm; intros; congruence.
Qed.

(** X3.  ... and once the handler reference is discarded, [sendCommand]
    throws and queues nothing: the session is left as it was. *)
Lemma sendCommand_after_cleanup (JSON_parse : string -> option json)
  (w : World) (cmd0 : string) (cb0 : cbid) :
  commandHandler (self w) = None ->
  step JSON_parse (CallSendCommand cmd0 cb0) w =
  (w, [Threw "TypeError: Cannot read property 'sendCommand' of null"]).
Proof.
  intros H. unfold step, complete, handle, Instruments_sendCommand, bind, this,
    get, ret. simpl. rewrite H. reflexivity.
Qed.

Lemma sendCommand_after_cleanup_witness :
  let w := fst (session sample_parse sample_opts 1 (Some 2)
                  [XcrunDone (Some "/usr/bin/instruments") None []; Listening [];
                   SocketConnect 0; SocketData 0 doc_ready; SocketEnd 0;
                   SocketClose 0; ProcExit 0 (Some 0%Z) []]) in
  commandHandler (self w) = None /\
  step sample_parse (CallSendCommand "a" 10) w =
  (w, [Threw "TypeError: Cannot read property 'sendCommand' of null"]).
Proof.
  cbv zeta. split; [reflexivity|].
  apply sendCommand_after_cleanup. reflexivity.
Defined.

(** C10.  The claim does not hold of the code: [clean] empties the
    in-flight slot but not the queue, and [eventRouter.cmd] stays bound to
    the handler object after the reference to it is discarded.  In this
    session command "b" is still queued when the child exits; the socket
    server, which is closed only when a connection is open at that time,
    keeps listening; the two messages that arrive afterwards dispatch "b" and
    fire its callback, after [onUnexpectedExit] has fired; [sendCommand]
    itself does throw by then. *)
Theorem stale_callback_after_exit :
  let evs := [XcrunDone (Some "/usr/bin/instruments") None []; Listening [];
              SocketConnect 0; SocketData 0 doc_ready; SocketEnd 0;
              CallSendCommand "a" 10; CallSendCommand "b" 11; SocketClose 0;
              ProcExit 0 (Some 0%Z) [];
              SocketConnect 1; SocketData 1 doc_result; SocketEnd 1; SocketClose 1;
              SocketConnect 2; SocketData 2 doc_result; SocketEnd 2;
              CallSendCommand "c" 12] in
  feasible sample_parse evs (fst (started sample_opts 1 (Some 2))) = true /\
  snd (session sample_parse sample_opts 1 (Some 2) evs) =
  [FindInstruments; ServerListen; Spawn 0; LaunchCb 1 None;
   SockWrite 0 (nextCommand "a"); SockEnd 0;
   ExitCb 2 (Some 0%Z) None;
   SockWrite 1 (nextCommand "b"); SockEnd 1;
   CmdCallback 11 (JNum 1);
   Threw "TypeError: Cannot read property 'sendCommand' of null"] /\
  commandHandler (self (fst (session sample_parse sample_opts 1 (Some 2) evs)))
    = None.
Proof. cbv zeta. repeat split; vm_compute; reflexivity. Qed.

(** ** The output filter *)

(** C9.  The claim does not hold of the code: of two filler lines in a
    row only the first is removed, because the match of the first consumes
    the line break that the second would need before it (the expression has
    no [m] flag, so [^] matches at the start of the chunk only).  The marker
    is found all the same. *)
Theorem clearBufferChars_keeps_second_run :
  let line := "Instruments Trace Complete (Duration : 1.0s; Output : /tmp/x.trace)" in
  let chunk := ("***" ++ nl ++ "***" ++ nl ++ line ++ nl)%string in
  clearBufferChars chunk = ("***" ++ nl ++ line ++ nl)%string /\
  lookForTraceDir (clearBufferChars chunk) = Some "/tmp/x.trace".
Proof. cbv zeta. split; vm_compute; reflexivity. Qed.

(** ** The output filter, in general *)

Lemma flat_map_nil {A B : Type} (f : A -> list B) (l : list A) :
  (forall x, In x l -> f x = []) -> flat_map f l = [].
Proof.
  induction l as [|x l IH]; intros H; simpl; [reflexivity|].
  rewrite (H x) by now left. apply IH. intros y Hy. apply H. now right.
Qed.

(** Where the filler expression may start: right after a line break it
    has consumed, or at the start of the chunk. *)
Lemma filler_start (st st' : mstate) :
  In st' (ways (Group (Alt (Chr LF) Bol)) st) ->
  (exists c, rest st = c :: rest st') \/ rest st' = rest st.
Proof.
  cbn [ways]. rewrite in_map_iff. intros (st0 & <- & Hin). cbn [rest].
  apply in_app_or in Hin. destruct Hin as [Hin|Hin].
  - unfold one, advance in Hin. destruct (rest st) as [|c l] eqn:E; [easy|].
    destruct (Ascii.eqb LF c); [|easy].
    destruct Hin as [<-|[]]. left. exists c. reflexivity.
  - destruct (pos st =? 0); [|easy]. destruct Hin as [<-|[]]. now right.
Qed.

(** The filler expression needs a filler character there. *)
Lemma filler_needs_star (st : mstate) :
  (forall c l, rest st = c :: l -> c <> star) ->
  ways (Seq (Plus (Chr star)) (Opt (Chr LF))) st = [].
Proof.
  intros H. cbn [ways iterate]. unfold one.
  destruct (rest st) as [|c l] eqn:E; [reflexivity|].
  destruct (Ascii.eqb star c) eqn:Ec; [|reflexivity].
  apply Ascii.eqb_eq in Ec. exfalso. apply (H c l eq_refl). now symmetry.
Qed.

Lemma no_match_without_star (i : nat) (s : list ascii) :
  (forall c, In c s -> c <> star) ->
  match_at re_buffer_chars i s = None.
Proof.
  intros H. unfold match_at, re_buffer_chars.
  change (ways (Seq ?a ?b) ?st) with (flat_map (ways b) (ways a st)).
  rewrite flat_map_nil; [reflexivity|].
  intros st' Hin. apply filler_needs_star. intros c l E.
  apply filler_start in Hin. cbn [rest] in Hin.
  destruct Hin as [[c0 E0]|E0].
  - apply H. rewrite E0, E. right; now left.
  - apply H. rewrite <- E0, E. now left.
Qed.

Lemma remove_from_without_star (s : list ascii) : forall i,
  (forall c, In c s -> c <> star) ->
  remove_from re_buffer_chars 0 i s = s.
Proof.
  induction s as [|c s IH]; intros i H; [reflexivity|].
  cbn [remove_from]. rewrite no_match_without_star by exact H.
  f_equal. apply IH. intros c' Hc'. apply H. now right.
Qed.

(** X1.  A chunk without a filler character passes the filter unchanged. *)
Theorem clearBufferChars_without_filler (output : string) :
  (forall c, In c (list_ascii_of_string output) -> c <> star) ->
  clearBufferChars output = output.
Proof.
  intros H. unfold clearBufferChars, remove_all.
  rewrite remove_from_without_star by exact H.
  apply string_of_list_ascii_of_string.
Qed.

Lemma clearBufferChars_without_filler_witness :
  clearBufferChars "2014-01-01 12:00:00 +0000 Debug: ready" =
  "2014-01-01 12:00:00 +0000 Debug: ready".
Proof.
  apply clearBufferChars_without_filler.
  intros c Hin Hc. subst c. vm_compute in Hin. intuition discriminate.
Defined.

Lemma length_stars (n : nat) : length (stars n) = n.
Proof. induction n; simpl; congruence. Qed.

Lemma iterate_step (step : mstate -> list mstate) (fuel : nat) (st : mstate) :
  iterate step (S fuel) st =
  flat_map (fun st' =>
              (if pos st <? pos st' then iterate step fuel st' else []) ++ [st'])
           (step st).
Proof. reflexivity. Qed.

Lemma ways_star (p : nat) (l : list ascii) g :
  ways (Chr star) {| pos := p; rest := star :: l; grp := g |}
  = [{| pos := S p; rest := l; grp := g |}].
Proof. cbn [ways]. unfold one, advance. cbn [rest]. now rewrite Ascii.eqb_refl. Qed.

Lemma ways_no_star (p : nat) (l : list ascii) g :
  starts_with_star l = false ->
  ways (Chr star) {| pos := p; rest := l; grp := g |} = [].
Proof.
  intros H. cbn [ways]. unfold one. cbn [rest].
  destruct l as [|c l]; [reflexivity|]. cbn [starts_with_star] in H. now rewrite H.
Qed.

(** The greedy run: from a position before [S k] filler characters that
    are not followed by another, the first way to match [\*+] takes them
    all. *)
Lemma iterate_stars (k : nat) : forall (fuel p : nat) (tl : list ascii) g,
  k < fuel -> starts_with_star tl = false ->
  exists l,
    iterate (ways (Chr star)) fuel
      {| pos := p; rest := stars (S k) ++ tl; grp := g |}
    = {| pos := p + S k; rest := tl; grp := g |} :: l.
Proof.
  induction k as [|k IH]; intros fuel p tl g Hk Htl;
    (destruct fuel as [|fuel]; [lia|]); rewrite iterate_step.
  - change (stars 1 ++ tl) with (star :: tl). rewrite ways_star.
    cbn [flat_map pos].
    replace (p <? S p) with true by (symmetry; apply Nat.ltb_lt; lia).
    assert (E : iterate (ways (Chr star)) fuel
                  {| pos := S p; rest := tl; grp := g |} = []).
    { destruct fuel; [reflexivity|]. rewrite iterate_step.
      now rewrite ways_no_star. }
    rewrite E. simpl. replace (p + 1) with (S p) by lia. eauto.
  - change (stars (S (S k)) ++ tl) with (star :: (stars (S k) ++ tl)).
    rewrite ways_star. cbn [flat_map pos].
    replace (p <? S p) with true by (symmetry; apply Nat.ltb_lt; lia).
    destruct (IH fuel (S p) tl g) as [l E]; [lia | exact Htl |].
    rewrite E. simpl. replace (p + S (S k)) with (S (p + S k)) by lia. eauto.
Qed.

Lemma ways_seq (a b : regex) (st : mstate) :
  ways (Seq a b) st = flat_map (ways b) (ways a st).
Proof. reflexivity. Qed.

Lemma ways_plus (r : regex) (st : mstate) :
  ways (Plus r) st = iterate (ways r) (S (length (rest st))) st.
Proof. reflexivity. Qed.

Lemma ways_group_at_start (l : list ascii) :
  ways (Group (Alt (Chr LF) Bol)) {| pos := 0; rest := star :: l; grp := None |}
  = [{| pos := 0; rest := star :: l; grp := Some [] |}].
Proof. reflexivity. Qed.

Lemma ways_opt_lf (p : nat) (tl : list ascii) g :
  ways (Opt (Chr LF)) {| pos := p; rest := LF :: tl; grp := g |}
  = [{| pos := S p; rest := tl; grp := g |};
     {| pos := p; rest := LF :: tl; grp := g |}].
Proof. reflexivity. Qed.

(** At the start of a chunk that begins with a filler line, the
    expression matches that line and its line break. *)
Lemma match_filler_line (n : nat) (tl : list ascii) :
  match_at re_buffer_chars 0 (stars (S n) ++ LF :: tl)
  = Some (S (S n), Some []).
Proof.
  unfold match_at, re_buffer_chars. rewrite ways_seq.
  change (stars (S n) ++ LF :: tl) with (star :: (stars n ++ LF :: tl)).
  rewrite ways_group_at_start. cbn [flat_map].
  rewrite ways_seq, ways_plus. cbn [rest].
  change (star :: (stars n ++ LF :: tl)) with (stars (S n) ++ LF :: tl).
  destruct (@iterate_stars n (S (length (stars (S n) ++ LF :: tl))) 0
              (LF :: tl) (Some [])) as [l E].
  - rewrite length_app, length_stars. lia.
  - reflexivity.
  - rewrite E. cbn [flat_map app]. rewrite ways_opt_lf. cbn [app pos grp].
    rewrite Nat.sub_0_r. repeat f_equal.
Qed.

(** Past the start of the chunk, the expression matches only at a line
    break that a filler character follows. *)
Lemma no_match_past_start (i : nat) (s : list ascii) :
  lf_star_free s = true ->
  match_at re_buffer_chars (S i) s = None.
Proof.
  intros H. unfold match_at, re_buffer_chars.
  change (ways (Seq ?a ?b) ?st) with (flat_map (ways b) (ways a st)).
  rewrite flat_map_nil; [reflexivity|].
  intros st' Hin. cbn [ways] in Hin. rewrite in_map_iff in Hin.
  destruct Hin as (st0 & <- & Hin). cbn [pos] in Hin.
  rewrite app_nil_r in Hin. unfold one, advance in Hin. cbn [rest pos grp] in Hin.
  destruct s as [|c s]; [easy|].
  destruct (Ascii.eqb LF c) eqn:Ec; [|easy].
  destruct Hin as [<-|[]]. apply filler_needs_star. cbn [rest].
  intros c' l E Hc'. subst c' s. apply Ascii.eqb_eq in Ec. subst c.
  cbn [lf_star_free] in H. rewrite !Ascii.eqb_refl in H. discriminate.
Qed.

Lemma lf_star_free_tail (c : ascii) (s : list ascii) :
  lf_star_free (c :: s) = true -> lf_star_free s = true.
Proof. simpl. intros H. apply andb_prop in H. tauto. Qed.

Lemma remove_from_past_start (s : list ascii) : forall i,
  lf_star_free s = true ->
  remove_from re_buffer_chars 0 (S i) s = s.
Proof.
  induction s as [|c s IH]; intros i H; [reflexivity|].
  cbn [remove_from]. rewrite no_match_past_start by exact H.
  f_equal. apply IH. now apply lf_star_free_tail in H.
Qed.

Lemma remove_from_skip (r : regex) (l1 l2 : list ascii) : forall i,
  remove_from r (length l1) i (l1 ++ l2) = remove_from r 0 (i + length l1) l2.
Proof.
  induction l1 as [|c l1 IH]; intros i; simpl.
  - now rewrite Nat.add_0_r.
  - rewrite IH. f_equal. lia.
Qed.

(** X2.  A filler line at the start of a chunk is removed, and the text after
    it is kept as it is when none of its line breaks is followed by a filler
    character.  That text may itself start with filler characters: a second
    filler line in a row is kept. *)
Theorem leading_filler_line_only (n : nat) (tl : list ascii) :
  lf_star_free tl = true ->
  clearBufferChars (string_of_list_ascii (stars (S n) ++ LF :: tl))
  = string_of_list_ascii tl.
Proof.
  intros H. unfold clearBufferChars, remove_all.
  rewrite list_ascii_of_string_of_list_ascii. f_equal.
  change (stars (S n) ++ LF :: tl) with (star :: (stars n ++ LF :: tl)).
  cbn [remove_from].
  change (star :: (stars n ++ LF :: tl)) with (stars (S n) ++ LF :: tl).
  rewrite match_filler_line.
  replace (stars n ++ LF :: tl) with ((stars n ++ [LF]) ++ tl)
    by (rewrite <- app_assoc; reflexivity).
  replace (S n) with (length (stars n ++ [LF]))
    by (rewrite length_app, length_stars; simpl; lia).
  rewrite remove_from_skip. simpl Nat.add.
  apply remove_from_past_start. exact H.
Qed.

Lemma leading_filler_line_only_witness :
  clearBufferChars ("*****" ++ nl ++ "**" ++ nl ++ "ready")%string
  = ("**" ++ nl ++ "ready")%string.
Proof.
  apply (@leading_filler_line_only 4
           (list_ascii_of_string ("**" ++ nl ++ "ready")%string)).
  reflexivity.
Defined.

(** ** The completion marker, in general *)

Lemma ways_lit (s : string) : forall (p : nat) (l : list ascii) g,
  ways (lit s) {| pos := p; rest := chars s ++ l; grp := g |}
  = [{| pos := p + String.length s; rest := l; grp := g |}].
Proof.
  induction s as [|c s IH]; intros p l g; cbn [lit ways chars list_ascii_of_string].
  - simpl. now rewrite Nat.add_0_r.
  - unfold one, advance. cbn [rest app pos grp]. rewrite Ascii.eqb_refl.
    cbn [flat_map]. fold (chars s). rewrite IH. rewrite app_nil_r.
    simpl String.length. now rewrite Nat.add_succ_r.
Qed.

Lemma ways_lit_prefix (s : string) : forall st st',
  In st' (ways (lit s) st) -> exists l, rest st = chars s ++ l.
Proof.
  induction s as [|c s IH]; intros st st' Hin; cbn [lit ways] in Hin.
  - exists (rest st). reflexivity.
  - apply in_flat_map in Hin. destruct Hin as (st1 & H1 & H2).
    unfold one, advance in H1. destruct (rest st) as [|x xs] eqn:E; [easy|].
    destruct (Ascii.eqb c x) eqn:Ec; [|easy]. apply Ascii.eqb_eq in Ec. subst x.
    destruct H1 as [<-|[]]. apply IH in H2. cbn [rest] in H2.
    destruct H2 as [l ->]. exists l. reflexivity.
Qed.

(** A greedy run of characters satisfying [p]: the first way takes all of
    a non-empty run that is followed by a character that does not. *)
Lemma iterate_one_head (p : ascii -> bool) (l : list ascii) :
  forall (fuel i : nat) (tl : list ascii) g,
    l <> [] -> forallb p l = true ->
    match tl with c :: _ => p c = false | [] => True end ->
    length l <= fuel ->
    exists rest_ways,
      iterate (one p) fuel {| pos := i; rest := l ++ tl; grp := g |}
      = {| pos := i + length l; rest := tl; grp := g |} :: rest_ways.
Proof.
  induction l as [|c l IH]; intros fuel i tl g Hne Hall Htl Hfuel; [easy|].
  destruct fuel as [|fuel]; [simpl in Hfuel; lia|].
  cbn [forallb] in Hall. apply andb_prop in Hall. destruct Hall as [Hc Hall].
  cbn [iterate]. unfold one at 2, advance. cbn [rest app pos grp]. rewrite Hc.
  cbn [flat_map pos].
  replace (i <? S i) with true by (symmetry; apply Nat.ltb_lt; lia).
  destruct l as [|c' l].
  - assert (E : iterate (one p) fuel {| pos := S i; rest := tl; grp := g |} = []).
    { destruct fuel; [reflexivity|]. cbn [iterate]. unfold one at 2. cbn [rest].
      destruct tl as [|x xs]; [reflexivity|]. now rewrite Htl. }
    cbn [app]. rewrite E. simpl. replace (i + 1) with (S i) by lia. eauto.
  - destruct (IH fuel (S i) tl g) as [rw E]; [easy | exact Hall | exact Htl | |].
    { simpl in Hfuel |- *. lia. }
    rewrite E. simpl. replace (i + S (S (length l))) with (S (i + S (length l))) by lia.
    eauto.
Qed.

(** Every way to match [.+] consumes at least one character. *)
Lemma iterate_rest (step : mstate -> list mstate) :
  (forall st st', In st' (step st) ->
     exists c, rest st = c :: rest st') ->
  forall fuel st st', In st' (iterate step fuel st) ->
    exists j, 0 < j /\ rest st' = skipn j (rest st).
Proof.
  intros Hstep. induction fuel as [|fuel IH]; intros st st' Hin; [easy|].
  cbn [iterate] in Hin. apply in_flat_map in Hin.
  destruct Hin as (st1 & H1 & H2). apply Hstep in H1. destruct H1 as [c E].
  apply in_app_or in H2. destruct H2 as [H2|[<-|[]]].
  - destruct (pos st <? pos st1); [|easy]. apply IH in H2.
    destruct H2 as (j & Hj & ->). exists (S j). split; [lia|].
    rewrite E. reflexivity.
  - exists 1. split; [lia|]. rewrite E. reflexivity.
Qed.

Lemma one_consumes (p : ascii -> bool) (st st' : mstate) :
  In st' (one p st) -> exists c, rest st = c :: rest st'.
Proof.
  unfold one, advance. destruct (rest st) as [|c l]; [easy|].
  destruct (p c); [|easy]. intros [<-|[]]. exists c. reflexivity.
Qed.

(** The ways to match [.+] before [mid ++ w], longest first: those that
    run past [mid], then the one that stops right after it. *)
Lemma iterate_dot_split (mid : list ascii) :
  forall (fuel i : nat) (w : list ascii) g,
    mid <> [] -> no_line_terminator mid = true ->
    length mid <= fuel ->
    exists l1 l2,
      iterate (ways Dot) fuel {| pos := i; rest := mid ++ w; grp := g |}
      = l1 ++ {| pos := i + length mid; rest := w; grp := g |} :: l2 /\
      forall st, In st l1 -> exists j, 0 < j /\ rest st = skipn j w.
Proof.
  induction mid as [|c mid IH]; intros fuel i w g Hne Hall Hfuel; [easy|].
  destruct fuel as [|fuel]; [simpl in Hfuel; lia|].
  cbn [no_line_terminator forallb] in Hall. apply andb_prop in Hall.
  destruct Hall as [Hc Hall].
  cbn [iterate ways]. unfold one at 2, advance. cbn [rest app pos grp]. rewrite Hc.
  cbn [flat_map pos].
  replace (i <? S i) with true by (symmetry; apply Nat.ltb_lt; lia).
  rewrite app_nil_r.
  destruct mid as [|c' mid].
  - exists (iterate (one (fun x => negb (is_line_terminator x))) fuel
              {| pos := S i; rest := w; grp := g |}), [].
    split.
    + cbn [app length]. replace (i + 1) with (S i) by lia. reflexivity.
    + intros st Hin.
      eapply iterate_rest in Hin; [exact Hin|].
      intros; eapply one_consumes; eassumption.
  - destruct (IH fuel (S i) w g) as (l1 & l2 & E & H1);
      [easy | exact Hall | simpl in Hfuel |- *; lia |].
    exists l1, (l2 ++ [{| pos := S i; rest := (c' :: mid) ++ w; grp := g |}]).
    split; [|exact H1].
    change (fun st : mstate => one (fun x => negb (is_line_terminator x)) st)
      with (ways Dot).
    rewrite E. rewrite <- app_assoc. cbn [app].
    replace (i + length (c :: c' :: mid)) with (S i + length (c' :: mid))
      by (simpl; lia).
    reflexivity.
Qed.

Lemma lacks_In (c : ascii) (l : list ascii) :
  lacks c l = true -> ~ In c l.
Proof.
  unfold lacks. intros H Hin. rewrite forallb_forall in H.
  specialize (H c Hin). now rewrite Ascii.eqb_refl in H.
Qed.

Lemma In_skipn {A : Type} (x : A) : forall (n : nat) (l : list A),
  In x (skipn n l) -> In x l.
Proof.
  induction n as [|n IH]; intros [|y l] H; simpl in H; auto.
  right. now apply IH.
Qed.

Lemma ways_lit_mismatch (c x : ascii) (s : string) (i : nat)
  (l : list ascii) g :
  Ascii.eqb c x = false ->
  ways (lit (String c s)) {| pos := i; rest := x :: l; grp := g |} = [].
Proof.
  intros H. cbn [lit]. rewrite ways_seq. cbn [ways]. unfold one. cbn [rest].
  now rewrite H.
Qed.

(** No match of the expression starts before the first capital I. *)
Lemma exec_from_before_marker (pre : list ascii) : forall (i : nat) (s : list ascii),
  lacks "I" pre = true ->
  exec_from re_trace_dir i (pre ++ s) = exec_from re_trace_dir (i + length pre) s.
Proof.
  induction pre as [|c pre IH]; intros i s H.
  - simpl. now rewrite Nat.add_0_r.
  - cbn [lacks forallb] in H. apply andb_prop in H. destruct H as [Hc H].
    cbn [app exec_from].
    assert (E : match_at re_trace_dir i (c :: pre ++ s) = None).
    { unfold match_at, re_trace_dir. rewrite ways_seq.
      unfold marker. rewrite ways_lit_mismatch; [reflexivity|].
      rewrite Ascii.eqb_sym. now apply negb_true_iff. }
    rewrite E. rewrite IH by exact H. f_equal. simpl. lia.
Qed.

Lemma exec_from_here (r : regex) (i : nat) (s : list ascii) m :
  match_at r i s = Some m -> exec_from r i s = Some m.
Proof. intros H. destruct s; simpl; now rewrite H. Qed.

(** After the label, nothing but the path, the parenthesis and a text
    without spaces: the label does not occur a second time. *)
Lemma label_not_later (path post : list ascii) (j : nat) (st : mstate) :
  lacks space path = true -> lacks space post = true -> 0 < j ->
  rest st = skipn j (chars output_label ++ path ++ rparen :: post) ->
  ways (lit output_label) st = [].
Proof.
  intros Hpath Hpost Hj Hrest.
  destruct (ways (lit output_label) st) as [|st' l] eqn:E; [reflexivity|].
  exfalso.
  assert (Hin : In st' (ways (lit output_label) st)) by (rewrite E; now left).
  apply ways_lit_prefix in Hin. destruct Hin as [l' Hl]. rewrite Hrest in Hl.
  do 9 (destruct j as [|j]; [first [lia | discriminate Hl]|]).
  change (skipn (S (S (S (S (S (S (S (S (S j)))))))))
            (chars output_label ++ path ++ rparen :: post))
    with (skipn j (path ++ rparen :: post)) in Hl.
  assert (Hs : In space (skipn j (path ++ rparen :: post))).
  { rewrite Hl. simpl. do 6 right. now left. }
  apply In_skipn in Hs. apply in_app_or in Hs. destruct Hs as [Hs|[Hs|Hs]].
  - now apply lacks_In in Hpath.
  - discriminate Hs.
  - now apply lacks_In in Hpost.
Qed.

(** The part of the expression after [.+], where the label starts. *)
Lemma ways_label_path (path post : list ascii) (i : nat) g :
  path <> [] -> lacks rparen path = true ->
  exists l,
    ways (Seq (lit output_label) (Seq (Group (Plus (NotChr rparen))) (Chr rparen)))
      {| pos := i; rest := chars output_label ++ path ++ rparen :: post; grp := g |}
    = {| pos := S (i + String.length output_label + length path);
         rest := post; grp := Some path |} :: l.
Proof.
  intros Hne Hpath. rewrite ways_seq, ways_lit. cbn [flat_map]. rewrite app_nil_r.
  rewrite ways_seq. cbn [ways rest pos].
  destruct (@iterate_one_head (fun x => negb (Ascii.eqb rparen x))
              path (S (length (path ++ rparen :: post)))
              (i + String.length output_label) (rparen :: post) g) as [rw E].
  - exact Hne.
  - unfold lacks in Hpath. rewrite forallb_forall in Hpath |- *.
    intros x Hx. rewrite Ascii.eqb_sym. now apply Hpath.
  - now rewrite Ascii.eqb_refl.
  - rewrite length_app. lia.
  - change (fun st : mstate => one (fun x => negb (Ascii.eqb rparen x)) st)
      with (one (fun x => negb (Ascii.eqb rparen x))).
    rewrite E. cbn [map flat_map pos rest].
    unfold one at 1, advance. cbn [rest pos grp]. rewrite Ascii.eqb_refl.
    replace (i + String.length output_label + length path
             - (i + String.length output_label)) with (length path) by lia.
    rewrite firstn_app, Nat.sub_diag, firstn_all. cbn [firstn].
    rewrite app_nil_r. cbn [app]. eauto.
Qed.

(** X4.  The directory named on a completion line is recovered whatever
    precedes the marker, provided that text has no capital I, and whatever
    follows the closing parenthesis, provided that text has no space: in
    particular between runs of filler.  The path itself has neither a
    space nor a closing parenthesis. *)
Theorem lookForTraceDir_finds_path (pre mid path post : list ascii) :
  lacks "I" pre = true ->
  mid <> [] -> no_line_terminator mid = true ->
  path <> [] -> lacks rparen path = true -> lacks space path = true ->
  lacks space post = true ->
  lookForTraceDir
    (string_of_list_ascii
       (pre ++ chars marker ++ mid ++ chars output_label ++ path ++ rparen :: post))
  = Some (string_of_list_ascii path).
Proof.
  intros Hpre Hmid Hline Hne Hparen Hspace Hpost.
  unfold lookForTraceDir, exec. rewrite list_ascii_of_string_of_list_ascii.
  rewrite exec_from_before_marker by exact Hpre.
  set (w := chars output_label ++ path ++ rparen :: post).
  set (i := 0 + length pre).
  destruct (@iterate_dot_split mid (S (length (mid ++ w)))
              (i + String.length marker) w None Hmid Hline) as (l1 & l2 & E & H1).
  { rewrite length_app. lia. }
  destruct (@ways_label_path path post (i + String.length marker + length mid)
              None Hne Hparen) as [l3 E3].
  fold w in E3.
  assert (Hm : exists n,
             match_at re_trace_dir i (chars marker ++ mid ++ w)
             = Some (n, Some path)).
  { unfold match_at, re_trace_dir. fold marker output_label.
    rewrite ways_seq, ways_lit. cbn [flat_map]. rewrite app_nil_r.
    rewrite ways_seq, ways_plus. cbn [rest]. rewrite E.
    rewrite flat_map_app. cbn [flat_map].
    rewrite (flat_map_nil _ l1).
    - rewrite E3. cbn [app grp]. eauto.
    - intros st Hst. destruct (H1 st Hst) as (j & Hj & Hrest).
      rewrite ways_seq.
      rewrite (@label_not_later path post j st Hspace Hpost Hj Hrest).
      reflexivity. }
  destruct Hm as [n Hm]. now rewrite (exec_from_here _ _ _ Hm).
Qed.

(** The completion line between two lines of filler. *)
Lemma lookForTraceDir_finds_path_witness :
  lookForTraceDir
    ("***" ++ nl ++ "Instruments Trace Complete (Duration : 1.0s; Output : /tmp/x.trace)"
     ++ nl ++ "***" ++ nl)
  = Some "/tmp/x.trace".
Proof.
  apply (@lookForTraceDir_finds_path
           (chars ("***" ++ nl)) (chars " (Duration : 1.0s; ")
           (chars "/tmp/x.trace") (chars (nl ++ "***" ++ nl)));
    solve [reflexivity | discriminate].
Defined.

(** ** What a match consumes *)

Lemma consumes_one (P : ascii -> Prop) (p : ascii -> bool) :
  (forall c, p c = true -> P c) -> consumes P (one p).
Proof.
  intros H st st' Hin. unfold one, advance in Hin.
  destruct (rest st) as [|c l] eqn:E; [easy|].
  destruct (p c) eqn:Ec; [|easy]. destruct Hin as [<-|[]].
  exists [c]. cbn [rest pos app length]. repeat split; [lia|].
  constructor; [auto | constructor].
Qed.

Lemma consumes_seq (P : ascii -> Prop) (f g : mstate -> list mstate) :
  consumes P f -> consumes P g -> consumes P (fun st => flat_map g (f st)).
Proof.
  intros Hf Hg st st' Hin. apply in_flat_map in Hin.
  destruct Hin as (st1 & H1 & H2).
  destruct (Hf _ _ H1) as (l1 & E1 & N1 & F1).
  destruct (Hg _ _ H2) as (l2 & E2 & N2 & F2).
  exists (l1 ++ l2). rewrite <- app_assoc, <- E2, E1, length_app.
  repeat split; [lia|]. apply Forall_app; auto.
Qed.

Lemma consumes_iterate (P : ascii -> Prop) (f : mstate -> list mstate) :
  consumes P f -> forall fuel, consumes P (iterate f fuel).
Proof.
  intros Hf. induction fuel as [|fuel IH]; intros st st' Hin; [easy|].
  cbn [iterate] in Hin. apply in_flat_map in Hin.
  destruct Hin as (st1 & H1 & H2).
  destruct (Hf _ _ H1) as (l1 & E1 & N1 & F1).
  apply in_app_or in H2. destruct H2 as [H2|[<-|[]]].
  - destruct (pos st <? pos st1); [|easy].
    destruct (IH _ _ H2) as (l2 & E2 & N2 & F2).
    exists (l1 ++ l2). rewrite <- app_assoc, <- E2, E1, length_app.
    repeat split; [lia|]. apply Forall_app; auto.
  - exists l1. auto.
Qed.

Lemma consumes_ways (P : ascii -> Prop) (r : regex) :
  within P r -> consumes P (ways r).
Proof.
  induction r; cbn [within ways]; intros H.
  - intros st st' [<-|[]]. exists []. simpl. repeat split; [lia | constructor].
  - apply consumes_one. intros x Hx. apply Ascii.eqb_eq in Hx. now subst x.
  - apply consumes_one. auto.
  - apply consumes_one. auto.
  - intros st st' Hin. destruct (pos st =? 0); [|easy]. destruct Hin as [<-|[]].
    exists []. simpl. repeat split; [lia | constructor].
  - destruct H as [H1 H2].
    exact (consumes_seq (IHr1 H1) (IHr2 H2)).
  - destruct H as [H1 H2]. intros st st' Hin. apply in_app_or in Hin.
    destruct Hin as [Hin|Hin]; [now apply (IHr1 H1) | now apply (IHr2 H2)].
  - intros st. apply consumes_iterate. auto.
  - intros st st' Hin. apply in_app_or in Hin. destruct Hin as [Hin|[<-|[]]].
    + now apply (IHr H).
    + exists []. simpl. repeat split; [lia | constructor].
  - intros st st' Hin. rewrite in_map_iff in Hin. destruct Hin as (st0 & <- & Hin).
    cbn [rest pos]. now apply (IHr H).
Qed.

(** A match of length [k] at the head of [s] covers the first [k]
    characters of [s]. *)
Lemma match_at_covers (P : ascii -> Prop) (r : regex) (i k : nat)
  (s : list ascii) g :
  within P r -> match_at r i s = Some (k, g) ->
  k <= length s /\ Forall P (firstn k s).
Proof.
  intros Hr. unfold match_at.
  destruct (ways r {| pos := i; rest := s; grp := None |}) as [|st l] eqn:E;
    [discriminate|].
  intros H. injection H as <- _.
  assert (Hin : In st (ways r {| pos := i; rest := s; grp := None |}))
    by (rewrite E; now left).
  destruct (@consumes_ways P r Hr _ _ Hin) as (l0 & E0 & N0 & F0).
  cbn [rest pos] in E0, N0. rewrite N0.
  replace (i + length l0 - i) with (length l0) by lia.
  rewrite E0, length_app. split; [lia|].
  rewrite firstn_app, Nat.sub_diag, firstn_all. cbn [firstn].
  now rewrite app_nil_r.
Qed.

Lemma within_buffer_chars : within (fun c => is_filler c = true) re_buffer_chars.
Proof. cbn. repeat split. Qed.

(** Deleting the matches of an expression that consumes filler only keeps
    the genuine text. *)
Lemma remove_from_genuine (r : regex) :
  within (fun c => is_filler c = true) r ->
  forall (s : list ascii) (skip i : nat),
    Forall (fun c => is_filler c = true) (firstn skip s) ->
    genuine (remove_from r skip i s) = genuine s /\
    length (remove_from r skip i s) <= length s.
Proof.
  intros Hr. induction s as [|c s IH]; intros skip i Hskip; [simpl; auto|].
  cbn [remove_from]. destruct skip as [|k].
  - destruct (match_at r i (c :: s)) as [[[|k] g]|] eqn:E.
    + destruct (IH 0 (S i)) as [H1 H2]; [constructor|].
      unfold genuine in *. cbn [filter length]. rewrite H1. split; [reflexivity | lia].
    + destruct (@match_at_covers _ r i (S k) (c :: s) g Hr E) as [Hk Hf].
      cbn [firstn] in Hf. inversion Hf as [|? ? Hc Hf']; subst.
      destruct (IH k (S i) Hf') as [H1 H2].
      unfold genuine in *. cbn [filter length]. rewrite Hc. cbn [negb].
      split; [exact H1 | lia].
    + destruct (IH 0 (S i)) as [H1 H2]; [constructor|].
      unfold genuine in *. cbn [filter length]. rewrite H1. split; [reflexivity | lia].
  - cbn [firstn] in Hskip. inversion Hskip as [|? ? Hc Hf']; subst.
    destruct (IH k (S i) Hf') as [H1 H2].
    unfold genuine in *. cbn [filter length]. rewrite Hc. cbn [negb].
    split; [exact H1 | lia].
Qed.

Lemma length_of_list_ascii (l : list ascii) :
  String.length (string_of_list_ascii l) = length l.
Proof. induction l as [|c l IH]; simpl; congruence. Qed.

(** X5.  The filter deletes asterisks and line breaks only: every other
    character of a chunk is kept, in order, and the chunk never grows. *)
Theorem clearBufferChars_keeps_genuine (output : string) :
  genuine (chars (clearBufferChars output)) = genuine (chars output) /\
  String.length (clearBufferChars output) <= String.length output.
Proof.
  unfold clearBufferChars, remove_all, chars.
  rewrite list_ascii_of_string_of_list_ascii.
  destruct (@remove_from_genuine re_buffer_chars within_buffer_chars
              (list_ascii_of_string output) 0 0) as [H1 H2]; [constructor|].
  split; [exact H1|].
  rewrite <- (string_of_list_ascii_of_string output) at 2.
  rewrite !length_of_list_ascii. exact H2.
Qed.

(** ** A filler line between two lines *)

Lemma match_filler_between (i n : nat) (tl : list ascii) :
  match_at re_buffer_chars i (LF :: stars (S n) ++ LF :: tl)
  = Some (S (S (S n)), Some [LF]).
Proof.
  unfold match_at, re_buffer_chars. rewrite ways_seq.
  assert (Eg : exists l,
             ways (Group (Alt (Chr LF) Bol))
               {| pos := i; rest := LF :: stars (S n) ++ LF :: tl; grp := None |}
             = {| pos := S i; rest := stars (S n) ++ LF :: tl; grp := Some [LF] |}
               :: l).
  { cbn [ways]. unfold one, advance. cbn [rest pos grp].
    rewrite Ascii.eqb_refl. cbn [app map pos rest].
    replace (S i - i) with 1 by lia. cbn [firstn]. eauto. }
  destruct Eg as [l ->]. cbn [flat_map].
  rewrite ways_seq, ways_plus. cbn [rest].
  destruct (@iterate_stars n (S (length (stars (S n) ++ LF :: tl))) (S i)
              (LF :: tl) (Some [LF])) as [l' E].
  - rewrite length_app, length_stars. lia.
  - reflexivity.
  - rewrite E. cbn [flat_map app]. rewrite ways_opt_lf. cbn [app pos grp].
    repeat f_equal. lia.
Qed.

(** No match starts in a text without asterisks that a line break
    follows. *)
Lemma no_match_before_break (i : nat) (c : ascii) (a s : list ascii) :
  (forall x, In x (c :: a) -> x <> star) ->
  match_at re_buffer_chars i (c :: a ++ LF :: s) = None.
Proof.
  intros H. unfold match_at, re_buffer_chars. rewrite ways_seq.
  rewrite flat_map_nil; [reflexivity|].
  intros st' Hin. apply filler_needs_star. intros c' l E.
  apply filler_start in Hin. cbn [rest] in Hin.
  destruct Hin as [[c0 E0]|E0].
  - injection E0 as _ E0. rewrite E in E0.
    destruct a as [|x a]; cbn [app] in E0; injection E0 as <- _.
    + discriminate.
    + apply H. right. now left.
  - rewrite E0 in E. injection E as <- _. apply H. now left.
Qed.

Lemma remove_from_before_break (a s : list ascii) : forall i,
  (forall x, In x a -> x <> star) ->
  remove_from re_buffer_chars 0 i (a ++ LF :: s)
  = a ++ remove_from re_buffer_chars 0 (i + length a) (LF :: s).
Proof.
  induction a as [|c a IH]; intros i H.
  - simpl. now rewrite Nat.add_0_r.
  - cbn [app remove_from]. rewrite no_match_before_break by exact H.
    rewrite IH by (intros x Hx; apply H; now right).
    cbn [length]. now rewrite Nat.add_succ_r.
Qed.

(** X6.  A filler line between two lines is deleted together with the
    line break before it and the one after it: the text before, if it has no
    asterisk, and the text after, if none of its line breaks is followed by
    an asterisk, come out joined, with no line break between them. *)
Theorem filler_line_joins_neighbours (a b : list ascii) (n : nat) :
  (forall x, In x a -> x <> star) ->
  lf_star_free b = true ->
  clearBufferChars (string_of_list_ascii (a ++ LF :: stars (S n) ++ LF :: b))
  = string_of_list_ascii (a ++ b).
Proof.
  intros Ha Hb. unfold clearBufferChars, remove_all.
  rewrite list_ascii_of_string_of_list_ascii. f_equal.
  rewrite remove_from_before_break by exact Ha. f_equal.
  cbn [remove_from]. rewrite match_filler_between.
  replace (stars (S n) ++ LF :: b) with ((stars (S n) ++ [LF]) ++ b)
    by (rewrite <- app_assoc; reflexivity).
  replace (S (S n)) with (length (stars (S n) ++ [LF]))
    by (rewrite length_app, length_stars; simpl; lia).
  rewrite remove_from_skip.
  replace (S (0 + length a) + length (stars (S n) ++ [LF]))
    with (S (length a + length (stars (S n) ++ [LF]))) by lia.
  apply remove_from_past_start. exact Hb.
Qed.

Lemma filler_line_joins_neighbours_witness :
  clearBufferChars ("first line" ++ nl ++ "*****" ++ nl ++ "second line")%string
  = "first linesecond line".
Proof.
  apply (@filler_line_joins_neighbours (chars "first line") (chars "second line") 4).
  - intros x Hin Hx. subst x. vm_compute in Hin. intuition discriminate.
  - reflexivity.
Defined.

(** ** Filler lines in a row *)

(** Past the start of a chunk no match starts at an asterisk. *)
Lemma no_match_at_star (i : nat) (s : list ascii) :
  match_at re_buffer_chars (S i) (star :: s) = None.
Proof. reflexivity. Qed.

Lemma remove_from_stars (m : nat) (s : list ascii) : forall i,
  remove_from re_buffer_chars 0 (S i) (stars m ++ s)
  = stars m ++ remove_from re_buffer_chars 0 (S i + m) s.
Proof.
  induction m as [|m IH]; intros i.
  - simpl. now rewrite Nat.add_0_r.
  - change (stars (S m) ++ s) with (star :: (stars m ++ s)).
    cbn [remove_from]. rewrite no_match_at_star. rewrite IH.
    replace (S (S i) + m) with (S i + S m) by lia. reflexivity.
Qed.

Lemma remove_from_filler_lines (n : nat) : forall (m i : nat),
  remove_from re_buffer_chars 0 (S i) (filler_lines n m) = survivors n m.
Proof.
  fix IH 1. intros [|[|m]] i.
  - reflexivity.
  - cbn [filler_lines survivors]. rewrite remove_from_stars. reflexivity.
  - cbn [filler_lines survivors]. rewrite remove_from_stars. f_equal.
    cbn [remove_from]. rewrite match_filler_between.
    replace (stars (S n) ++ LF :: filler_lines n m)
      with ((stars (S n) ++ [LF]) ++ filler_lines n m)
      by (rewrite <- app_assoc; reflexivity).
    replace (S (S n)) with (length (stars (S n) ++ [LF]))
      by (rewrite length_app, length_stars; simpl; lia).
    rewrite remove_from_skip.
    replace (S (S i + S n) + length (stars (S n) ++ [LF]))
      with (S (S i + S n + length (stars (S n) ++ [LF]))) by lia.
    apply IH.
Qed.

Lemma count_survivors (n : nat) : forall m,
  count_occ ascii_dec (survivors n m) star = S n * (S m / 2).
Proof.
  assert (Hs : forall k l, count_occ ascii_dec (stars k ++ l) star
                           = k + count_occ ascii_dec l star).
  { induction k as [|k IHk]; intros l; [reflexivity|].
    cbn [stars app]. rewrite count_occ_cons_eq by reflexivity. now rewrite IHk. }
  fix IH 1. intros [|[|m]].
  - simpl. lia.
  - cbn [survivors]. rewrite Hs.
    change (2 / 2) with 1. simpl count_occ. lia.
  - cbn [survivors]. rewrite Hs, IH.
    replace (S (S (S m))) with (S m + 1 * 2) by lia.
    rewrite Nat.div_add by discriminate. lia.
Qed.

(** X7.  Of the filler lines of a chunk that holds nothing else, every
    second one survives: the first line is deleted with its line break, and
    from then on each line that is kept loses its line break to the match
    that deletes the next.  Of [k + 1] lines of [n + 1] asterisks each, the
    asterisks of [(k + 1) / 2] lines, rounded down, are left. *)
Theorem filler_lines_survive_in_turn (n k : nat) :
  clearBufferChars (string_of_list_ascii (filler_lines n (S k)))
  = string_of_list_ascii (survivors n k) /\
  count_occ ascii_dec (chars (clearBufferChars
                                (string_of_list_ascii (filler_lines n (S k))))) star
  = S n * (S k / 2).
Proof.
  assert (E : clearBufferChars (string_of_list_ascii (filler_lines n (S k)))
              = string_of_list_ascii (survivors n k)).
  { unfold clearBufferChars, remove_all.
    rewrite list_ascii_of_string_of_list_ascii. f_equal.
    cbn [filler_lines].
    change (stars (S n) ++ LF :: filler_lines n k)
      with (star :: (stars n ++ LF :: filler_lines n k)).
    cbn [remove_from].
    change (star :: (stars n ++ LF :: filler_lines n k))
      with (stars (S n) ++ LF :: filler_lines n k).
    rewrite match_filler_line.
    replace (stars n ++ LF :: filler_lines n k)
      with ((stars n ++ [LF]) ++ filler_lines n k)
      by (rewrite <- app_assoc; reflexivity).
    replace (S n) with (length (stars n ++ [LF]))
      by (rewrite length_app, length_stars; simpl; lia).
    rewrite remove_from_skip. simpl Nat.add.
    apply remove_from_filler_lines. }
  split; [exact E|].
  rewrite E. unfold chars. rewrite list_ascii_of_string_of_list_ascii.
  apply count_survivors.
Qed.

(** ** The completion marker: what is found, and when *)

Lemma ways_lit_inv (s : string) : forall st st',
  In st' (ways (lit s) st) ->
  rest st = chars s ++ rest st' /\ pos st' = pos st + String.length s /\
  grp st' = grp st.
Proof.
  induction s as [|c s IH]; intros st st' Hin; cbn [lit ways] in Hin.
  - destruct Hin as [<-|[]]. simpl. repeat split. lia.
  - apply in_flat_map in Hin. destruct Hin as (st1 & H1 & H2).
    unfold one, advance in H1. destruct (rest st) as [|x xs] eqn:E; [easy|].
    destruct (Ascii.eqb c x) eqn:Ec; [|easy]. apply Ascii.eqb_eq in Ec. subst x.
    destruct H1 as [<-|[]]. apply IH in H2. cbn [rest pos grp] in H2.
    destruct H2 as (-> & -> & ->). simpl. repeat split. lia.
Qed.

Lemma iterate_one_inv (p : ascii -> bool) : forall fuel st st',
  In st' (iterate (one p) fuel st) ->
  exists l, l <> [] /\ forallb p l = true /\ rest st = l ++ rest st' /\
            pos st' = pos st + length l /\ grp st' = grp st.
Proof.
  induction fuel as [|fuel IH]; intros st st' Hin; [easy|].
  cbn [iterate] in Hin. apply in_flat_map in Hin.
  destruct Hin as (st1 & H1 & H2).
  unfold one, advance in H1. destruct (rest st) as [|x xs] eqn:E; [easy|].
  destruct (p x) eqn:Ex; [|easy]. destruct H1 as [<-|[]].
  cbn [pos] in H2. apply in_app_or in H2. destruct H2 as [H2|[<-|[]]].
  - destruct (pos st <? S (pos st)); [|easy].
    apply IH in H2. cbn [rest pos grp] in H2.
    destruct H2 as (l & _ & Hl & -> & -> & ->).
    exists (x :: l). simpl. rewrite Ex, Hl. repeat split; [easy | lia].
  - exists [x]. simpl. rewrite Ex. repeat split; [easy | lia].
Qed.

(** Every way to match the expression reads a completion line off the
    input, and captures the path it names. *)
Lemma ways_trace_dir_inv (st st' : mstate) :
  In st' (ways re_trace_dir st) ->
  exists mid p,
    rest st = chars marker ++ mid ++ chars output_label ++ p ++ rparen :: rest st' /\
    mid <> [] /\ no_line_terminator mid = true /\
    p <> [] /\ lacks rparen p = true /\ grp st' = Some p.
Proof.
  unfold re_trace_dir. fold marker output_label. rewrite ways_seq.
  intros Hin. apply in_flat_map in Hin. destruct Hin as (st1 & H1 & Hin).
  apply ways_lit_inv in H1. destruct H1 as (E1 & _ & _).
  rewrite ways_seq in Hin. apply in_flat_map in Hin. destruct Hin as (st2 & H2 & Hin).
  rewrite ways_plus in H2. apply iterate_one_inv in H2.
  destruct H2 as (mid & Hmid & Hline & E2 & _ & _).
  rewrite ways_seq in Hin. apply in_flat_map in Hin. destruct Hin as (st3 & H3 & Hin).
  apply ways_lit_inv in H3. destruct H3 as (E3 & _ & _).
  rewrite ways_seq in Hin. apply in_flat_map in Hin. destruct Hin as (st4 & H4 & Hin).
  cbn [ways] in H4. rewrite in_map_iff in H4. destruct H4 as (st5 & <- & H4).
  apply iterate_one_inv in H4. destruct H4 as (p & Hp & Hparen & E4 & N4 & _).
  cbn [ways] in Hin. unfold one, advance in Hin. cbn [rest pos grp] in Hin.
  destruct (rest st5) as [|x xs] eqn:E5; [easy|].
  destruct (Ascii.eqb rparen x) eqn:Ex; [|easy]. apply Ascii.eqb_eq in Ex. subst x.
  destruct Hin as [<-|[]]. cbn [rest grp].
  exists mid, p. rewrite E1, E2, E3, E4. repeat split; try assumption.
  rewrite N4. replace (pos st3 + length p - pos st3) with (length p) by lia.
  rewrite firstn_app, Nat.sub_diag, firstn_all. cbn [firstn].
  now rewrite app_nil_r.
Qed.

Lemma exec_from_inv (r : regex) m : forall (s : list ascii) (i : nat),
  exec_from r i s = Some m ->
  exists pre s', s = pre ++ s' /\ match_at r (i + length pre) s' = Some m.
Proof.
  induction s as [|c s IH]; intros i; cbn [exec_from].
  - destruct (match_at r i []) eqn:E; [|discriminate].
    intros H. injection H as <-. exists [], []. simpl. now rewrite Nat.add_0_r.
  - destruct (match_at r i (c :: s)) eqn:E.
    + intros H. injection H as <-. exists [], (c :: s). simpl.
      now rewrite Nat.add_0_r.
    + intros H. apply IH in H. destruct H as (pre & s' & -> & H).
      exists (c :: pre), s'. simpl. split; [reflexivity|].
      now replace (i + S (length pre)) with (S i + length pre) by lia.
Qed.

Lemma exec_from_finds (r : regex) (s' : list ascii) : forall (pre : list ascii) (i : nat),
  match_at r (i + length pre) s' <> None ->
  exec_from r i (pre ++ s') <> None.
Proof.
  induction pre as [|c pre IH]; intros i H.
  - simpl in H. rewrite Nat.add_0_r in H. simpl.
    destruct s' as [|c s']; cbn [exec_from];
      destruct (match_at r i _); congruence.
  - cbn [app exec_from]. destruct (match_at r i (c :: pre ++ s')); [discriminate|].
    apply IH. simpl in H. now replace (S i + length pre) with (i + S (length pre)) by lia.
Qed.

(** A match of the expression anywhere in the text reads a completion
    line off it. *)
Lemma exec_trace_dir_inv (s : list ascii) (n : nat) (g : option (list ascii)) :
  exec_from re_trace_dir 0 s = Some (n, g) ->
  exists p, g = Some p /\ completion_line s p.
Proof.
  intros H. apply exec_from_inv in H. destruct H as (pre & s' & E & H).
  unfold match_at in H.
  destruct (ways re_trace_dir _) as [|st l] eqn:Ew; [discriminate|].
  injection H as _ <-.
  assert (Hin : In st (ways re_trace_dir
                         {| pos := 0 + length pre; rest := s'; grp := None |}))
    by (rewrite Ew; now left).
  apply ways_trace_dir_inv in Hin. cbn [rest] in Hin.
  destruct Hin as (mid & p & E' & H1 & H2 & H3 & H4 & H5).
  exists p. split; [exact H5|].
  exists pre, mid, (rest st). rewrite E, E'. auto.
Qed.

(** X8.  What [lookForTraceDir] returns is named by a completion line of
    the text: the marker, then at least one character on the same line, then
    the label, the path (a non-empty text without closing parenthesis, which
    may run over several lines) and a closing parenthesis.  And it returns
    nothing exactly when the text holds no completion line. *)
Theorem lookForTraceDir_reads_completion_line (output : string) :
  (forall p, lookForTraceDir output = Some p ->
             completion_line (chars output) (chars p)) /\
  (lookForTraceDir output = None <->
   forall p, ~ completion_line (chars output) p).
Proof.
  unfold lookForTraceDir, exec. fold (chars output).
  pose proof (@exec_trace_dir_inv (chars output)) as Hinv.
  split; [|split].
  - intros p. destruct (exec_from re_trace_dir 0 (chars output)) as [[n g]|] eqn:E;
      [|discriminate].
    destruct (Hinv n g eq_refl) as (p0 & -> & Hp0).
    intros H. injection H as <-. unfold chars at 2.
    now rewrite list_ascii_of_string_of_list_ascii.
  - destruct (exec_from re_trace_dir 0 (chars output)) as [[n g]|] eqn:E.
    + destruct (Hinv n g eq_refl) as (p0 & -> & _). discriminate.
    + intros _ p (pre & mid & post & Es & Hmid & Hline & Hp & Hparen).
      revert E. rewrite Es. apply exec_from_finds. unfold match_at.
      unfold re_trace_dir. fold marker output_label.
      rewrite ways_seq, ways_lit. cbn [flat_map]. rewrite app_nil_r.
      rewrite ways_seq, ways_plus. cbn [rest].
      set (w := chars output_label ++ p ++ rparen :: post).
      destruct (@iterate_dot_split mid (S (length (mid ++ w)))
                  (0 + length pre + String.length marker) w None Hmid Hline)
        as (l1 & l2 & Ei & _).
      { rewrite length_app. lia. }
      rewrite Ei, flat_map_app. cbn [flat_map].
      destruct (@ways_label_path p post
                  (0 + length pre + String.length marker + length mid) None
                  Hp Hparen) as [l3 E3].
      fold w in E3. rewrite E3.
      destruct (flat_map _ l1); discriminate.
  - intros H. destruct (exec_from re_trace_dir 0 (chars output)) as [[n g]|] eqn:E;
      [|reflexivity].
    destruct (Hinv n g eq_refl) as (p0 & -> & Hp0). now elim (H p0).
Qed.

(** What is found is never the empty string. *)
Lemma lookForTraceDir_not_empty (output : string) :
  lookForTraceDir output <> Some "".
Proof.
  unfold lookForTraceDir, exec. fold (chars output).
  destruct (exec_from re_trace_dir 0 (chars output)) as [[n g]|] eqn:E;
    [|discriminate].
  destruct (exec_trace_dir_inv _ E) as (p & -> & (pre & mid & post & _ & _ & _ & Hp & _)).
  intros H. injection H as H. apply Hp.
  rewrite <- (list_ascii_of_string_of_list_ascii p), H. reflexivity.
Qed.

(** ** The error stream *)

(** A literal expression is found exactly in the texts that contain it. *)
Lemma test_lit (s output : string) :
  test (lit s) output = true <->
  exists pre post, chars output = pre ++ chars s ++ post.
Proof.
  unfold test, exec. fold (chars output). split.
  - destruct (exec_from (lit s) 0 (chars output)) as [m|] eqn:E; [|discriminate].
    intros _. apply exec_from_inv in E. destruct E as (pre & s' & E & H).
    unfold match_at in H.
    destruct (ways (lit s) _) as [|st l] eqn:Ew; [discriminate|].
    assert (Hin : In st (ways (lit s)
                           {| pos := 0 + length pre; rest := s'; grp := None |}))
      by (rewrite Ew; now left).
    apply ways_lit_inv in Hin. cbn [rest] in Hin. destruct Hin as (E' & _).
    exists pre, (rest st). now rewrite E, E'.
  - intros (pre & post & E). rewrite E.
    destruct (exec_from (lit s) 0 (pre ++ chars s ++ post)) eqn:Ex; [reflexivity|].
    exfalso. revert Ex. apply exec_from_finds. unfold match_at.
    rewrite ways_lit. discriminate.
Qed.

(** X9.  A chunk of the child's stderr raises an alert exactly when a web
    socket is configured and the chunk contains the text
    "Call to onAlert returned 'YES'"; there is then one alert, whose message
    is the whole chunk.  Otherwise nothing is emitted. *)
Theorem errorStreamHandler_alerts (webSocket : bool) (output : string) :
  (errorStreamHandler webSocket output = [WsEmit "alert" output] <->
   webSocket = true /\
   exists pre post, chars output = pre ++ chars alert_text ++ post) /\
  (errorStreamHandler webSocket output = [] \/
   errorStreamHandler webSocket output = [WsEmit "alert" output]).
Proof.
  unfold errorStreamHandler, re_alert.
  pose proof (test_lit alert_text output) as H.
  destruct webSocket; [|split; [split; [discriminate | intros [? _]; discriminate] | now left]].
  destruct (test (lit alert_text) output).
  - split; [|now right]. split; [intros _; split; [reflexivity | now apply H] | reflexivity].
  - split; [|now left]. split; [discriminate|].
    intros [_ Hs]. apply H in Hs. discriminate.
Qed.

(** ** Finding the binary *)

Lemma trimStart_spec (l : list ascii) :
  exists a, l = a ++ trimStart l /\ forallb is_white_space a = true /\
            (trimStart l = [] \/ starts_black (trimStart l) = true).
Proof.
  induction l as [|c l (a & E & Ha & Hl)]; [exists []; simpl; auto|].
  cbn [trimStart]. destruct (is_white_space c) eqn:Ec.
  - exists (c :: a). simpl. rewrite Ec, Ha. split; [now f_equal|]. auto.
  - exists []. simpl. rewrite Ec. auto.
Qed.

Lemma trimStart_white (a l : list ascii) :
  forallb is_white_space a = true -> trimStart (a ++ l) = trimStart l.
Proof.
  induction a as [|c a IH]; [reflexivity|]. simpl. intros H.
  apply andb_prop in H. destruct H as [-> H]. auto.
Qed.

Lemma trimStart_black (l : list ascii) :
  starts_black l = true -> trimStart l = l.
Proof.
  destruct l as [|c l]; [reflexivity|]. simpl. intros H.
  apply negb_true_iff in H. now rewrite H.
Qed.

Lemma starts_black_app (l1 l2 : list ascii) :
  starts_black l1 = true -> starts_black (l1 ++ l2) = true.
Proof. destruct l1; [discriminate | auto]. Qed.

Lemma forallb_rev {A : Type} (f : A -> bool) (l : list A) :
  forallb f (rev l) = forallb f l.
Proof.
  induction l as [|x l IH]; [reflexivity|]. simpl.
  rewrite forallb_app, IH. simpl. rewrite andb_true_r. apply andb_comm.
Qed.

(** What [trim] returns, and that nothing else fits: the text between the
    white space at both ends. *)
Lemma trim_spec (s : list ascii) (p : list ascii) :
  p <> [] ->
  (rev (trimStart (rev (trimStart s))) = p <->
   exists a b, s = a ++ p ++ b /\
               forallb is_white_space a = true /\ forallb is_white_space b = true /\
               starts_black p = true /\ starts_black (rev p) = true).
Proof.
  intros Hp. split.
  - intros E.
    destruct (trimStart_spec s) as (a & Ea & Ha & Hs).
    destruct (trimStart_spec (rev (trimStart s))) as (b & Eb & Hb & Hr).
    set (q := trimStart (rev (trimStart s))) in *.
    assert (Eq : q = rev p) by (rewrite <- E; now rewrite rev_involutive).
    assert (Es : trimStart s = p ++ rev b).
    { rewrite <- (rev_involutive (trimStart s)), Eb, rev_app_distr, Eq.
      now rewrite rev_involutive. }
    exists a, (rev b). rewrite Ea at 1. rewrite Es.
    split; [reflexivity|]. split; [exact Ha|].
    split; [now rewrite forallb_rev|].
    assert (Hq : q <> []) by (rewrite Eq; intros H; apply Hp;
                              rewrite <- (rev_involutive p), H; reflexivity).
    split.
    + destruct Hs as [Hs|Hs].
      * rewrite Es in Hs. destruct p; [now elim Hp | discriminate].
      * rewrite Es in Hs. destruct p; [now elim Hp | exact Hs].
    + destruct Hr as [Hr|Hr]; [now elim Hq | now rewrite <- Eq].
  - intros (a & b & -> & Ha & Hb & H1 & H2).
    rewrite trimStart_white by exact Ha.
    rewrite (@trimStart_black (p ++ b)) by now apply starts_black_app.
    rewrite rev_app_distr, trimStart_white by now rewrite forallb_rev.
    rewrite (@trimStart_black (rev p)) by exact H2. apply rev_involutive.
Qed.

(** X10.  [getInstrumentsPath] passes a path on exactly when [xcrun]
    reported no error and printed something other than white space; the
    path is then the output without the white space at its two ends: it is
    not empty and neither starts nor ends with white space.  In every other
    case the callback gets the not-found error. *)
Theorem getInstrumentsPath_trims (err stdout : option string) (p : string) :
  getInstrumentsPath err stdout = Some p <->
  err = None /\
  exists s a b,
    stdout = Some s /\ chars s = a ++ chars p ++ b /\
    forallb is_white_space a = true /\ forallb is_white_space b = true /\
    starts_black (chars p) = true /\ starts_black (rev (chars p)) = true.
Proof.
  unfold getInstrumentsPath, trim.
  assert (Hne : forall q : string, starts_black (chars q) = true -> chars q <> [])
    by (intros q Hq E; rewrite E in Hq; discriminate).
  split.
  - destruct err as [e|]; [discriminate|]. cbn [is_some orb].
    destruct (String.eqb _ "") eqn:Ee; [discriminate|]. intros H. injection H as H.
    split; [reflexivity|].
    assert (Hp : chars p <> []).
    { intros E. apply String.eqb_neq in Ee. apply Ee. rewrite H.
      rewrite <- (string_of_list_ascii_of_string p). fold (chars p).
      now rewrite E. }
    assert (Hl : rev (trimStart (rev (trimStart
                  (chars (match stdout with Some s => s | None => "" end)))))
                 = chars p).
    { unfold chars. rewrite <- H. now rewrite list_ascii_of_string_of_list_ascii. }
    apply (trim_spec _ Hp) in Hl. destruct Hl as (a & b & E & Ha & Hb & H1 & H2).
    destruct stdout as [s|].
    + exists s, a, b. repeat split; assumption.
    + exfalso. simpl in E. destruct a; [|discriminate].
      destruct (chars p); [now elim Hp | discriminate].
  - intros (-> & s & a & b & -> & E & Ha & Hb & H1 & H2). cbn [is_some orb].
    assert (Hl : rev (trimStart (rev (trimStart (list_ascii_of_string s))))
                 = chars p).
    { apply trim_spec; [now apply Hne|]. exists a, b. repeat split; assumption. }
    rewrite Hl. unfold chars. rewrite string_of_list_ascii_of_string.
    destruct (String.eqb p "") eqn:Ee; [|reflexivity].
    apply String.eqb_eq in Ee. subst p. discriminate H1.
Qed.

(** ** launchAndKill: one callback *)

Lemma lakCbs_app (t1 t2 : list lakAction) :
  lakCbs (t1 ++ t2) = lakCbs t1 ++ lakCbs t2.
Proof.
  induction t1 as [|a t1 IH]; [reflexivity|].
  destruct a; simpl; first [exact IH | now rewrite IH].
Qed.

Lemma lakKills_app (t1 t2 : list lakAction) :
  lakKills (t1 ++ t2) = lakKills t1 ++ lakKills t2.
Proof.
  induction t1 as [|a t1 IH]; [reflexivity|].
  destruct a; simpl; first [exact IH | now rewrite IH].
Qed.

Lemma lakThrown_app (t1 t2 : list lakAction) :
  lakThrown (t1 ++ t2) = lakThrown t1 ++ lakThrown t2.
Proof.
  induction t1 as [|a t1 IH]; [reflexivity|].
  destruct a; simpl; first [exact IH | now rewrite IH].
Qed.

Lemma lakStep_inv (xv : optval) (ms : N) (ev : lakEvent) (st : LakState)
  (t : list lakAction) :
  lak_inv xv st t ->
  lak_inv xv (fst (lakStep xv ms ev st)) (t ++ snd (lakStep xv ms ev st)).
Proof.
  unfold lak_inv. destruct st as [ip r pe ch tm].
  cbn [returned lak_pending lak_child lak_timer].
  intros [(-> & -> & -> & Hn & Hk & Hx)
         |[(-> & -> & -> & Hn & Hk & Hx)
          |[(-> & -> & -> & Hn & Hk & Hx & Hu)
           |[(-> & -> & -> & Hk & Hx & [[-> Hn]|[-> Hn]])
            |(-> & -> & -> & Hk & Hx & -> & Hn)]]]];
    destruct ev as [[p|]|msg|];
    cbn [lakStep lak_pending lak_child lak_timer];
    unfold lak_onInstrumentsPath, lak_onError, lak_onTimeout;
    try destruct (index 0 "ENOENT" msg);
    try (destruct xv as [| |[|c s]]; cbn [isXcode4]);
    cbn [returned negb];
    cbn [fst snd returned lak_pending lak_child lak_timer];
    rewrite ?app_nil_r, ?lakCbs_app, ?lakKills_app, ?lakThrown_app, ?length_app,
      ?Hn, ?Hk, ?Hx;
    cbn [lakCbs lakKills lakThrown app length Nat.add];
    try discriminate Hu;
    auto 15.
Qed.

Lemma lakRun_inv (xv : optval) (ms : N) (evs : list lakEvent) :
  forall (st : LakState) (t : list lakAction),
    lak_inv xv st t ->
    lak_inv xv (fst (lakRun xv ms evs st)) (t ++ snd (lakRun xv ms evs st)).
Proof.
  induction evs as [|ev evs IH]; intros st t H.
  - simpl. now rewrite app_nil_r.
  - cbn [lakRun]. pose proof (lakStep_inv ms ev H) as H1.
    destruct (lakStep xv ms ev st) as [st1 t1]. cbn [fst snd] in H1.
    pose proof (IH st1 _ H1) as H2.
    destruct (lakRun xv ms evs st1) as [st2 t2]. cbn [fst snd] in *.
    now rewrite app_assoc.
Qed.

Lemma lakStep_told (xv : optval) (ms : N) (ev : lakEvent) (st : LakState) :
  Forall lak_told (lakCbs (snd (lakStep xv ms ev st))).
Proof.
  destruct ev as [[p|]|msg|]; cbn [lakStep].
  - destruct (lak_pending st); [|constructor].
    unfold lak_onInstrumentsPath. destruct (isXcode4 xv); constructor.
  - destruct (lak_pending st); [|constructor].
    cbn. constructor; [now left | constructor].
  - destruct (lak_child st); [|constructor].
    unfold lak_onError. destruct (index 0 "ENOENT" msg) as [k|] eqn:E; [|constructor].
    destruct (negb (returned st)); [|constructor].
    cbn. constructor; [|constructor]. right. exists msg. split; [reflexivity|].
    now rewrite E.
  - destruct (lak_timer st); [|constructor].
    unfold lak_onTimeout. cbn [returned]. destruct (negb (returned st)); cbn;
      repeat constructor.
Qed.

Lemma lakRun_told (xv : optval) (ms : N) (evs : list lakEvent) :
  forall st : LakState, Forall lak_told (lakCbs (snd (lakRun xv ms evs st))).
Proof.
  induction evs as [|ev evs IH]; intros st; [constructor|].
  cbn [lakRun]. pose proof (lakStep_told xv ms ev st) as H1.
  destruct (lakStep xv ms ev st) as [st1 t1]. cbn [snd] in H1.
  pose proof (IH st1) as H2.
  destruct (lakRun xv ms evs st1) as [st2 t2]. cbn [snd] in *.
  rewrite lakCbs_app. apply Forall_app. auto.
Qed.

(** X11.  Whatever events follow a call of [launchAndKill], the caller is
    called back at most once, and with an error only when the binary was not
    found or the child could not be spawned for want of the executable.
    Once the lookup has called back and no timer is armed, either the caller
    has been called back exactly once, or [spawnInstruments] threw because
    the [xcodeVersion] option is undefined: then the caller is never called
    back, no child is spawned and no timer armed.  The only signal ever sent
    is one SIGKILL, to a child that was spawned, when the timer fires. *)
Theorem launchAndKill_calls_back_once (instrumentsPath0 : string)
  (xcodeVersion : optval) (ms : N) (evs : list lakEvent) :
  let '(st, t) := lakSession instrumentsPath0 xcodeVersion ms evs in
  length (lakCbs t) <= 1 /\
  Forall lak_told (lakCbs t) /\
  (lak_over st = true -> length (lakCbs t) + length (lakThrown t) = 1) /\
  (lakThrown t <> [] ->
   xcodeVersion = Undefined /\ lakCbs t = [] /\ lakKills t = [] /\
   lak_child st = false /\ lak_timer st = false) /\
  (lakKills t = [] \/
   (lakKills t = [SIGKILL] /\ lak_child st = true /\ lak_timer st = false)).
Proof.
  unfold lakSession, launchAndKill.
  pose proof (@lakRun_inv xcodeVersion ms evs
                {| lak_instrumentsPath := instrumentsPath0; returned := false;
                   lak_pending := true; lak_child := false; lak_timer := false |}
                [LakFind]) as H.
  assert (H0 : lak_inv xcodeVersion
                 {| lak_instrumentsPath := instrumentsPath0; returned := false;
                    lak_pending := true; lak_child := false; lak_timer := false |}
                 [LakFind]) by (left; repeat split).
  specialize (H H0). clear H0.
  pose proof (lakRun_told xcodeVersion ms evs
                {| lak_instrumentsPath := instrumentsPath0; returned := false;
                   lak_pending := true; lak_child := false; lak_timer := false |})
    as Htold.
  destruct (lakRun xcodeVersion ms evs _) as [st t]. cbn [fst snd] in H, Htold.
  unfold lak_inv, lak_over in *. cbn [app lakCbs lakKills lakThrown] in *.
  split; [|split; [exact Htold|]].
  - destruct H as [(Hp & Hc & Ht & Hn & Hk & Hx)
                  |[(Hp & Hc & Ht & Hn & Hk & Hx)
                   |[(Hp & Hc & Ht & Hn & Hk & Hx & Hu)
                    |[(Hp & Hc & Ht & Hk & Hx & [[Hr Hn]|[Hr Hn]])
                     |(Hp & Hc & Ht & Hk & Hx & Hr & Hn)]]]];
      rewrite ?Hn; cbn; lia.
  - destruct H as [(Hp & Hc & Ht & Hn & Hk & Hx)
                  |[(Hp & Hc & Ht & Hn & Hk & Hx)
                   |[(Hp & Hc & Ht & Hn & Hk & Hx & Hu)
                    |[(Hp & Hc & Ht & Hk & Hx & [[Hr Hn]|[Hr Hn]])
                     |(Hp & Hc & Ht & Hk & Hx & Hr & Hn)]]]];
      rewrite ?Hn, ?Hk, ?Hx, ?Hp, ?Hc, ?Ht; cbn;
      intuition (auto; try discriminate; try lia; try congruence).
Qed.

(** The executable is missing, the timer fires: one callback, with the
    spawn error, and one SIGKILL; and the same without [xcodeVersion]. *)
Lemma launchAndKill_calls_back_once_witness :
  let evs := [LakXcrunDone (Some "/usr/bin/instruments");
              LakProcError "spawn ENOENT"; LakTimerFired] in
  (let '(st, t) := lakSession "" (Str "5.1") 2000 evs in
   lak_over st = true /\
   lakCbs t = [Some "Unable to spawn instruments: spawn ENOENT"] /\
   lakKills t = [SIGKILL]) /\
  (let '(st, t) := lakSession "" Undefined 2000 evs in
   lakThrown t <> [] /\ lakCbs t = [] /\ lakKills t = []).
Proof.
  cbv zeta. split.
  - pose proof (launchAndKill_calls_back_once "" (Str "5.1") 2000
                  [LakXcrunDone (Some "/usr/bin/instruments");
                   LakProcError "spawn ENOENT"; LakTimerFired]) as H.
    destruct (lakSession _ _ _ _) as [st t] eqn:E.
    vm_compute in E. injection E as <- <-. repeat split.
  - pose proof (launchAndKill_calls_back_once "" Undefined 2000
                  [LakXcrunDone (Some "/usr/bin/instruments");
                   LakProcError "spawn ENOENT"; LakTimerFired]) as H.
    destruct (lakSession _ _ _ _) as [st t] eqn:E.
    destruct H as (_ & _ & _ & H & _).
    assert (Hx : lakThrown t <> [])
      by (vm_compute in E; injection E as <- <-; discriminate).
    destruct (H Hx) as (_ & H1 & H2 & _). auto.
Defined.

(** ** The channel: exchanges, and what [clean] forgets *)

(** X12.  From a handler that waits on a connection, commands sent one at
    a time, each answered before the next is sent, make as many round
    trips: each command is written at once, on the connection on which the
    previous message arrived, and each message's result ([false] for a
    message without one) goes to the callback of the command just written.
    The handler then waits on the connection of the last message. *)
Theorem exchanges_round_trip (l : list exchange) : forall c : conn,
  chRun (exchange_events l) (parked c)
  = Some (parked (last_conn c l), exchange_trace c l).
Proof.
  induction l as [|[[[cmd0 cb0] data] c'] l IH]; intros c; [reflexivity|].
  cbn [exchange_events flat_map app chRun].
  change (flat_map _ l) with (exchange_events l).
  assert (E : chStep (Inbound data c')
                {| curCommand := Some {| cmd := cmd0; cb := cb0 |};
                   commandQueue := []; onReceiveCommand := None |}
              = (Ret tt, parked c', [CmdCallback cb0 (answer data)])).
  { unfold chStep, handleCommand, answer, bind, get. simpl.
    destruct (prop data "result"); reflexivity. }
  assert (E1 : chStep (Enqueue cmd0 cb0) (parked c)
               = (Ret tt,
                  {| curCommand := Some {| cmd := cmd0; cb := cb0 |};
                     commandQueue := []; onReceiveCommand := None |},
                  [SockWrite c (nextCommand cmd0); SockEnd c])) by reflexivity.
  rewrite E1, E, IH. reflexivity.
Qed.

(** X13.  [clean] forgets the command in flight without calling it back:
    whatever calls and messages follow, the callbacks fired afterwards are
    those of the commands that were queued or are sent later, in that order,
    so the callback of the forgotten command never fires, unless the same
    callback was given to another command. *)
Theorem clean_forgets_in_flight (h : CommandHandler) (e : Command)
  (evs : list chEvent) :
  curCommand h = Some e ->
  ~ In (cb e) (map cb (commandQueue h ++ enqueued evs)) ->
  exists h' t,
    chRun evs (cleaned h) = Some (h', t) /\
    fired t ++ map cb (pending h')
      = map cb (commandQueue h) ++ map cb (enqueued evs) /\
    ~ In (cb e) (fired t).
Proof.
  intros Hcur Hnot.
  destruct (@chRun_accounts evs (cleaned h)) as (h' & t & E & _ & F & _).
  { intros H. now elim H. }
  exists h', t. split; [exact E|].
  assert (F' : fired t ++ map cb (pending h')
               = map cb (commandQueue h) ++ map cb (enqueued evs)) by exact F.
  split; [exact F'|].
  intros Hin. apply Hnot. rewrite map_app, <- F'. apply in_or_app. now left.
Qed.

Lemma clean_forgets_in_flight_witness :
  exists h' t,
    chRun [Inbound (JObj [("event", JStr "cmd"); ("result", JNum 1)]) 3;
           Inbound (JObj [("event", JStr "cmd"); ("result", JNum 2)]) 4]
      (cleaned {| curCommand := Some {| cmd := "a"; cb := 1 |};
                  commandQueue := [{| cmd := "b"; cb := 2 |}];
                  onReceiveCommand := None |})
    = Some (h', t) /\
    fired t ++ map cb (pending h') = [2] /\
    ~ In 1 (fired t).
Proof.
  apply (@clean_forgets_in_flight
           {| curCommand := Some {| cmd := "a"; cb := 1 |};
              commandQueue := [{| cmd := "b"; cb := 2 |}];
              onReceiveCommand := None |}
           {| cmd := "a"; cb := 1 |}
           [Inbound (JObj [("event", JStr "cmd"); ("result", JNum 1)]) 3;
            Inbound (JObj [("event", JStr "cmd"); ("result", JNum 2)]) 4]).
  - reflexivity.
  - simpl. intuition discriminate.
Defined.

(** ** Answers, matched to commands *)

(** With nothing in flight and nothing queued, messages are dropped: the
    handler only moves to the connection of the last one. *)
Lemma idle_messages_dropped (msgs : list (json * conn)) : forall c : conn,
  exists c', chRun (inbound_events msgs) (parked c) = Some (parked c', []).
Proof.
  induction msgs as [|[data c0] msgs IH]; intros c; [exists c; reflexivity|].
  cbn [inbound_events map chRun fst snd].
  change (map _ msgs) with (inbound_events msgs).
  assert (E : chStep (Inbound data c0) (parked c) = (Ret tt, parked c0, [])).
  { unfold chStep, handleCommand, bind, get. simpl.
    destruct (prop data "result"); reflexivity. }
  rewrite E. destruct (IH c0) as [c' ->]. exists c'. reflexivity.
Qed.

(** X14.  With a command in flight and others queued behind it, the
    messages of the peer are matched to the commands in order: each message
    answers the command in flight, whose callback gets the message's result
    ([false] for a message without one), and has the next queued command
    written on the connection the message came on.  Messages that arrive
    when no command is left are dropped.  Nothing throws. *)
Theorem answers_match_commands (msgs : list (json * conn)) :
  forall (e : Command) (q : list Command),
    exists h',
      chRun (inbound_events msgs) (busy e q) = Some (h', served e q msgs).
Proof.
  induction msgs as [|[data c] msgs IH]; intros e q;
    [exists (busy e q); reflexivity|].
  cbn [inbound_events map chRun fst snd served].
  change (map _ msgs) with (inbound_events msgs).
  destruct q as [|e' q'].
  - assert (E : chStep (Inbound data c) (busy e [])
                = (Ret tt, parked c, [CmdCallback (cb e) (answer data)])).
    { unfold chStep, handleCommand, answer, bind, get. simpl.
      destruct (prop data "result"); reflexivity. }
    rewrite E. destruct (idle_messages_dropped msgs c) as [c' ->].
    eexists. reflexivity.
  - assert (E : chStep (Inbound data c) (busy e (e' :: q'))
                = (Ret tt, busy e' q',
                   [CmdCallback (cb e) (answer data);
                    SockWrite c (nextCommand (cmd e')); SockEnd c])).
    { unfold chStep, handleCommand, answer, bind, get. simpl.
      destruct (prop data "result"); reflexivity. }
    rewrite E. destruct (IH e' q') as [h' ->]. eexists. reflexivity.
Qed.

(** ** The child's exit, case by case *)

(** From the outcome of a handler to the step of the driver. *)
Lemma post_step (JSON_parse : string -> option json) (ev : event) (w : World)
  (Q : World -> list action -> Prop) :
  post (handle JSON_parse ev) w (fun r w' t => r = Ret tt /\ Q w' t) ->
  Q (fst (step JSON_parse ev w)) (snd (step JSON_parse ev w)).
Proof.
  unfold post, step, complete.
  destruct (handle JSON_parse ev w) as [[r w'] t]. now intros [-> H].
Qed.

Ltac disarmed :=
  let tm := fresh "tm" in
  let Htm := fresh "Htm" in
  intros tm Htm; first [ discriminate Htm | injection Htm as <- ];
  repeat first [apply armed_disarm | apply armed_disarm_other].

Lemma sendCommand_on_null (JSON_parse : string -> option json) (w : World)
  (cmd0 : string) (cb0 : cbid) :
  commandHandler (self w) = None ->
  snd (step JSON_parse (CallSendCommand cmd0 cb0) w)
  = [Threw "TypeError: Cannot read property 'sendCommand' of null"].
Proof.
  intros H. unfold step, complete, handle, Instruments_sendCommand, bind, this,
    get, ret. simpl. rewrite H. reflexivity.
Qed.

(** X15.  With [ignoreStartupExit] set, the exit of the child before the
    peer has checked in completes the launch: the launch timer is cancelled
    and the launch callback fires, without an error.  The session it hands
    to the caller has already been cleaned up: its handler reference is
    null, so that [sendCommand] throws. *)
Theorem exit_completes_ignored_startup (JSON_parse : string -> option json)
  (w : World) (lcb : cbid) (p : pid) (code : option Z) (tmp : list (option string)) :
  ignoreStartupExit (self w) = true ->
  neverConnected (self w) = false ->
  instrumentsExited (self w) = false ->
  launchHandlerCalledBack (self w) = false ->
  launchHandlerCb (self w) = Some lcb ->
  commandHandler (self w) = Some TheHandler ->
  currentSocket (self w) = None ->
  let '(w', t) := step JSON_parse (ProcExit p code tmp) w in
  t = [LaunchCb lcb None] /\
  didLaunch (self w') = true /\ launchHandlerCalledBack (self w') = true /\
  proc (self w') = None /\ commandHandler (self w') = None /\
  (forall tm, socketConnectTimeout (self w) = Some tm ->
              armed tm (timers w') = None) /\
  forall cmd0 cb0,
    snd (step JSON_parse (CallSendCommand cmd0 cb0) w')
    = [Threw "TypeError: Cannot read property 'sendCommand' of null"].
Proof.
  intros Hi Hn He Hcb Hlcb Hch Hsock.
  pose proof (@post_step JSON_parse (ProcExit p code tmp) w
    (fun w' t =>
       t = [LaunchCb lcb None] /\
       didLaunch (self w') = true /\ launchHandlerCalledBack (self w') = true /\
       proc (self w') = None /\ commandHandler (self w') = None /\
       (forall tm, socketConnectTimeout (self w) = Some tm ->
                   armed tm (timers w') = None))) as H.
  destruct (step JSON_parse (ProcExit p code tmp) w) as [w' t]. cbn [fst snd] in H.
  assert (H' : t = [LaunchCb lcb None] /\
       didLaunch (self w') = true /\ launchHandlerCalledBack (self w') = true /\
       proc (self w') = None /\ commandHandler (self w') = None /\
       (forall tm, socketConnectTimeout (self w) = Some tm ->
                   armed tm (timers w') = None)).
  { apply H. clear H. unfold handle.
    destruct tmp as [|o tmp]; exec_handler; known;
      try congruence;
      try (rewrite ?Hi, ?Hn, ?He, ?Hcb in *; simpl in *; discriminate);
      (repeat split; [congruence | disarmed]). }
  destruct H' as (H1 & H2 & H3 & H4 & H5 & H6).
  repeat split; auto.
  intros cmd0 cb0. now apply sendCommand_on_null.
Qed.

Lemma exit_completes_ignored_startup_witness :
  let opts := {| o_launchTimeout := None; o_flakeyRetries := 0;
                 o_ignoreStartupExit := true; o_isSafariLauncherApp := false;
                 o_xcodeVersion := Str "5.1" |} in
  let w := fst (session (fun _ => None) opts 1 None
                  [XcrunDone (Some "/usr/bin/instruments") None []; Listening []]) in
  snd (step (fun _ => None) (ProcExit 0 (Some 0%Z) []) w) = [LaunchCb 1 None] /\
  didLaunch (self (fst (step (fun _ => None) (ProcExit 0 (Some 0%Z) []) w))) = true.
Proof.
  cbv zeta.
  match goal with |- context [step _ _ ?W] => set (w := W) end.
  pose proof (@exit_completes_ignored_startup (fun _ => None) w 1 0 (Some 0%Z) []
                eq_refl eq_refl eq_refl eq_refl eq_refl eq_refl eq_refl) as H.
  destruct (step (fun _ => None) (ProcExit 0 (Some 0%Z) []) w) as [w' t].
  destruct H as (H1 & H2 & _). split; assumption.
Defined.

(** ** Sessions that ignore the startup exit *)

Lemma exitCbs_app (t1 t2 : list action) :
  exitCbs (t1 ++ t2) = exitCbs t1 ++ exitCbs t2.
Proof.
  induction t1 as [|a t1 IH]; [reflexivity|].
  destruct a; simpl; first [exact IH | now rewrite IH].
Qed.

Lemma thrown_app (t1 t2 : list action) :
  thrown (t1 ++ t2) = thrown t1 ++ thrown t2.
Proof.
  induction t1 as [|a t1 IH]; [reflexivity|].
  destruct a; simpl; first [exact IH | now rewrite IH].
Qed.

Lemma handleCommand_channel_only (data : json) (c : conn) (h : CommandHandler) :
  channel_only (snd (handleCommand data c h)).
Proof.
  destruct h as [cur q orc]. unfold handleCommand, bind, get; simpl.
  destruct (prop data "result"), cur, q; simpl; repeat split.
Qed.

Lemma sendCommand_channel_only (cmd0 : string) (cb0 : cbid) (h : CommandHandler) :
  channel_only (snd (sendCommand cmd0 cb0 h)).
Proof.
  destruct h as [cur q orc]. unfold sendCommand, bind, get, modify; simpl.
  destruct orc; simpl; [|repeat split].
  unfold sendNext, bind, get; simpl.
  destruct (q ++ _); simpl; repeat split.
Qed.

Lemma post_onHandler_only {A : Type} (m : M CommandHandler A) (w : World)
  (Q : res A -> World -> list action -> Prop) :
  (forall h, channel_only (snd (m h))) ->
  (forall r h' t, channel_only t -> Q r (set_handlerObj h' w) t) ->
  post (onHandler m) w Q.
Proof.
  intros Hm HQ. unfold post, onHandler. specialize (Hm (handlerObj w)).
  destruct (m (handlerObj w)) as [[r h'] t]. now apply HQ.
Qed.

Ltac exitless :=
  repeat match goal with
    | H : channel_only _ |- _ => destruct H as (? & ? & ? & ?)
    | H : ignoring _ _ _ |- _ => destruct H as (? & ?)
    end;
  repeat match goal with H : _ |- _ => progress norm_in H end;
  norm; rewrite ?shutdownCbs_app, ?exitCbs_app; cbn [shutdownCbs exitCbs app];
  repeat match goal with
    | H : shutdownCbs _ = _ |- _ => rewrite H
    | H : exitCbs _ = _ |- _ => rewrite H
    end;
  cbn [shutdownCbs exitCbs app].

Ltac only_step :=
  first
    [ lazymatch goal with
      | |- post (onHandler (handleCommand _ _)) _ _ =>
          apply post_onHandler_only;
          [apply handleCommand_channel_only | intros ? ? ? ?; cbv beta iota; norm]
      | |- post (onHandler (sendCommand _ _)) _ _ =>
          apply post_onHandler_only;
          [apply sendCommand_channel_only | intros ? ? ? ?; cbv beta iota; norm]
      end
    | wp_step ].

Ltac ignoring_leaf :=
  unfold ignoring; exitless;
  (split;
   [ congruence
   | let Hign := fresh "Hign" in
     intros Hign;
     repeat match goal with
       | H : _ = true -> _ /\ _ |- _ => destruct (H Hign); clear H
       end;
     exitless; split; congruence ]).

Lemma launchHandler_ignoring (tmp : list (option string)) :
  forall err w, post (launchHandler tmp err) w (fun _ w' t => ignoring w w' t).
Proof.
  induction tmp as [|o tmp IH]; intros err w; cbn [launchHandler];
    repeat (cbv beta;
            first [ eapply post_mono;
                    [apply IH | intros ? ? ? Hq; cbv beta in Hq; cbv beta iota]
                  | wp_step ]);
    ignoring_leaf.
Qed.

Lemma handle_ignoring (JSON_parse : string -> option json) (ev : event) (w : World) :
  post (handle JSON_parse ev) w (fun _ w' t => ignoring w w' t).
Proof.
  destruct ev; unfold handle;
    repeat (cbv beta;
            first [ eapply post_mono;
                    [ apply launchHandler_ignoring
                    | intros ? ? ? Hq; cbv beta in Hq; cbv beta iota ]
                  | only_step ]);
    ignoring_leaf.
Qed.

Lemma step_ignoring (JSON_parse : string -> option json) (ev : event) (w : World) :
  ignoring w (fst (step JSON_parse ev w)) (snd (step JSON_parse ev w)).
Proof.
  pose proof (handle_ignoring JSON_parse ev w) as H. unfold post in H.
  unfold step, complete. destruct (handle JSON_parse ev w) as [[[u|msg] w'] t];
    simpl; [exact H|].
  unfold ignoring in *. rewrite shutdownCbs_app, exitCbs_app. simpl.
  now rewrite !app_nil_r.
Qed.

Lemma run_ignoring (JSON_parse : string -> option json) (evs : list event) :
  forall w : World,
    ignoring w (fst (run JSON_parse evs w)) (snd (run JSON_parse evs w)).
Proof.
  induction evs as [|ev evs IH]; intros w; simpl.
  - split; auto.
  - pose proof (step_ignoring JSON_parse ev w) as H1.
    destruct (step JSON_parse ev w) as [w1 t1]; simpl in H1.
    pose proof (IH w1) as H2.
    destruct (run JSON_parse evs w1) as [w2 t2]; simpl in *.
    destruct H1 as [A1 A2], H2 as [B1 B2]. split; [congruence|].
    intros Hi. rewrite shutdownCbs_app, exitCbs_app.
    destruct (A2 Hi) as [-> ->]. rewrite A1 in B2. destruct (B2 Hi) as [-> ->].
    auto.
Qed.

(** X16.  In a session created with [ignoreStartupExit] (or the
    deprecated [isSafariLauncherApp]), whatever the calls and events, neither
    a shutdown callback nor the exit handler is ever called: every exit of
    the child ends in [launchHandler]. *)
Theorem ignored_startup_never_reports_exit (JSON_parse : string -> option json)
  (opts : Opts) (lcb : cbid) (ecb : option cbid) (evs : list event) :
  o_ignoreStartupExit opts || o_isSafariLauncherApp opts = true ->
  let '(w, t) := session JSON_parse opts lcb ecb evs in
  ignoreStartupExit (self w) = true /\ shutdownCbs t = [] /\ exitCbs t = [].
Proof.
  intros Ho. unfold session. rewrite started_world.
  match goal with |- context [run _ _ ?W] => set (w0 := W) end.
  pose proof (run_ignoring JSON_parse evs w0) as H.
  destruct (run JSON_parse evs w0) as [w t]. cbn [fst snd] in H.
  destruct H as [H1 H2]. subst w0. cbn in H1, H2.
  rewrite Ho in *. destruct (H2 eq_refl) as [H3 H4].
  cbn [app shutdownCbs exitCbs]. auto.
Qed.

(** A session that ignores the startup exit, shut down after its launch:
    the child's exit calls nobody. *)
Lemma ignored_startup_never_reports_exit_witness :
  let opts := {| o_launchTimeout := None; o_flakeyRetries := 0;
                 o_ignoreStartupExit := true; o_isSafariLauncherApp := false;
                 o_xcodeVersion := Str "5.1" |} in
  let evs := [XcrunDone (Some "/usr/bin/instruments") None []; Listening [];
              SocketConnect 0; CallShutdown 7; ProcExit 0 (Some 0%Z) []] in
  feasible (fun _ => None) evs (fst (started opts 1 (Some 2))) = true /\
  shutdownCbs (snd (session (fun _ => None) opts 1 (Some 2) evs)) = [] /\
  exitCbs (snd (session (fun _ => None) opts 1 (Some 2) evs)) = [].
Proof.
  cbv zeta. split; [reflexivity|].
  pose proof (@ignored_startup_never_reports_exit (fun _ => None)
                {| o_launchTimeout := None; o_flakeyRetries := 0;
                   o_ignoreStartupExit := true; o_isSafariLauncherApp := false;
                   o_xcodeVersion := Str "5.1" |}
                1 (Some 2)
                [XcrunDone (Some "/usr/bin/instruments") None []; Listening [];
                 SocketConnect 0; CallShutdown 7; ProcExit 0 (Some 0%Z) []]
                eq_refl) as H.
  destruct (session _ _ _ _ _) as [w t]. cbn [snd]. tauto.
Defined.

(** ** An exit nobody asked for *)

(** A chunk of the child's output changes the trace directory only, to
    what the chunk names, if it names one. *)
Lemma stdout_sets_traceDir (JSON_parse : string -> option json) (w : World)
  (p : pid) (chunk : string) :
  step JSON_parse (ProcStdout p chunk) w =
  (match lookForTraceDir (clearBufferChars chunk) with
   | Some d => set_self (set_traceDir (Some d) (self w)) w
   | None => w
   end, []).
Proof.
  unfold step, complete, handle, outputStreamHandler.
  pose proof (@lookForTraceDir_not_empty (clearBufferChars chunk)) as Hne.
  destruct (lookForTraceDir (clearBufferChars chunk)) as [d|]; [|reflexivity].
  destruct (String.eqb d "") eqn:E; [|reflexivity].
  apply String.eqb_eq in E. subst d. now elim Hne.
Qed.

Lemma unexpected_exit (JSON_parse : string -> option json) (w : World)
  (p : pid) (code : option Z) (tmp : list (option string)) (ecb : option cbid) :
  didLaunch (self w) = true ->
  ignoreStartupExit (self w) = false ->
  neverConnected (self w) = false ->
  instrumentsExited (self w) = false ->
  commandHandler (self w) = Some TheHandler ->
  shutdownCb (self w) = None ->
  (currentSocket (self w) <> None -> server w <> NoServer) ->
  exitHandler (self w) = UserExit ecb ->
  post (handle JSON_parse (ProcExit p code tmp)) w
    (fun r w' t =>
       launchCbs t = [] /\ shutdownCbs t = [] /\ thrown t = [] /\
       commandHandler (self w') = None /\ proc (self w') = None /\
       match ecb with
       | Some f => r = Ret tt /\ exitCbs t = [(f, code, traceDir (self w))]
       | None => r = Exn "TypeError: undefined is not a function" /\ exitCbs t = []
       end).
Proof.
  intros Hd Hi Hn He Hc Hs Hsrv Hx. unfold handle.
  exec_handler; known;
    try congruence;
    try (rewrite ?Hd, ?Hi, ?Hn, ?He in *; simpl in *; discriminate);
    try (exfalso; apply Hsrv; congruence);
    rewrite ?launchCbs_app, ?shutdownCbs_app, ?exitCbs_app, ?thrown_app;
    cbn [launchCbs shutdownCbs exitCbs thrown app];
    try discriminate Hx; injection Hx as <-;
    repeat split; congruence.
Qed.

(** X17.  When the child of a launched session exits and no shutdown was
    asked for, the session is cleaned up and the exit handler given to
    [start] is called, once, with the exit code and the trace directory: the
    one named by the child's last chunk of output, if it names one, else the
    one known before.  When [start] was given no exit handler, the call
    throws a TypeError, after the cleanup. *)
Theorem unexpected_exit_reports_trace_dir (JSON_parse : string -> option json)
  (w : World) (p : pid) (chunk : string) (code : option Z)
  (tmp : list (option string)) (ecb : option cbid) :
  didLaunch (self w) = true ->
  ignoreStartupExit (self w) = false ->
  neverConnected (self w) = false ->
  instrumentsExited (self w) = false ->
  commandHandler (self w) = Some TheHandler ->
  shutdownCb (self w) = None ->
  (currentSocket (self w) <> None -> server w <> NoServer) ->
  exitHandler (self w) = UserExit ecb ->
  let '(w', t) := run JSON_parse [ProcStdout p chunk; ProcExit p code tmp] w in
  let d := match lookForTraceDir (clearBufferChars chunk) with
           | Some d => Some d
           | None => traceDir (self w)
           end in
  launchCbs t = [] /\ shutdownCbs t = [] /\
  commandHandler (self w') = None /\ proc (self w') = None /\
  match ecb with
  | Some f => exitCbs t = [(f, code, d)] /\ thrown t = []
  | None => exitCbs t = [] /\
            thrown t = ["TypeError: undefined is not a function"]
  end.
Proof.
  intros Hd Hi Hn He Hc Hs Hsrv Hx.
  cbn [run]. rewrite stdout_sets_traceDir.
  set (w1 := match lookForTraceDir (clearBufferChars chunk) with
             | Some d => set_self (set_traceDir (Some d) (self w)) w
             | None => w
             end).
  assert (Ht : traceDir (self w1) =
               match lookForTraceDir (clearBufferChars chunk) with
               | Some d => Some d
               | None => traceDir (self w)
               end)
    by (subst w1; destruct (lookForTraceDir _); reflexivity).
  assert (H : post (handle JSON_parse (ProcExit p code tmp)) w1
                (fun r w' t =>
                   launchCbs t = [] /\ shutdownCbs t = [] /\ thrown t = [] /\
                   commandHandler (self w') = None /\ proc (self w') = None /\
                   match ecb with
                   | Some f => r = Ret tt /\
                               exitCbs t = [(f, code, traceDir (self w1))]
                   | None => r = Exn "TypeError: undefined is not a function" /\
                             exitCbs t = []
                   end)).
  { apply unexpected_exit; subst w1;
      destruct (lookForTraceDir (clearBufferChars chunk)); assumption. }
  unfold post in H. unfold step, complete.
  destruct (handle JSON_parse (ProcExit p code tmp) w1) as [[r w'] t].
  destruct H as (H1 & H2 & H3 & H4 & H5 & H6). rewrite Ht in H6.
  destruct ecb as [f|]; destruct H6 as [-> H6]; cbn [app];
    rewrite ?launchCbs_app, ?shutdownCbs_app, ?exitCbs_app, ?thrown_app,
      ?H1, ?H2, ?H3, ?H6; cbn; rewrite ?app_nil_r; repeat split; assumption.
Qed.

(** A launched session whose child prints a completion line and exits. *)
Lemma unexpected_exit_reports_trace_dir_witness :
  let w := fst (session (fun _ => None) sample_opts 1 (Some 2)
                  [XcrunDone (Some "/usr/bin/instruments") None []; Listening [];
                   SocketConnect 0]) in
  let line := "Instruments Trace Complete (Duration : 1.0s; Output : /tmp/x.trace)" in
  exitCbs (snd (run (fun _ => None)
                  [ProcStdout 0 (line ++ nl); ProcExit 0 (Some 1%Z) []] w))
  = [(2, Some 1%Z, Some "/tmp/x.trace")].
Proof.
  cbv zeta.
  match goal with |- context [run _ _ ?W] => set (w := W) end.
  assert (Hsrv : currentSocket (self w) <> None -> server w <> NoServer)
    by (intros _; discriminate).
  pose proof (@unexpected_exit_reports_trace_dir (fun _ => None) w 0
                ("Instruments Trace Complete (Duration : 1.0s; Output : /tmp/x.trace)"
                 ++ nl) (Some 1%Z) [] (Some 2)
                eq_refl eq_refl eq_refl eq_refl eq_refl eq_refl Hsrv eq_refl) as H.
  destruct (run _ _ w) as [w' t]. cbn [snd].
  destruct H as (_ & _ & _ & _ & H & _). exact H.
Defined.

(** ** What the exit closes *)

Lemma closings_app (t1 t2 : list action) :
  closings (t1 ++ t2) = closings t1 ++ closings t2.
Proof.
  induction t1 as [|a t1 IH]; [reflexivity|].
  destruct a; simpl; first [exact IH | now rewrite IH].
Qed.

Lemma exit_closes (JSON_parse : string -> option json) (w : World)
  (p : pid) (code : option Z) (tmp : list (option string)) :
  didLaunch (self w) = true ->
  ignoreStartupExit (self w) = false ->
  neverConnected (self w) = false ->
  instrumentsExited (self w) = false ->
  commandHandler (self w) = Some TheHandler ->
  (currentSocket (self w) <> None -> server w <> NoServer) ->
  post (handle JSON_parse (ProcExit p code tmp)) w
    (fun _ w' t =>
       currentSocket (self w') = currentSocket (self w) /\
       conns w' = conns w /\
       match currentSocket (self w) with
       | Some c =>
           closings t = [SockEnd c; SockDestroy c; ServerClose] /\
           server w' = ServerClosed
       | None => closings t = [] /\ server w' = server w
       end).
Proof.
  intros Hd Hi Hn He Hc Hsrv. unfold handle.
  exec_handler; known;
    try congruence;
    try (rewrite ?Hd, ?Hi, ?Hn, ?He in *; simpl in *; discriminate);
    try (exfalso; apply Hsrv; congruence);
    rewrite ?closings_app; cbn [closings app];
    repeat split; congruence.
Qed.

(** X18.  The exit of the child of a launched session closes the server
    only when a connection is current at that time: that connection is
    ended and destroyed and the server closed, so that no connection is
    accepted afterwards.  With no current connection (none was opened, or
    the last event of any connection was its close) nothing is closed: a
    server that listens goes on listening, and accepts the connections that
    come after the session is over.  In neither case is [currentSocket]
    reset, nor any other open connection ended. *)
Theorem exit_closes_server_with_current_connection
  (JSON_parse : string -> option json) (w : World) (p : pid) (code : option Z)
  (tmp : list (option string)) (c' : conn) :
  didLaunch (self w) = true ->
  ignoreStartupExit (self w) = false ->
  neverConnected (self w) = false ->
  instrumentsExited (self w) = false ->
  commandHandler (self w) = Some TheHandler ->
  (currentSocket (self w) <> None -> server w <> NoServer) ->
  let '(w', t) := step JSON_parse (ProcExit p code tmp) w in
  currentSocket (self w') = currentSocket (self w) /\
  conns w' = conns w /\
  match currentSocket (self w) with
  | Some c =>
      closings t = [SockEnd c; SockDestroy c; ServerClose] /\
      enabled (SocketConnect c') w' = false
  | None =>
      closings t = [] /\
      enabled (SocketConnect c') w' = enabled (SocketConnect c') w
  end.
Proof.
  intros Hd Hi Hn He Hc Hsrv.
  pose proof (@exit_closes JSON_parse w p code tmp Hd Hi Hn He Hc Hsrv) as H.
  unfold post in H. unfold step, complete.
  destruct (handle JSON_parse (ProcExit p code tmp) w) as [[r w'] t].
  destruct H as (H1 & H2 & H3).
  assert (Hcl : closings (match r with
                          | Ret _ => t
                          | Exn msg => t ++ [Threw msg]
                          end) = closings t).
  { destruct r; [reflexivity|]. rewrite closings_app. apply app_nil_r. }
  destruct r as [u|msg]; cbn [fst snd] in *;
    (split; [exact H1|]; split; [exact H2|]);
    destruct (currentSocket (self w)) as [c|]; destruct H3 as [H3 H4];
    rewrite ?closings_app, ?H3; cbn [closings app];
    (split; [reflexivity|]); unfold enabled; rewrite H4, ?H2; reflexivity.
Qed.

(** A launched session whose peer's connection has closed: at the exit
    the server goes on listening. *)
Lemma exit_closes_server_with_current_connection_witness :
  let w := fst (session (fun _ => None) sample_opts 1 (Some 2)
                  [XcrunDone (Some "/usr/bin/instruments") None []; Listening [];
                   SocketConnect 0; SocketClose 0]) in
  let r := step (fun _ => None) (ProcExit 0 (Some 0%Z) []) w in
  currentSocket (self w) = None /\
  closings (snd r) = [] /\ enabled (SocketConnect 1) (fst r) = true.
Proof.
  cbv zeta.
  match goal with |- context [step _ _ ?W] => set (w := W) end.
  assert (Hs : currentSocket (self w) <> None -> server w <> NoServer)
    by (intros _; discriminate).
  pose proof (@exit_closes_server_with_current_connection (fun _ => None) w 0
                (Some 0%Z) [] 1 eq_refl eq_refl eq_refl eq_refl eq_refl Hs) as H.
  destruct (step _ _ w) as [w' t]. cbn [fst snd].
  destruct H as (_ & _ & H). change (currentSocket (self w)) with (@None conn) in H.
  destruct H as [H1 H2]. split; [reflexivity|]. split; [exact H1|].
  rewrite H2. reflexivity.
Defined.

(** ** Shutdown, where it is not answered *)






(** The exit of the child of a launched session with a shutdown callback
    stored, as far as the timers go: only the timer of the last [shutdown]
    is cancelled. *)
Lemma exit_after_shutdown_timers (JSON_parse : string -> option json)
  (w : World) (p : pid) (f : cbid) (tm : timer) (code : option Z)
  (tmp : list (option string)) :
  didLaunch (self w) = true ->
  ignoreStartupExit (self w) = false ->
  neverConnected (self w) = false ->
  instrumentsExited (self w) = false ->
  commandHandler (self w) = Some TheHandler ->
  (currentSocket (self w) <> None -> server w <> NoServer) ->
  shutdownCb (self w) = Some f ->
  termTimer (self w) = Some tm ->
  killTimer (self w) = None ->
  post (handle JSON_parse (ProcExit p code tmp)) w
    (fun r w' t =>
       r = Ret tt /\ shutdownCbs t = [f] /\ shutdownCb (self w') = None /\
       timers w' = disarm tm (timers w)).
Proof.
  intros Hd Hi Hn He Hc Hs Hf Ht Hk. unfold handle.
  exec_handler; known;
    try congruence;
    try (rewrite ?Hd, ?Hi, ?Hn, ?He in *; simpl in *; discriminate);
    try (exfalso; apply Hs; congruence);
    shut_traces; repeat split; congruence.
Qed.

(** X20.  A second [shutdown] before the child has exited replaces the
    first: the child gets a second SIGTERM, and at its exit only the second
    callback is called; the first is never called.  Only the second
    termination timer is cancelled at the exit: the first stays armed and,
    when it fires, issues the forceful kill although the child is gone. *)
Theorem second_shutdown_replaces_first (JSON_parse : string -> option json)
  (w : World) (p : pid) (f1 f2 : cbid) (code : option Z)
  (tmp : list (option string)) :
  didLaunch (self w) = true ->
  ignoreStartupExit (self w) = false ->
  neverConnected (self w) = false ->
  instrumentsExited (self w) = false ->
  proc (self w) = Some p ->
  commandHandler (self w) = Some TheHandler ->
  (currentSocket (self w) <> None -> server w <> NoServer) ->
  killTimer (self w) = None ->
  let '(w', t) :=
    run JSON_parse [CallShutdown f1; CallShutdown f2; ProcExit p code tmp] w in
  firstn 2 t = [Kill p SIGTERM; Kill p SIGTERM] /\
  shutdownCbs t = [f2] /\ shutdownCb (self w') = None /\
  armed (S (nextTimer w)) (timers w') = None /\
  armed (nextTimer w) (timers w') = Some TermTimeout /\
  snd (step JSON_parse (TimerFired (nextTimer w)) w') = [KillAll] /\
  forall evs,
    forallb (fun ev => negb (is_shutdown_call ev)) evs = true ->
    shutdownCbs (snd (run JSON_parse evs w')) = [].
Proof.
  intros Hd Hi Hn He Hp Hc Hs Hk.
  assert (E1 : forall f w0, proc (self w0) = Some p ->
             step JSON_parse (CallShutdown f) w0 =
             (set_self (set_shutdownCb (Some f)
                          (set_termTimer (Some (nextTimer w0)) (self w0)))
                (set_timers ((nextTimer w0, TermTimeout) :: timers w0)
                   (set_nextTimer (S (nextTimer w0)) w0)),
              [Kill p SIGTERM])).
  { intros f w0 Hp0.
    unfold step, complete, handle, shutdown, termProc, bind, this, get, ret.
    simpl. rewrite Hp0. reflexivity. }
  cbn [run]. rewrite (E1 f1 w Hp).
  match goal with |- context [step _ (CallShutdown f2) ?W] => set (w1 := W) end.
  rewrite (E1 f2 w1 Hp).
  match goal with |- context [step _ (ProcExit _ _ _) ?W] => set (w2 := W) end.
  pose proof (@exit_after_shutdown_timers JSON_parse w2 p f2 (S (nextTimer w))
                code tmp Hd Hi Hn He Hc Hs eq_refl eq_refl Hk) as H.
  unfold post in H. unfold step at 1, complete.
  destruct (handle JSON_parse (ProcExit p code tmp) w2) as [[r w3] t3].
  destruct H as (-> & H1 & H2 & H3).
  assert (Ht : timers w3 = (nextTimer w, TermTimeout) :: disarm (S (nextTimer w)) (timers w)).
  { rewrite H3. subst w2 w1. norm. cbn [disarm]. rewrite Nat.eqb_refl.
    replace (S (nextTimer w) =? nextTimer w) with false
      by (symmetry; apply Nat.eqb_neq; lia).
    reflexivity. }
  rewrite app_nil_r. cbn [app firstn shutdownCbs]. rewrite H1.
  split; [reflexivity|]. split; [reflexivity|]. split; [exact H2|].
  split; [rewrite Ht; cbn [armed];
          replace (S (nextTimer w) =? nextTimer w) with false
            by (symmetry; apply Nat.eqb_neq; lia);
          apply armed_disarm|].
  split; [rewrite Ht; cbn [armed]; now rewrite Nat.eqb_refl|].
  split.
  - unfold step, complete, handle, bind, get, ret, helpers_killProc, emit, modify.
    rewrite Ht. cbn [armed]. rewrite Nat.eqb_refl. reflexivity.
  - intros evs Hevs. now apply run_after_shutdown.
Qed.

Lemma second_shutdown_replaces_first_witness :
  let w := fst (session (fun _ => None) sample_opts 1 None
                  [XcrunDone (Some "/usr/bin/instruments") None []; Listening [];
                   SocketConnect 0]) in
  let r := run (fun _ => None)
             [CallShutdown 7; CallShutdown 8; ProcExit 0 None []] w in
  shutdownCbs (snd r) = [8] /\
  snd (step (fun _ => None) (TimerFired (nextTimer w)) (fst r)) = [KillAll].
Proof.
  cbv zeta.
  match goal with |- context [run _ _ ?W] => set (w := W) end.
  assert (Hs : currentSocket (self w) <> None -> server w <> NoServer)
    by (intros _; discriminate).
  pose proof (@second_shutdown_replaces_first (fun _ => None) w 0 7 8 None []
                eq_refl eq_refl eq_refl eq_refl eq_refl eq_refl Hs eq_refl) as H.
  destruct (run _ _ w) as [w' t]. cbn [fst snd].
  destruct H as (_ & H1 & _ & _ & _ & H2 & _). split; assumption.
Defined.

(** ** [start] after a failed launch *)

(** X21.  An object whose launch is marked as called back and not as done,
    which is how a failed launch leaves it, cannot be launched again:
    [start] is accepted, since the launch is not done, and looks the binary
    up, but whatever happens afterwards (the peer may even check in) no
    launch callback is called, neither the new one nor the old. *)
Theorem restart_after_failure_never_calls_back (JSON_parse : string -> option json)
  (w : World) (lcb : cbid) (ecb : option cbid) (evs : list event) :
  launchHandlerCalledBack (self w) = true ->
  didLaunch (self w) = false ->
  let '(w1, t1) := complete (start lcb ecb) w in
  t1 = [FindInstruments] /\ launchHandlerCb (self w1) = Some lcb /\
  launchCbs (snd (run JSON_parse evs w1)) = [].
Proof.
  intros Hcb Hd.
  assert (E : complete (start lcb ecb) w =
              (set_pendingPath (S (pendingPath w))
                 (set_self (set_exitHandler (UserExit ecb)
                              (set_launchHandlerCb (Some lcb) (self w))) w),
               [FindInstruments])).
  { unfold complete, start, bind, this, get, ret, withSelf, modify, emit.
    simpl. rewrite Hd. reflexivity. }
  rewrite E. split; [reflexivity|]. split; [reflexivity|].
  match goal with |- context [run _ _ ?W] => set (w1 := W) end.
  destruct (run_keeps lcb JSON_parse evs w1) as [_ _ _ _ H5 _ _ _].
  now destruct (H5 Hcb).
Qed.

(** A launch that failed with a crash on startup, then a second [start]
    during which the peer checks in. *)
Lemma restart_after_failure_never_calls_back_witness :
  let w := fst (session (fun _ => None) sample_opts 1 None
                  [XcrunDone (Some "/usr/bin/instruments") None []; Listening [];
                   ProcExit 0 (Some 1%Z) []]) in
  let evs := [XcrunDone (Some "/usr/bin/instruments") None []; Listening [];
              SocketConnect 0] in
  launchHandlerCalledBack (self w) = true /\ didLaunch (self w) = false /\
  feasible (fun _ => None) evs (fst (complete (start 5 None) w)) = true /\
  snd (complete (start 5 None) w) = [FindInstruments] /\
  launchCbs (snd (run (fun _ => None) evs (fst (complete (start 5 None) w)))) = [].
Proof.
  cbv zeta.
  match goal with |- context [complete _ ?W] => set (w := W) end.
  split; [reflexivity|]. split; [reflexivity|]. split; [reflexivity|].
  pose proof (@restart_after_failure_never_calls_back (fun _ => None) w 5 None
                [XcrunDone (Some "/usr/bin/instruments") None []; Listening [];
                 SocketConnect 0] eq_refl eq_refl) as H.
  destruct (complete (start 5 None) w) as [w1 t1]. cbn [fst snd].
  destruct H as (H1 & _ & H2). split; assumption.
Defined.

(** ** The peer's messages *)





(** X23.  A message other than null that has no [event] property of its
    own, or whose event converts to a property key other than [cmd], is
    dropped: the buffer is emptied and nothing else changes; no callback is
    called, nothing is written to the connection, and the connection is not
    ended.  When the event has no conversion to a property key, as is the
    case of an object with a [toString] property of its own, the listener
    throws the TypeError of the conversion, after it has emptied the
    buffer, and nothing else changes either. *)
Theorem unrouted_message_dropped (JSON_parse : string -> option json)
  (w : World) (c : conn) (data : json) :
  JSON_parse (bufferedData (self w)) = Some data ->
  data <> JNull ->
  (match prop data "event" with
   | None => True
   | Some ev => exists key, toKey ev = Ret key /\ key <> "cmd"
   end ->
   step JSON_parse (SocketEnd c) w
   = (set_self (set_bufferedData "" (self w)) w, [])) /\
  (forall ev msg,
     prop data "event" = Some ev -> toKey ev = Exn msg ->
     step JSON_parse (SocketEnd c) w
     = (set_self (set_bufferedData "" (self w)) w, [Threw msg])) /\
  (forall kvs,
     toKey (JObj kvs) = Ret "[object Object]" \/
     (assoc "toString" kvs <> None /\
      toKey (JObj kvs) = Exn "TypeError: Cannot convert object to primitive value")).
Proof.
  intros Hp Hnull.
  assert (E : step JSON_parse (SocketEnd c) w =
              complete
                (match prop data "event" with
                 | None => ret tt
                 | Some ev =>
                     match toKey ev with
                     | Exn msg => throw msg
                     | Ret key =>
                         if negb (String.eqb key "cmd") then ret tt
                         else onHandler (handleCommand data c)
                     end
                 end)
                (set_self (set_bufferedData "" (self w)) w)).
  { unfold step, complete, handle, onSocketEnd, bind, this, get, ret, withSelf,
      modify. cbn. rewrite Hp.
    destruct data as [| | | | |kvs]; try reflexivity; [now elim Hnull|].
    cbn [prop]. destruct (assoc "event" kvs) as [ev|]; [|reflexivity].
    destruct (toKey ev) as [key|msg]; [|reflexivity].
    destruct (negb (key =? "cmd")%string); [reflexivity|].
    destruct (onHandler _ _) as [[r w'] t]. reflexivity. }
  rewrite E. clear E. split; [|split].
  - destruct (prop data "event") as [ev|]; [|reflexivity].
    intros (key & -> & Hkey). apply String.eqb_neq in Hkey. rewrite Hkey.
    reflexivity.
  - intros ev msg -> ->. reflexivity.
  - intros kvs. cbn [toKey]. destruct (assoc "toString" kvs).
    + right. split; [discriminate | reflexivity].
    + now left.
Qed.

(** A message for an event that has no route, and one whose event is an
    object with a [toString] property. *)
Lemma unrouted_message_dropped_witness :
  let parse := fun _ : string => Some (JObj [("event", JStr "log");
                                             ("result", JNum 1)]) in
  let parse' := fun _ : string =>
                  Some (JObj [("event", JObj [("toString", JNum 1)])]) in
  let evs := [XcrunDone (Some "/usr/bin/instruments") None []; Listening [];
              SocketConnect 0; CallSendCommand "a" 10; SocketData 0 "{..}"] in
  let w := fst (session parse sample_opts 1 None evs) in
  let w' := fst (session parse' sample_opts 1 None evs) in
  step parse (SocketEnd 0) w = (set_self (set_bufferedData "" (self w)) w, []) /\
  step parse' (SocketEnd 0) w'
  = (set_self (set_bufferedData "" (self w')) w',
     [Threw "TypeError: Cannot convert object to primitive value"]).
Proof.
  cbv zeta. split.
  - refine (proj1 (@unrouted_message_dropped _ _ 0
                     (JObj [("event", JStr "log"); ("result", JNum 1)])
                     eq_refl _) _); [discriminate|].
    exists "log". split; [reflexivity | discriminate].
  - refine (proj1 (proj2 (@unrouted_message_dropped _ _ 0
                            (JObj [("event", JObj [("toString", JNum 1)])])
                            eq_refl _)) _ _ eq_refl eq_refl).
    discriminate.
Defined.

(** X24.  The peer's first connection completes the launch: the launch
    timer is cancelled, the launch is marked as done, a timeout noted
    earlier is forgotten, and the launch callback is called without an
    error.  The cancelled timer does nothing if it is delivered all the
    same. *)
Theorem check_in_completes_launch (JSON_parse : string -> option json)
  (w : World) (lcb : cbid) (c : conn) (tm : timer) :
  hasConnected (self w) = false ->
  launchHandlerCalledBack (self w) = false ->
  launchHandlerCb (self w) = Some lcb ->
  socketConnectTimeout (self w) = Some tm ->
  let '(w', t) := step JSON_parse (SocketConnect c) w in
  t = [LaunchCb lcb None] /\
  didLaunch (self w') = true /\ neverConnected (self w') = false /\
  hasConnected (self w') = true /\ currentSocket (self w') = Some c /\
  armed tm (timers w') = None /\
  step JSON_parse (TimerFired tm) w' = (w', []).
Proof.
  intros Hh Hcb Hlcb Htm.
  assert (E : step JSON_parse (SocketConnect c) w =
    (set_self
       (set_currentSocket (Some c)
          (set_launchHandlerCalledBack true
             (set_neverConnected false
                (set_didLaunch true (set_hasConnected true (self w))))))
       (set_timers (disarm tm (timers w)) (set_conns (c :: conns w) w)),
     [LaunchCb lcb None])).
  { unfold step, complete, handle, onSocketConnect, bind, this, get, ret, withSelf,
      modify, when. cbn. rewrite Hh. cbn. rewrite Hcb. cbn. rewrite Htm. cbn.
      unfold callLaunchHandlerCb, bind, this, get, ret. cbn. rewrite Hlcb.
      reflexivity. }
  rewrite E. repeat split.
  - cbn. apply armed_disarm.
  - unfold step, complete, handle, bind, get, ret. cbn.
    rewrite armed_disarm. reflexivity.
Qed.

Lemma check_in_completes_launch_witness :
  let w := fst (session (fun _ => None) sample_opts 1 None
                  [XcrunDone (Some "/usr/bin/instruments") None []; Listening []]) in
  snd (step (fun _ => None) (SocketConnect 0) w) = [LaunchCb 1 None] /\
  step (fun _ => None) (TimerFired 0) (fst (step (fun _ => None) (SocketConnect 0) w))
    = (fst (step (fun _ => None) (SocketConnect 0) w), []).
Proof.
  cbv zeta.
  match goal with |- context [step _ (SocketConnect 0) ?W] => set (w := W) end.
  pose proof (@check_in_completes_launch (fun _ => None) w 1 0 0
                eq_refl eq_refl eq_refl eq_refl) as H.
  destruct (step (fun _ => None) (SocketConnect 0) w) as [w' t]. cbn [fst snd].
  destruct H as (H1 & _ & _ & _ & _ & _ & H2). split; assumption.
Defined.
